(** * styled-unused-exports: the cross-file usage-inference engine

    A shallow embedding of the extension's checker (the file with
    [readFileWithCache], [checkDocument], [getExportedComponents],
    [findFilesImportingFromCached] and [getUsedComponentsFromFileCached])
    together with the properties its specification states about it.

    JavaScript strings are sequences of UTF-16 code units, regular
    expressions are interpreted by a backtracking matcher that lists the
    successful continuations in priority order, and the module-level
    [Map]s of the extension are finite maps threaded through the calls. *)

From Stdlib Require Import NArith List String Ascii Lia Bool.
From stdpp Require Import base option list countable gmap.

Set Default Proof Using "Type".

(** ** Strings *)

(** A JavaScript string: a list of UTF-16 code units. *)
Abbreviation jsstring := (list N).

(** A string literal of the source; every literal of the program is ASCII. *)
Definition lit (s : string) : jsstring :=
  map N_of_ascii (list_ascii_of_string s).

Arguments lit : simpl never.

Definition inRange (lo hi c : N) : bool := ((lo <=? c) && (c <=? hi))%N.

(** [\w] of a regular expression without the [u] and [i] flags. *)
Definition isWordChar (c : N) : bool :=
  inRange 65 90 c || inRange 97 122 c || inRange 48 57 c || (c =? 95)%N.

(** Line terminators: LF, CR, LS, PS. *)
Definition isLineTerminator (c : N) : bool :=
  (c =? 10)%N || (c =? 13)%N || (c =? 8232)%N || (c =? 8233)%N.

(** [\s], which is also what [String.prototype.trim] strips: white space
    and line terminators. *)
Definition isWhiteSpace (c : N) : bool :=
  inRange 9 13 c || (c =? 32)%N || (c =? 160)%N || (c =? 5760)%N
  || inRange 8192 8202 c || (c =? 8232)%N || (c =? 8233)%N
  || (c =? 8239)%N || (c =? 8287)%N || (c =? 12288)%N || (c =? 65279)%N.

Definition jseqb (a b : jsstring) : bool := bool_decide (a = b).

Fixpoint startsWith (s sub : jsstring) {struct sub} : bool :=
  match sub, s with
  | [], _ => true
  | _ :: _, [] => false
  | c :: sub', d :: s' => (c =? d)%N && startsWith s' sub'
  end.

(** [s.includes(sub)] *)
Fixpoint includes (s sub : jsstring) : bool :=
  startsWith s sub ||
  match s with
  | [] => false
  | _ :: s' => includes s' sub
  end.

(** [s.indexOf(sub)] counted from the head of [s]. *)
Fixpoint indexOf0 (s sub : jsstring) : option nat :=
  if startsWith s sub then Some 0
  else match s with
       | [] => None
       | _ :: s' => S <$> indexOf0 s' sub
       end.

(** [s.indexOf(sub, from)] *)
Definition indexOf (s sub : jsstring) (from : nat) : option nat :=
  let from' := Nat.min from (length s) in
  (fun i => from' + i) <$> indexOf0 (drop from' s) sub.

(** [s.slice(a, b)] for [0 <= a], [0 <= b]. *)
Definition slice (s : jsstring) (a b : nat) : jsstring := take (b - a) (drop a s).

Fixpoint trimStart (s : jsstring) : jsstring :=
  match s with
  | c :: s' => if isWhiteSpace c then trimStart s' else s
  | [] => []
  end.

(** [s.trim()] *)
Definition trim (s : jsstring) : jsstring :=
  rev (trimStart (rev (trimStart s))).

(** [s.split(sep)] for a separator of one code unit. *)
Fixpoint split (sep : N) (s : jsstring) : list jsstring :=
  match s with
  | [] => [[]]
  | c :: s' =>
      if (c =? sep)%N then [] :: split sep s'
      else match split sep s' with
           | p :: ps => (c :: p) :: ps
           | [] => [[c]]
           end
  end.

(** [c.toUpperCase()] for a code unit of [[A-Za-z0-9_]], the only units the
    usage scan applies it to: a lowercase letter becomes its capital, the
    others are unchanged. *)
Definition toUpperCase1 (c : N) : N :=
  if inRange 97 122 c then (c - 32)%N else c.

(** ** Regular expressions *)

(** The members of a character class. *)
Inductive cls :=
| CChar (c : N)
| CRange (lo hi : N)
| CWord
| CSpace
| CNotSpace.

Definition inCls (c : N) (k : cls) : bool :=
  match k with
  | CChar d => (c =? d)%N
  | CRange lo hi => inRange lo hi c
  | CWord => isWordChar c
  | CSpace => isWhiteSpace c
  | CNotSpace => negb (isWhiteSpace c)
  end.

(** The fragment of the pattern language the program's expressions use. *)
Inductive regex :=
| REmpty
| RChar (c : N)
| RAny
| RSet (neg : bool) (items : list cls)
| RStart
| REnd
| RWordB
| RSeq (a b : regex)
| RAlt (a b : regex)
| RStar (greedy : bool) (a : regex)
| RPlus (greedy : bool) (a : regex)
| ROpt (greedy : bool) (a : regex)
| RGroup (n : nat) (a : regex).

Definition rcat (rs : list regex) : regex := foldr RSeq REmpty rs.
Definition rlit (s : jsstring) : regex := rcat (map RChar s).
Definition rword : regex := RSet false [CWord].
Definition rspace : regex := RSet false [CSpace].

(** A state of the matcher: the end index reached and the captures. *)
Record mstate := MState { pos : nat; caps : list (option (nat * nat)) }.

Definition advance (st : mstate) : mstate := MState (S (pos st)) (caps st).

Definition setCap (n a b : nat) (st : mstate) : mstate :=
  MState (pos st) (<[n := Some (a, b)]> (caps st)).

Fixpoint groupsOf (r : regex) : list nat :=
  match r with
  | RSeq a b | RAlt a b => groupsOf a ++ groupsOf b
  | RStar _ a | RPlus _ a | ROpt _ a => groupsOf a
  | RGroup n a => n :: groupsOf a
  | _ => []
  end.

(** Each iteration of a quantifier starts with the captures of its atom
    undefined. *)
Definition clearCaps (ns : list nat) (st : mstate) : mstate :=
  MState (pos st) (foldr (fun n cs => <[n := None]> cs) (caps st) ns).

Definition step1 (s : jsstring) (p : N -> bool) (st : mstate) : list mstate :=
  match s !! pos st with
  | Some c => if p c then [advance st] else []
  | None => []
  end.

Definition isWordAt (s : jsstring) (i : nat) : bool :=
  match s !! i with Some c => isWordChar c | None => false end.

Definition atWordBoundary (s : jsstring) (i : nat) : bool :=
  xorb (match i with 0 => false | S j => isWordAt s j end) (isWordAt s i).

(** The iterations of a quantifier whose minimum is reached: an iteration
    that consumes nothing is rejected, so [fuel] greater than the rest of
    the input is never used up. *)
Fixpoint repeatLoop (body : mstate -> list mstate) (greedy : bool)
    (fuel : nat) (st : mstate) : list mstate :=
  match fuel with
  | 0 => [st]
  | S f =>
      let more :=
        flat_map (fun st' => if pos st' =? pos st then []
                             else repeatLoop body greedy f st') (body st) in
      if greedy then more ++ [st] else st :: more
  end.

(** [rmatch s r st]: the states in which [r] can end when started in [st],
    in the order in which backtracking tries them. *)
Fixpoint rmatch (s : jsstring) (r : regex) (st : mstate) {struct r}
    : list mstate :=
  match r with
  | REmpty => [st]
  | RChar c => step1 s (N.eqb c) st
  | RAny => step1 s (fun c => negb (isLineTerminator c)) st
  | RSet neg items =>
      step1 s (fun c => xorb neg (existsb (inCls c) items)) st
  | RStart => if pos st =? 0 then [st] else []
  | REnd => if pos st =? length s then [st] else []
  | RWordB => if atWordBoundary s (pos st) then [st] else []
  | RSeq a b => flat_map (rmatch s b) (rmatch s a st)
  | RAlt a b => rmatch s a st ++ rmatch s b st
  | RStar g a =>
      repeatLoop (fun x => rmatch s a (clearCaps (groupsOf a) x)) g
        (S (length s - pos st)) st
  | RPlus g a =>
      flat_map (fun st1 =>
          repeatLoop (fun x => rmatch s a (clearCaps (groupsOf a) x)) g
            (S (length s - pos st1)) st1)
        (rmatch s a (clearCaps (groupsOf a) st))
  | ROpt g a =>
      let one := filter (fun st' => negb (pos st' =? pos st))
                   (rmatch s a (clearCaps (groupsOf a) st)) in
      if g then one ++ [st] else st :: one
  | RGroup n a =>
      map (fun st' => setCap n (pos st) (pos st') st') (rmatch s a st)
  end.

Fixpoint maxGroup (r : regex) : nat :=
  match r with
  | RSeq a b | RAlt a b => Nat.max (maxGroup a) (maxGroup b)
  | RStar _ a | RPlus _ a | ROpt _ a => maxGroup a
  | RGroup n a => Nat.max n (maxGroup a)
  | _ => 0
  end.

(** The result of a successful [exec]: [index], the index after the match
    (the new [lastIndex] of a global expression) and the captures. *)
Record MatchResult := MkMatch {
  index : nat;
  endIndex : nat;
  groups : list (option (nat * nat))
}.

Definition matchAt (r : regex) (s : jsstring) (i : nat) : option MatchResult :=
  match rmatch s r (MState i (replicate (S (maxGroup r)) None)) with
  | st :: _ => Some (MkMatch i (pos st) (caps st))
  | [] => None
  end.

Fixpoint firstMatch (r : regex) (s : jsstring) (starts : list nat)
    : option MatchResult :=
  match starts with
  | [] => None
  | i :: rest =>
      match matchAt r s i with
      | Some m => Some m
      | None => firstMatch r s rest
      end
  end.

(** [r.exec(s)] with [r.lastIndex = from]: the leftmost match at or after
    [from]. *)
Definition exec (r : regex) (s : jsstring) (from : nat) : option MatchResult :=
  firstMatch r s (seq from (S (length s) - from)).

(** [m[0]] and [m[n]]: [None] is [undefined]. *)
Definition matched (s : jsstring) (m : MatchResult) : jsstring :=
  slice s (index m) (endIndex m).

Definition group (s : jsstring) (m : MatchResult) (n : nat) : option jsstring :=
  match groups m !! n with
  | Some (Some (a, b)) => Some (slice s a b)
  | _ => None
  end.

(** [r.test(s)], [s.search(r)] and [s.match(r)] for an expression without
    the [g] flag. *)
Definition test (r : regex) (s : jsstring) : bool :=
  match exec r s 0 with Some _ => true | None => false end.

Definition search (r : regex) (s : jsstring) : option nat :=
  index <$> exec r s 0.

(** [while ((m = r.exec(s)) !== null) { ... }] for a global [r]: the
    matches in order. A match that leaves [lastIndex] where it was makes
    the loop of the source spin forever: that is [None]. *)
Fixpoint execLoop (fuel : nat) (r : regex) (s : jsstring) (lastIndex : nat)
    : option (list MatchResult) :=
  match fuel with
  | 0 => None
  | S f =>
      match exec r s lastIndex with
      | None => Some []
      | Some m =>
          if endIndex m <=? lastIndex then None
          else (fun ms => m :: ms) <$> execLoop f r s (endIndex m)
      end
  end.

Definition execAll (r : regex) (s : jsstring) : option (list MatchResult) :=
  execLoop (S (S (length s))) r s 0.

(** [s.replace(r, '')] for a global [r]: after an empty match the search
    resumes one unit further. *)
Fixpoint removeLoop (fuel : nat) (r : regex) (s : jsstring)
    (from srcPos : nat) : jsstring :=
  match fuel with
  | 0 => drop srcPos s
  | S f =>
      match exec r s from with
      | None => drop srcPos s
      | Some m =>
          slice s srcPos (index m) ++
          removeLoop f r s
            (if endIndex m =? index m then S (endIndex m) else endIndex m)
            (endIndex m)
      end
  end.

Definition removeAll (r : regex) (s : jsstring) : jsstring :=
  removeLoop (S (S (length s))) r s 0 0.

(** [new RegExp(src)] for a pattern source spliced from file text or a file
    name. The characters [.], [^] and [$] keep their meaning in a pattern;
    a source with another syntax character is outside the fragment modelled
    here ([None]): the constructor would read it as pattern syntax, or
    throw. *)
Definition patternChar (c : N) : option regex :=
  if (c =? 46)%N then Some RAny
  else if (c =? 94)%N then Some RStart
  else if (c =? 36)%N then Some REnd
  else if existsb (N.eqb c) [92; 42; 43; 63; 40; 41; 91; 93; 123; 125; 124]%N
       then None
  else Some (RChar c).

Fixpoint patternOf (src : jsstring) : option regex :=
  match src with
  | [] => Some REmpty
  | c :: src' =>
      match patternChar c, patternOf src' with
      | Some a, Some b => Some (RSeq a b)
      | _, _ => None
      end
  end.

(** ** The expressions of the program *)

(** [/export\s*{([^}]+)}/g] *)
Definition namedExportRegex : regex :=
  rcat [rlit (lit "export"); RStar true rspace; RChar 123;
        RGroup 1 (RPlus true (RSet true [CChar 125])); RChar 125].

(** [/\/\*[\s\S]*?\*\/|\/\/.*/g] *)
Definition commentRegex : regex :=
  RAlt (rcat [rlit (lit "/*"); RStar false (RSet false [CSpace; CNotSpace]);
              rlit (lit "*/")])
       (rcat [rlit (lit "//"); RStar true RAny]).

(** [new RegExp(`\\b${item}\\b`)] *)
Definition itemRegex (item : jsstring) : option regex :=
  (fun p => rcat [RWordB; p; RWordB]) <$> patternOf item.

(** [/export\s+const\s+(\w+)\s*=\s*styled\.[a-zA-Z0-9]+(?:<[^>]+>)?`/g] *)
Definition directExportRegex : regex :=
  rcat [rlit (lit "export"); RPlus true rspace; rlit (lit "const");
        RPlus true rspace; RGroup 1 (RPlus true rword); RStar true rspace;
        RChar 61; RStar true rspace; rlit (lit "styled.");
        RPlus true (RSet false [CRange 97 122; CRange 65 90; CRange 48 57]);
        ROpt true (rcat [RChar 60; RPlus true (RSet true [CChar 62]); RChar 62]);
        RChar 96].

(** [/export\s+const\s+\w+\s*=\s*styled\./] *)
Definition styledConstRegex : regex :=
  rcat [rlit (lit "export"); RPlus true rspace; rlit (lit "const");
        RPlus true rspace; RPlus true rword; RStar true rspace;
        RChar 61; RStar true rspace; rlit (lit "styled.")].

(** The tail the two import expressions share:
    [['"](?:.*\/)?${fileName}(?:\.\w+)?['"]] *)
Definition fromClause (name : regex) : regex :=
  rcat [RSet false [CChar 39; CChar 34];
        ROpt true (rcat [RStar true RAny; RChar 47]);
        name;
        ROpt true (rcat [RChar 46; RPlus true rword]);
        RSet false [CChar 39; CChar 34]].

(** [import\s+(?:\*\s+as\s+\w+|{[^}]*}|\w+)\s+from\s+['"]...['"]] *)
Definition importRegex (fileName : jsstring) : option regex :=
  (fun name =>
     rcat [rlit (lit "import"); RPlus true rspace;
           RAlt (rcat [RChar 42; RPlus true rspace; rlit (lit "as");
                       RPlus true rspace; RPlus true rword])
                (RAlt (rcat [RChar 123; RStar true (RSet true [CChar 125]);
                             RChar 125])
                      (RPlus true rword));
           RPlus true rspace; rlit (lit "from"); RPlus true rspace;
           fromClause name]) <$> patternOf fileName.

(** [import\s+\*\s+as\s+(\w+)\s+from\s*['"]...['"]] *)
Definition namespaceImportRegex (styleFileName : jsstring) : option regex :=
  (fun name =>
     rcat [rlit (lit "import"); RPlus true rspace; RChar 42;
           RPlus true rspace; rlit (lit "as"); RPlus true rspace;
           RGroup 1 (RPlus true rword); RPlus true rspace;
           rlit (lit "from"); RStar true rspace; fromClause name])
  <$> patternOf styleFileName.

(** [(?:<|\b)(\w+)] with the capture numbered [n] *)
Definition bareUsage (n : nat) : regex :=
  rcat [RAlt (RChar 60) RWordB; RGroup n (RPlus true rword)].

(** The usage expression: with an alias,
    [(?:<|\b)${namespaceAlias}\.(\w+)|(?:<|\b)(\w+)]; without,
    [(?:<|\b)(\w+)]. The alias is a capture of [\w+], so it is spliced as
    literal characters; an empty alias would be falsy. *)
Definition usageRegex (namespaceAlias : option jsstring) : regex :=
  match namespaceAlias with
  | Some (c :: cs) =>
      RAlt (rcat [RAlt (RChar 60) RWordB; rlit (c :: cs); RChar 46;
                  RGroup 1 (RPlus true rword)])
           (bareUsage 2)
  | _ => bareUsage 1
  end.

(** ** Paths *)

Fixpoint dropSlashes (r : jsstring) : jsstring :=
  match r with
  | c :: r' => if (c =? 47)%N then dropSlashes r' else r
  | [] => []
  end.

Fixpoint takeSegment (r : jsstring) : jsstring :=
  match r with
  | c :: r' => if (c =? 47)%N then [] else c :: takeSegment r'
  | [] => []
  end.

(** The last component of a POSIX path, trailing slashes ignored. *)
Definition lastSegment (p : jsstring) : jsstring :=
  rev (takeSegment (dropSlashes (rev p))).

Fixpoint untilDot (r : jsstring) : option jsstring :=
  match r with
  | c :: r' => if (c =? 46)%N then Some [c] else (fun e => e ++ [c]) <$> untilDot r'
  | [] => None
  end.

(** [path.extname(p)]: from the last dot of the last component, unless
    that dot starts the component or the component is [..]. *)
Definition extname (p : jsstring) : jsstring :=
  let b := lastSegment p in
  match untilDot (rev b) with
  | Some e =>
      if (length e =? length b) || jseqb b (lit "..") then [] else e
  | None => []
  end.

(** [path.basename(p, ext)]: the last component without the suffix [ext],
    kept whole when it is [ext] itself. *)
Definition basename (p ext : jsstring) : jsstring :=
  let b := lastSegment p in
  if negb (length ext =? 0) && (length ext <? length b)
     && jseqb (drop (length b - length ext) b) ext
  then take (length b - length ext) b
  else b.

(** ** The host: documents, the disk and the workspace *)

(** A file identity. [uri.fsPath] is the path on disk; [uri.toString()],
    the key of every cache, is the [file:] form of the same path. *)
Record Uri := MkUri { fsPath : jsstring }.

Definition uriKey (u : Uri) : jsstring := lit "file://" ++ fsPath u.

#[global] Instance Uri_eq_dec : EqDecision Uri.
Proof. solve_decision. Defined.

Record Position := MkPosition { line : nat; character : nat }.
Record Range := MkRange { rangeStart : Position; rangeEnd : Position }.

Record Document := MkDocument {
  uri : Uri;
  languageId : jsstring;
  getText : jsstring;
  positionAt : Z -> Position
}.

(** [document.fileName] is [document.uri.fsPath]. *)
Definition fileName (d : Document) : jsstring := fsPath (uri d).

Inductive Severity := SevError | SevWarning | SevInformation | SevHint.

Record Diagnostic := MkDiagnostic {
  range : Range;
  message : jsstring;
  severity : Severity;
  source : jsstring
}.

(** [fs.statSync(p).mtimeMs] and [fs.readFileSync(p, "utf8")]; [None] is a
    thrown error. *)
Record Disk := MkDisk {
  statSync : jsstring -> option N;
  readFileSync : jsstring -> option jsstring
}.

(** A file below a workspace folder: its path relative to the folder, as
    components, and its identity. *)
Record WsFile := MkWsFile { relPath : list jsstring; wsUri : Uri }.

Definition WorkspaceFolder := list WsFile.

Definition endsWith (s suffix : jsstring) : bool :=
  (length suffix <=? length s)
  && jseqb (drop (length s - length suffix) s) suffix.

(** ["**/*.{js,jsx,ts,tsx}"] *)
Definition filePattern (f : WsFile) : bool :=
  match last (relPath f) with
  | Some n => existsb (endsWith n) [lit ".js"; lit ".jsx"; lit ".ts"; lit ".tsx"]
  | None => false
  end.

(** ["**/node_modules/**"] *)
Definition excludePattern (f : WsFile) : bool :=
  existsb (jseqb (lit "node_modules")) (removelast (relPath f)).

(** [vscode.workspace.findFiles(filePattern, excludePattern)] *)
Definition findFiles (folder : WorkspaceFolder) : list Uri :=
  wsUri <$> filter (fun f => filePattern f && negb (excludePattern f)) folder.

Record Env := MkEnv {
  disk : Disk;
  workspaceFolders : option (list WorkspaceFolder)
}.

(** ** The module state *)

Record CacheEntry := MkEntry { content : jsstring; mtime : N }.

Inductive FsOp := OpStat (p : jsstring) | OpRead (p : jsstring).

Record State := MkState {
  fileContentCache : gmap jsstring CacheEntry;
  importingFilesCache : gmap jsstring (list Uri);
  componentUsageCache : gmap jsstring (gmap jsstring (list jsstring));
  diagnosticCollection : gmap jsstring (list Diagnostic);
  fsLog : list FsOp   (* the disk operations performed, latest first *)
}.

Definition initialState : State := MkState ∅ ∅ ∅ ∅ [].

Definition setContentCache (f : gmap jsstring CacheEntry -> gmap jsstring CacheEntry)
    (st : State) : State :=
  MkState (f (fileContentCache st)) (importingFilesCache st)
    (componentUsageCache st) (diagnosticCollection st) (fsLog st).

Definition setImportingCache
    (f : gmap jsstring (list Uri) -> gmap jsstring (list Uri)) (st : State) : State :=
  MkState (fileContentCache st) (f (importingFilesCache st))
    (componentUsageCache st) (diagnosticCollection st) (fsLog st).

Definition setUsageCache
    (f : gmap jsstring (gmap jsstring (list jsstring)) ->
         gmap jsstring (gmap jsstring (list jsstring))) (st : State) : State :=
  MkState (fileContentCache st) (importingFilesCache st)
    (f (componentUsageCache st)) (diagnosticCollection st) (fsLog st).

Definition setDiagnostics
    (f : gmap jsstring (list Diagnostic) -> gmap jsstring (list Diagnostic))
    (st : State) : State :=
  MkState (fileContentCache st) (importingFilesCache st)
    (componentUsageCache st) (f (diagnosticCollection st)) (fsLog st).

Definition logOp (o : FsOp) (st : State) : State :=
  MkState (fileContentCache st) (importingFilesCache st)
    (componentUsageCache st) (diagnosticCollection st) (o :: fsLog st).

(** Calls that thread the state. [None] is a call the model does not
    follow: a pattern spliced from text outside the modelled fragment, or a
    loop of the source that would not end. *)
Definition M (A : Type) : Type := State -> option (A * State).

Definition ret {A} (a : A) : M A := fun st => Some (a, st).

Definition bind {A B} (m : M A) (k : A -> M B) : M B :=
  fun st => match m st with
            | Some (a, st') => k a st'
            | None => None
            end.

Definition liftOpt {A} (o : option A) : M A :=
  fun st => match o with Some a => Some (a, st) | None => None end.

Definition total {A} (f : State -> A * State) : M A := fun st => Some (f st).

Definition modify (f : State -> State) : M unit := fun st => Some (tt, f st).

Definition gets {A} (f : State -> A) : M A := fun st => Some (f st, st).

Notation "'let*' x ':=' m 'in' k" := (bind m (fun x => k))
  (at level 10, x name, m at level 100, k at level 200).
Notation "'do' m 'then' k" := (bind m (fun _ => k))
  (at level 10, m at level 100, k at level 200).

Fixpoint forM {A B} (l : list A) (f : A -> M (list B)) : M (list B) :=
  match l with
  | [] => ret []
  | a :: l' =>
      let* bs := f a in
      let* bs' := forM l' f in
      ret (bs ++ bs')
  end.

(** ** The program *)

(** A [Set] of strings: its members in insertion order. *)
Definition setHas (x : jsstring) (s : list jsstring) : bool :=
  bool_decide (x ∈ s).

Definition setAdd (x : jsstring) (s : list jsstring) : list jsstring :=
  if setHas x s then s else s ++ [x].

Definition invalidateCachesForFile (fileUri : Uri) (st : State) : State :=
  let fileKey := uriKey fileUri in
  setUsageCache (delete fileKey)
    (setImportingCache (delete fileKey)
       (setContentCache (delete fileKey) st)).

(** Both the failed [statSync] and the failed [readFileSync] land in the
    [catch] block, which drops the entry and returns [null]. *)
Definition readFileWithCache (env : Env) (fileUri : Uri) (st : State)
    : option jsstring * State :=
  let fileKey := uriKey fileUri in
  let filePath := fsPath fileUri in
  let st1 := logOp (OpStat filePath) st in
  match statSync (disk env) filePath with
  | None => (None, setContentCache (delete fileKey) st1)
  | Some mt =>
      let fromDisk :=
        let st2 := logOp (OpRead filePath) st1 in
        match readFileSync (disk env) filePath with
        | Some c => (Some c, setContentCache (<[fileKey := MkEntry c mt]>) st2)
        | None => (None, setContentCache (delete fileKey) st2)
        end in
      match fileContentCache st1 !! fileKey with
      | Some cached =>
          if (mtime cached =? mt)%N then (Some (content cached), st1)
          else fromDisk
      | None => fromDisk
      end
  end.

Definition isJsOrTsFile (document : Document) : bool :=
  existsb (jseqb (languageId document))
    [lit "javascript"; lit "javascriptreact"; lit "typescript";
     lit "typescriptreact"].

Definition isStyledComponentFile (text : jsstring) : bool :=
  if negb (includes text (lit "styled."))
     || (negb (includes text (lit "export {"))
         && negb (includes text (lit "export const")))
  then false
  else includes text (lit "styled.")
       && (includes text (lit "export {") || test styledConstRegex text).

Record Component := MkComponent { name : jsstring; crange : Range }.

(** The items of one [export { ... }] block: comments removed, split at
    commas, trimmed, empty items dropped. *)
Definition exportedItems (exportContent : jsstring) : list jsstring :=
  filter (fun item => negb (length item =? 0))
    (trim <$> split 44 (removeAll commentRegex exportContent)).

Definition namedComponents (text : jsstring) (document : Document)
    (namedMatch : MatchResult) : option (list Component) :=
  let exportContent := default [] (group text namedMatch 1) in
  let block := slice text (index namedMatch)
                 (index namedMatch + length (matched text namedMatch)) in
  foldr (fun item acc =>
      match itemRegex item, acc with
      | Some re, Some rest =>
          match search re block with
          | Some itemIndex =>
              let actualIndex := index namedMatch + itemIndex in
              Some (MkComponent item
                      (MkRange (positionAt document (Z.of_nat actualIndex))
                         (positionAt document
                            (Z.of_nat (actualIndex + length item))))
                    :: rest)
          | None => Some rest
          end
      | _, _ => None
      end) (Some []) (exportedItems exportContent).

(** [directMatch[0].indexOf(name, "export const ".length)], [-1] when
    absent. *)
Definition directComponent (text : jsstring) (document : Document)
    (directMatch : MatchResult) : Component :=
  let nm := default [] (group text directMatch 1) in
  let nameStartIndex :=
    match indexOf (matched text directMatch) nm (length (lit "export const ")) with
    | Some i => Z.of_nat i
    | None => (-1)%Z
    end in
  let at_ := (Z.of_nat (index directMatch) + nameStartIndex)%Z in
  MkComponent nm
    (MkRange (positionAt document at_)
       (positionAt document (at_ + Z.of_nat (length nm))%Z)).

Fixpoint concatOpt {A} (l : list (option (list A))) : option (list A) :=
  match l with
  | [] => Some []
  | o :: l' =>
      match o, concatOpt l' with
      | Some a, Some b => Some (a ++ b)
      | _, _ => None
      end
  end.

Definition getExportedComponents (text : jsstring) (document : Document)
    : option (list Component) :=
  match execAll namedExportRegex text, execAll directExportRegex text with
  | Some namedMatches, Some directMatches =>
      match concatOpt (namedComponents text document <$> namedMatches) with
      | Some named =>
          Some (named ++ (directComponent text document <$> directMatches))
      | None => None
      end
  | _, _ => None
  end.

Definition mightImportFromFile (content fileName : jsstring) : option bool :=
  if negb (includes content fileName) then Some false
  else (fun re => test re content) <$> importRegex fileName.

(** The base name both caches and both import expressions use. *)
Definition styleBaseName (document : Document) : jsstring :=
  basename (fileName document) (extname (fileName document)).

(** The scan of one workspace file: [[file]] when it is kept. *)
Definition importerIfAny (env : Env) (fileName_ : jsstring) (file : Uri)
    : M (list Uri) :=
  let* content := total (readFileWithCache env file) in
  match content with
  | Some (c :: cs) =>
      let* b := liftOpt (mightImportFromFile (c :: cs) fileName_) in
      ret (if b then [file] else [])
  | _ => ret []
  end.

Definition findFilesImportingFromCached (env : Env) (document : Document)
    : M (list Uri) :=
  let fileKey := uriKey (uri document) in
  let* cached := gets (fun st => importingFilesCache st !! fileKey) in
  match cached with
  | Some files => ret files
  | None =>
      match workspaceFolders env with
      | None => ret []
      | Some folders =>
          let fileName_ := styleBaseName document in
          let* importingFiles :=
            forM folders (fun folder =>
              let otherFiles :=
                filter (fun file => negb (jseqb (fsPath file) (fileName document)))
                  (findFiles folder) in
              forM otherFiles (importerIfAny env fileName_)) in
          do modify (setImportingCache (<[fileKey := importingFiles]>)) then
          ret importingFiles
      end
  end.

(** [usageMatch[1] || usageMatch[2]] *)
Definition potentialComp (content : jsstring) (usageMatch : MatchResult)
    : option jsstring :=
  match group content usageMatch 1 with
  | Some (c :: cs) => Some (c :: cs)
  | _ => group content usageMatch 2
  end.

Definition addIfCapitalized (content : jsstring) (used : list jsstring)
    (usageMatch : MatchResult) : list jsstring :=
  match potentialComp content usageMatch with
  | Some (c :: cs) =>
      if (c =? toUpperCase1 c)%N then setAdd (c :: cs) used else used
  | _ => used
  end.

(** [namespaceMatch[1]] of [content.match(namespaceImportRegex)], when the
    expression matches. *)
Definition namespaceAliasOf (nsRe : regex) (content : jsstring)
    : option jsstring :=
  match exec nsRe content 0 with
  | Some namespaceMatch => group content namespaceMatch 1
  | None => None
  end.

(** The scan of an importing file's content, from the alias detection to
    the finished set. *)
Definition usedComponentsOf (content styleFileName : jsstring)
    : option (list jsstring) :=
  match namespaceImportRegex styleFileName with
  | Some nsRe =>
      foldl (addIfCapitalized content) []
        <$> execAll (usageRegex (namespaceAliasOf nsRe content)) content
  | None => None
  end.

Definition getUsedComponentsFromFileCached (env : Env) (importingFileUri : Uri)
    (styleDocument : Document) : M (option (list jsstring)) :=
  let importingFileKey := uriKey importingFileUri in
  let styleFileName := styleBaseName styleDocument in
  let* cached :=
    gets (fun st => componentUsageCache st !! importingFileKey
                    ≫= (fun styleUsageMap => styleUsageMap !! styleFileName)) in
  match cached with
  | Some usedComponents => ret (Some usedComponents)
  | None =>
      let* content := total (readFileWithCache env importingFileUri) in
      match content with
      | Some (c :: cs) =>
          let* usedComponents := liftOpt (usedComponentsOf (c :: cs) styleFileName) in
          do modify (setUsageCache (fun cache =>
               <[importingFileKey :=
                   <[styleFileName := usedComponents]>
                     (default ∅ (cache !! importingFileKey))]> cache)) then
          ret (Some usedComponents)
      | _ => ret None
      end
  end.

Definition unusedMessage (nm : jsstring) : jsstring :=
  lit "Styled component '" ++ nm ++ lit "' is exported but not used anywhere.".

Definition unusedDiagnostic (component : Component) : Diagnostic :=
  MkDiagnostic (crange component) (unusedMessage (name component))
    SevWarning (lit "styled-unused-exports").

(** [usageByFile]: the set of each importing file that yielded one, keyed
    by the file's identity. *)
Fixpoint usageOfImporters (env : Env) (document : Document)
    (importingFiles : list Uri) (usageByFile : gmap jsstring (list jsstring))
    : M (gmap jsstring (list jsstring)) :=
  match importingFiles with
  | [] => ret usageByFile
  | fileUri :: rest =>
      let* usedComponents := getUsedComponentsFromFileCached env fileUri document in
      usageOfImporters env document rest
        match usedComponents with
        | Some used => <[uriKey fileUri := used]> usageByFile
        | None => usageByFile
        end
  end.

Definition isUsed (usageByFile : gmap jsstring (list jsstring))
    (component : Component) : bool :=
  existsb (fun kv => setHas (name component) kv.2) (map_to_list usageByFile).

Definition checkStyledComponentFile (env : Env) (document : Document)
    (text : jsstring) : M unit :=
  let* exportedComponents := liftOpt (getExportedComponents text document) in
  let* importingFiles := findFilesImportingFromCached env document in
  let* usageByFile := usageOfImporters env document importingFiles ∅ in
  let diagnostics :=
    unusedDiagnostic
      <$> filter (fun component => negb (isUsed usageByFile component))
            exportedComponents in
  modify (setDiagnostics (<[uriKey (uri document) := diagnostics]>)).

Definition checkDocument (env : Env) (document : Document) : M unit :=
  if negb (isJsOrTsFile document) then ret tt
  else
    do modify (setDiagnostics (delete (uriKey (uri document)))) then
    let text := getText document in
    if isStyledComponentFile text
    then checkStyledComponentFile env document text
    else ret tt.

(** The handlers [activate] registers. A check scheduled without a delay
    runs at once; the check an edit schedules runs later, as a
    [checkDocument] of its own. *)
Definition scheduleCheck (env : Env) (document : Document) : M unit :=
  if negb (isJsOrTsFile document) then ret tt
  else checkDocument env document.

Definition onDidOpenTextDocument := scheduleCheck.

Definition onDidSaveTextDocument (env : Env) (document : Document) : M unit :=
  do modify (invalidateCachesForFile (uri document)) then
  scheduleCheck env document.

Definition onDidChangeTextDocument (document : Document) : M unit :=
  modify (setContentCache (delete (uriKey (uri document)))).

Definition forceCheckCurrentFile (env : Env) (activeDocument : option Document)
    : M unit :=
  match activeDocument with
  | Some document =>
      do modify (invalidateCachesForFile (uri document)) then
      checkDocument env document
  | None => ret tt
  end.

(** What the collection shows for a document. *)
Definition diagnosticsOf (st : State) (document : Document) : list Diagnostic :=
  default [] (diagnosticCollection st !! uriKey (uri document)).

(** ** What an expression matches

    [Matches s r i j]: the expression [r] can match the units of [s] from
    index [i] up to index [j]. Assertions look at [s] around [i]; an
    iteration of a quantifier past its minimum consumes at least one unit. *)
Inductive Matches (s : jsstring) : regex -> nat -> nat -> Prop :=
| MEmpty i : Matches s REmpty i i
| MChar c i : s !! i = Some c -> Matches s (RChar c) i (S i)
| MAny c i :
    s !! i = Some c -> isLineTerminator c = false -> Matches s RAny i (S i)
| MSet neg items c i :
    s !! i = Some c -> xorb neg (existsb (inCls c) items) = true ->
    Matches s (RSet neg items) i (S i)
| MStart : Matches s RStart 0 0
| MEnd : Matches s REnd (length s) (length s)
| MWordB i : atWordBoundary s i = true -> Matches s RWordB i i
| MSeq a b i k j :
    Matches s a i k -> Matches s b k j -> Matches s (RSeq a b) i j
| MAltL a b i j : Matches s a i j -> Matches s (RAlt a b) i j
| MAltR a b i j : Matches s b i j -> Matches s (RAlt a b) i j
| MStarO g a i : Matches s (RStar g a) i i
| MStarS g a i k j :
    Matches s a i k -> k <> i -> Matches s (RStar g a) k j ->
    Matches s (RStar g a) i j
| MPlus g a i k j :
    Matches s a i k -> Matches s (RStar g a) k j -> Matches s (RPlus g a) i j
| MOptO g a i : Matches s (ROpt g a) i i
| MOptS g a i j : Matches s a i j -> j <> i -> Matches s (ROpt g a) i j
| MGroup n a i j : Matches s a i j -> Matches s (RGroup n a) i j.

(** The least number of units a match of [r] consumes. *)
Fixpoint minLen (r : regex) : nat :=
  match r with
  | RChar _ | RAny | RSet _ _ => 1
  | RSeq a b => minLen a + minLen b
  | RAlt a b => Nat.min (minLen a) (minLen b)
  | RPlus _ a | RGroup _ a => minLen a
  | _ => 0
  end.

(** ** Views of the state

    What a call would answer if it were made in a given state. *)

(** The content [readFileWithCache] hands out for [u]. *)
Definition readView (env : Env) (st : State) (u : Uri) : option jsstring :=
  (readFileWithCache env u st).1.

(** The set cached for the pair of [u] and the style document. *)
Definition cachedUsage (st : State) (document : Document) (u : Uri)
    : option (list jsstring) :=
  componentUsageCache st !! uriKey u
  ≫= (fun styleUsageMap => styleUsageMap !! styleBaseName document).

(** The answer of the usage resolver for [u]: [None] when the call is
    outside the model, [Some None] for [null]. *)
Definition usageView (env : Env) (document : Document) (st : State) (u : Uri)
    : option (option (list jsstring)) :=
  fst <$> getUsedComponentsFromFileCached env u document st.

(** One step of gathering [usageByFile] when every resolver call answers
    with its view in [st]. *)
Definition gather (env : Env) (document : Document) (st : State)
    (acc : gmap jsstring (list jsstring)) (f : Uri)
    : gmap jsstring (list jsstring) :=
  match usageView env document st f with
  | Some (Some used) => <[uriKey f := used]> acc
  | _ => acc
  end.

(** The scan for importers touches the content cache and the log only, and
    leaves the answers of the content store as they were. *)
Definition scanKeeps (env : Env) (s s' : State) : Prop :=
  importingFilesCache s' = importingFilesCache s
  /\ componentUsageCache s' = componentUsageCache s
  /\ diagnosticCollection s' = diagnosticCollection s
  /\ forall u, readView env s' u = readView env s u.

(** What the disk holds for a path right now: [None] when [statSync] or
    [readFileSync] throws. *)
Definition onDisk (env : Env) (p : jsstring) : option jsstring :=
  match statSync (disk env) p with
  | Some _ => readFileSync (disk env) p
  | None => None
  end.

(** A diagnostic for the symbol [S] is shown for the document. *)
Definition diagnosed (st : State) (document : Document) (S : jsstring) : Prop :=
  exists d, In d (diagnosticsOf st document) /\ message d = unusedMessage S.

(** ** Concrete documents and workspaces

    Used to run the program on explicit inputs. The documents have a
    single line, so a position is its offset. *)

Definition mkDoc (path lang text : string) : Document :=
  MkDocument (MkUri (lit path)) (lit lang) (lit text)
    (fun z => MkPosition 0 (Z.to_nat z)).

Definition lookupFile (files : list (string * (N * string))) (p : jsstring)
    : option (N * string) :=
  snd <$> find (fun x => jseqb (lit x.1) p) files.

Definition diskOf (files : list (string * (N * string))) : Disk :=
  MkDisk (fun p => fst <$> lookupFile files p)
         (fun p => (fun x => lit x.2) <$> lookupFile files p).

(** A workspace file of the folder [/w], given by its relative path. *)
Definition wsFile (rel : string) : WsFile :=
  MkWsFile (split 47 (lit rel)) (MkUri (lit "/w/" ++ lit rel)).

Definition envOf (files : list (string * (N * string))) (ws : list string) : Env :=
  MkEnv (diskOf files) (Some [wsFile <$> ws]).

(** A store whose entry for [/w/A.tsx] carries the file's current [mtime],
    and one whose entry is older than the file. *)
Definition storeUri : Uri := MkUri (lit "/w/A.tsx").

Definition storeEnv : Env :=
  envOf [("/w/A.tsx"%string, (5%N, "new"%string))] ["A.tsx"%string].

Definition storeHit : State :=
  MkState (<[uriKey storeUri := MkEntry (lit "old") 5]> ∅) ∅ ∅ ∅ [].

Definition storeStale : State :=
  MkState (<[uriKey storeUri := MkEntry (lit "old") 4]> ∅) ∅ ∅ ∅ [].

(** Some file of the list yields a used-symbol set that has [S]. *)
Definition usedSomewhere (env : Env) (document : Document) (st : State)
    (importingFiles : list Uri) (S : jsstring) : Prop :=
  exists f used, In f importingFiles
                 /\ usageView env document st f = Some (Some used)
                 /\ S ∈ used.

(** A direct export whose [export] and [const] are a tab apart, the same
    with two spaces, and the same with one space. *)
Definition boxTemplate : jsstring := lit "const Box = styled.div`color: red;`".

Definition docWithText (text : jsstring) : Document :=
  MkDocument (MkUri (lit "/w/Box.tsx")) (lit "typescriptreact") text
    (fun z => MkPosition 0 (Z.to_nat z)).

Definition tabDoc : Document := docWithText (lit "export" ++ [9%N] ++ boxTemplate).
Definition twoSpaceDoc : Document := docWithText (lit "export  " ++ boxTemplate).
Definition oneSpaceDoc : Document := docWithText (lit "export " ++ boxTemplate).

(** The same file once its language mode is plain text and its export is
    gone. *)
Definition plainDoc : Document :=
  mkDoc "/w/Box.tsx" "plaintext" "const Box = 1".

(** A workspace that holds nothing but [/w/Box.tsx]. *)
Definition loneEnv : Env :=
  envOf [("/w/Box.tsx"%string, (1%N, "saved"%string))] ["Box.tsx"%string].

(** [Box.tsx] exports [Box] and [Frame]; [Page.tsx] imports it and uses
    [Box] only. *)
Definition boxDoc : Document :=
  mkDoc "/w/Box.tsx" "typescriptreact"
    "const Box = styled.div`a`; const Frame = styled.div`b`; export { Box, Frame }".

Definition boxEnv : Env :=
  envOf [("/w/Box.tsx"%string, (1%N, "saved"%string));
         ("/w/Page.tsx"%string,
          (2%N, "import { Box } from './Box'; const p = <Box />;"%string))]
        ["Box.tsx"%string; "Page.tsx"%string].

(** The state a call leaves behind, when it returns. *)
Definition stateAfter (m : M unit) (st : State) : State :=
  match m st with
  | Some (_, st') => st'
  | None => st
  end.

Definition boxChecked : State := stateAfter (checkDocument boxEnv boxDoc) initialState.

(** The names the extractor yields, and the messages shown. *)
Definition exportedNames (document : Document) : option (list jsstring) :=
  option_map (map name) (getExportedComponents (getText document) document).

Definition messagesOf (st : State) (document : Document) : list jsstring :=
  map message (diagnosticsOf st document).

Definition pageUri : Uri := MkUri (lit "/w/Page.tsx").

(** [boxEnv] after [Page.tsx] has been deleted. *)
Definition goneEnv : Env :=
  envOf [("/w/Box.tsx"%string, (1%N, "saved"%string))]
        ["Box.tsx"%string; "Page.tsx"%string].

(** [boxEnv] after both files changed on disk: [Page.tsx] now uses [Frame]
    and no longer [Box]. *)
Definition pageV2 : string := "import { Frame } from './Box'; const p = <Frame />;".

Definition changedEnv : Env :=
  envOf [("/w/Box.tsx"%string, (3%N, "saved again"%string));
         ("/w/Page.tsx"%string, (4%N, pageV2))]
        ["Box.tsx"%string; "Page.tsx"%string].

(** The used-symbol set a scan of the file's present content gives: [null]
    when the file cannot be read or is empty. *)
Definition rescanned (env : Env) (document : Document) (u : Uri)
    : option (option (list jsstring)) :=
  match onDisk env (fsPath u) with
  | Some (c :: cs) => Some <$> usedComponentsOf (c :: cs) (styleBaseName document)
  | _ => Some None
  end.


(** ** Words

    [wordRun s a b]: the units of [s] from [a] up to [b] are a non-empty
    run of [[A-Za-z0-9_]] that starts [s] or follows a unit outside that
    class. *)
Definition wordRun (s : jsstring) (a b : nat) : Prop :=
  a < b <= length s
  /\ (forall k, a <= k < b -> isWordAt s k = true)
  /\ (a = 0 \/ isWordAt s (a - 1) = false).

Definition isLowerCase (c : N) : bool := inRange 97 122 c.

(** A file that imports [Button] and never refers to it again. *)
Definition importOnly : jsstring := lit "import { Button } from './Button';".

(** A token of word characters only, and an identifier: a non-empty one. *)
Definition isWordToken (tok : jsstring) : bool := forallb isWordChar tok.

Definition isIdentifier (tok : jsstring) : bool :=
  negb (length tok =? 0) && isWordToken tok.



(** Every set in the usage cache holds word tokens only: true of the
    initial state and kept by every call. *)
Definition usageWf (st : State) : Prop :=
  forall k inner base used tok,
    componentUsageCache st !! k = Some inner -> inner !! base = Some used ->
    tok ∈ used -> isWordToken tok = true.

Definition boxComponents : list Component :=
  default [] (getExportedComponents (getText boxDoc) boxDoc).


(** [Alias.tsx] exports [Box] under the name [Bx]; [Page.tsx] imports and
    uses [Bx]. *)
Definition aliasDoc : Document :=
  mkDoc "/w/Alias.tsx" "typescriptreact"
    "const Box = styled.div`a`; export { Box as Bx, Frame }".

Definition aliasEnv : Env :=
  envOf [("/w/Alias.tsx"%string, (1%N, "saved"%string));
         ("/w/Page.tsx"%string,
          (2%N, "import { Bx } from './Alias'; const p = <Bx />;"%string))]
        ["Alias.tsx"%string; "Page.tsx"%string].




(** ** What the import index looks for, in the specification's words

    Spans of a content [s]: [[i, j)] reads the literal [w]; every unit of
    [[i, j)] satisfies [P]; the same for a non-empty span. *)
Definition spanIs (s : jsstring) (i j : nat) (w : jsstring) : Prop :=
  j = i + length w /\ forall k, k < length w -> s !! (i + k) = w !! k.







(** The units with a meaning of their own in a pattern. *)
Definition isSyntaxUnit (c : N) : bool :=
  existsb (N.eqb c) [46; 94; 36; 92; 42; 43; 63; 40; 41; 91; 93; 123; 125; 124]%N.

Definition isPlainName (w : jsstring) : bool :=
  forallb (fun c => negb (isSyntaxUnit c)) w.

(** The files of the workspace the scan enumerates: of a recognised
    extension, outside [node_modules]. *)
Definition enumerated (env : Env) (u : Uri) : Prop :=
  exists folder f,
    In folder (default [] (workspaceFolders env)) /\ In f folder
    /\ wsUri f = u /\ filePattern f = true /\ excludePattern f = false.





(** ** Invariants of the caches *)

(** A capitalised identifier, as the usage scan understands it: word units
    only, the first one not a lowercase letter. *)
Definition isCapitalized (tok : jsstring) : bool :=
  match tok with
  | c :: _ => negb (isLowerCase c) && isWordToken tok
  | [] => false
  end.

(** Every set in the usage cache holds capitalised identifiers only. *)
Definition usageCapitalized (st : State) : Prop :=
  forall k inner base used tok,
    componentUsageCache st !! k = Some inner -> inner !! base = Some used ->
    tok ∈ used -> isCapitalized tok = true.


(** ** Sessions

    The events [activate] subscribes to, each with the document the host
    passes. [EvTimer] is the check an edit scheduled, when its delay has
    passed; [EvCommand] carries the document of the active editor, when
    there is one. A handler runs to its end before the next event is
    taken: the [await]s of a check are not interleaved with other
    handlers. *)
Inductive Event :=
| EvOpen (document : Document)
| EvSave (document : Document)
| EvChange (document : Document)
| EvTimer (document : Document)
| EvFocus (editor : option Document)
| EvCommand (activeDocument : option Document).

Definition handle (env : Env) (e : Event) : M unit :=
  match e with
  | EvOpen document => scheduleCheck env document
  | EvSave document => onDidSaveTextDocument env document
  | EvChange document => onDidChangeTextDocument document
  | EvTimer document => checkDocument env document
  | EvFocus (Some document) => scheduleCheck env document
  | EvFocus None => ret tt
  | EvCommand activeDocument => forceCheckCurrentFile env activeDocument
  end.

(** A session: events in order, each with the disk and workspace of its
    moment. *)
Fixpoint run (events : list (Env * Event)) : M unit :=
  match events with
  | [] => ret tt
  | (env, e) :: rest => do handle env e then run rest
  end.

(** States of the concrete workspaces: after the importers of [Box.tsx]
    were looked for, after the usage of [Page.tsx] was resolved, and after
    [Alias.tsx] was checked once [Box.tsx] had been. *)
Definition boxScanned : State :=
  match findFilesImportingFromCached boxEnv boxDoc initialState with
  | Some (_, s) => s
  | None => initialState
  end.

Definition pageResolved : State :=
  match getUsedComponentsFromFileCached boxEnv pageUri boxDoc initialState with
  | Some (_, s) => s
  | None => initialState
  end.

Definition aliasAfterBox : State :=
  stateAfter (checkDocument aliasEnv aliasDoc) boxChecked.



(** [maximalRun s a b]: a word run that also ends [s] or is followed by a
    unit outside [[A-Za-z0-9_]]. *)
Definition maximalRun (s : jsstring) (a b : nat) : Prop :=
  wordRun s a b /\ isWordAt s b = false.

(** The alias under which the content imports the style file as a
    namespace, when it does: what the usage scan reads before it starts. *)
Definition namespaceAliasIn (content styleFileName : jsstring)
    : option jsstring :=
  namespaceImportRegex styleFileName
  ≫= (fun nsRe => namespaceAliasOf nsRe content).

(** A file that imports [Box.tsx] as the namespace [S] and uses [S.Box]. *)
Definition nsPage : jsstring :=
  lit "import * as S from './Box'; const p = <S.Box />;".

(** What [Page.tsx] holds in [boxEnv]. *)
Definition pageContent : jsstring :=
  lit "import { Box } from './Box'; const p = <Box />;".

(** A direct export of [t] whose [export] and [const] are four spaces
    apart, and the one match the direct-export expression has in it. *)
Definition wideDoc : Document :=
  docWithText (lit "export    const t = styled.div`x`").

Definition wideMatch : MatchResult := MkMatch 0 31 [None; Some (16, 17)].

(** The one export block of [Box.tsx], and the component of its item
    [Frame]. *)
Definition boxBlock : MatchResult := MkMatch 56 77 [None; Some (64, 76)].

Definition frameComponent : Component :=
  MkComponent (lit "Frame") (MkRange (MkPosition 0 70) (MkPosition 0 75)).

(** * Properties *)

(** ** Strings *)

Lemma uriKey_inj (u v : Uri) : uriKey u = uriKey v -> u = v.
Proof.
  destruct u as [p], v as [q]. unfold uriKey. cbn [fsPath].
  intros H. apply app_inv_head in H. by subst.
Qed.

Lemma startsWith_spec (s sub : jsstring) :
  startsWith s sub = true <-> exists rest, s = sub ++ rest.
Proof.
  revert s. induction sub as [|c sub IH]; intros s; simpl.
  - split; [intros _; by exists s | done].
  - destruct s as [|d s]; simpl.
    + split; [done | intros [rest H]; discriminate].
    + rewrite andb_true_iff, N.eqb_eq, IH. split.
      * intros [-> [rest ->]]. by exists rest.
      * intros [rest H]. injection H as -> ->. split; [done | by exists rest].
Qed.

Lemma includes_spec (s sub : jsstring) :
  includes s sub = true <-> exists pre post, s = pre ++ sub ++ post.
Proof.
  induction s as [|d s IH]; simpl.
  - rewrite orb_false_r, startsWith_spec. split.
    + intros [rest H]. by exists [], rest.
    + intros [pre [post H]]. destruct pre; simpl in H.
      * by exists post.
      * discriminate.
  - rewrite orb_true_iff, startsWith_spec, IH. split.
    + intros [[rest H] | [pre [post H]]].
      * by exists [], rest.
      * exists (d :: pre), post. by rewrite H.
    + intros [pre [post H]]. destruct pre as [|e pre]; simpl in H.
      * left. by exists post.
      * right. injection H as -> ->. by exists pre, post.
Qed.

Lemma includes_app_l (s a b : jsstring) :
  includes s (a ++ b) = true -> includes s a = true.
Proof.
  rewrite !includes_spec. intros [pre [post H]].
  exists pre, (b ++ post). by rewrite H, <- app_assoc.
Qed.

(** ** The matcher and the relation *)

Lemma Matches_le s r i j : Matches s r i j -> i <= j.
Proof. induction 1; lia. Qed.

Lemma Matches_bound s r i j : Matches s r i j -> i <= length s -> j <= length s.
Proof.
  induction 1; intros Hi; try lia;
    try (apply lookup_lt_Some in H; lia).
  all: eauto with lia.
Qed.

Lemma Matches_minLen s r i j : Matches s r i j -> i + minLen r <= j.
Proof.
  induction 1; simpl; lia.
Qed.

Lemma step1_in s p st st' :
  In st' (step1 s p st) <->
  exists c, s !! pos st = Some c /\ p c = true /\ st' = advance st.
Proof.
  unfold step1. destruct (s !! pos st) as [c|] eqn:E.
  - destruct (p c) eqn:Ep; simpl.
    + split.
      * intros [<- | []]. by exists c.
      * intros [c' [H1 [H2 ->]]]. by left.
    + split; [done |]. intros [c' [H1 [H2 _]]]. congruence.
  - split; [done |]. intros [c' [H1 _]]. discriminate.
Qed.

Lemma clearCaps_pos ns st : pos (clearCaps ns st) = pos st.
Proof. done. Qed.

Lemma clearCaps_length ns st : length (caps (clearCaps ns st)) = length (caps st).
Proof.
  unfold clearCaps. simpl. induction ns as [|n ns IH]; simpl; [done |].
  by rewrite length_insert.
Qed.

Lemma in_choice {A} (g : bool) (x a : A) (more : list A) :
  In x (if g then more ++ [a] else a :: more) <-> x = a \/ In x more.
Proof.
  destruct g; [rewrite in_app_iff |]; simpl; intuition.
Qed.

Section RepeatLoop.
Variables (s : jsstring) (a : regex) (body : mstate -> list mstate).
Hypothesis body_spec : forall x j,
  pos x <= length s ->
  (exists x', In x' (body x) /\ pos x' = j) <-> Matches s a (pos x) j.

Lemma repeatLoop_sound g fuel st st' :
  pos st <= length s ->
  In st' (repeatLoop body g fuel st) -> Matches s (RStar g a) (pos st) (pos st').
Proof using body_spec.
  revert st. induction fuel as [|f IH]; intros st Hst; simpl.
  - intros [<- | []]. constructor.
  - intros Hin.
    apply in_choice in Hin as [-> | Hm].
    + constructor.
    + apply in_flat_map in Hm as [x [Hx Hx']].
      destruct (Nat.eqb_spec (pos x) (pos st)) as [|Hne]; [done |].
      assert (Matches s a (pos st) (pos x)) as Ha.
      { apply body_spec; [done | by exists x]. }
      eapply MStarS; [exact Ha | done |].
      apply IH; [| done]. by eapply Matches_bound.
Qed.

Lemma repeatLoop_complete g i j :
  Matches s (RStar g a) i j ->
  forall fuel st, pos st = i -> i <= length s -> length s - i < fuel ->
  exists st', In st' (repeatLoop body g fuel st) /\ pos st' = j.
Proof using body_spec.
  remember (RStar g a) as r eqn:Er. induction 1; try discriminate.
  - intros fuel st Hp _ _. exists st. split; [| done].
    destruct fuel; simpl; [by left |]. apply in_choice. by left.
  - injection Er as -> ->. intros fuel st Hp Hi Hf.
    destruct fuel as [|f]; [lia |].
    assert (Hk := Matches_le _ _ _ _ H).
    assert (Hk' := Matches_bound _ _ _ _ H Hi).
    subst i.
    apply body_spec in H as [x [Hx Hpx]]; [| done].
    destruct (IHMatches2 eq_refl f x Hpx Hk' ltac:(lia)) as [st' [Hin Hj]].
    exists st'. split; [| done]. simpl. apply in_choice. right.
    apply in_flat_map. exists x. split; [done |].
    destruct (Nat.eqb_spec (pos x) (pos st)); [lia | done].
Qed.
End RepeatLoop.

(** Inversion of the relation, one expression form at a time. *)
Lemma Matches_empty s i j : Matches s REmpty i j <-> j = i.
Proof. split; [by inversion 1 | intros ->; constructor]. Qed.

Lemma Matches_char s c i j :
  Matches s (RChar c) i j <-> s !! i = Some c /\ j = S i.
Proof. split; [by inversion 1 | intros [? ->]; by constructor]. Qed.

Lemma Matches_any s i j :
  Matches s RAny i j <->
  exists c, s !! i = Some c /\ isLineTerminator c = false /\ j = S i.
Proof.
  split; [inversion 1; eauto | intros [c [? [? ->]]]; by econstructor].
Qed.

Lemma Matches_set s neg items i j :
  Matches s (RSet neg items) i j <->
  exists c, s !! i = Some c /\ xorb neg (existsb (inCls c) items) = true
            /\ j = S i.
Proof.
  split; [inversion 1; eauto | intros [c [? [? ->]]]; by econstructor].
Qed.

Lemma Matches_start s i j : Matches s RStart i j <-> i = 0 /\ j = 0.
Proof. split; [by inversion 1 | intros [-> ->]; constructor]. Qed.

Lemma Matches_end s i j :
  Matches s REnd i j <-> i = length s /\ j = length s.
Proof. split; [by inversion 1 | intros [-> ->]; constructor]. Qed.

Lemma Matches_wordb s i j :
  Matches s RWordB i j <-> atWordBoundary s i = true /\ j = i.
Proof. split; [by inversion 1 | intros [? ->]; by constructor]. Qed.

Lemma Matches_seq s a b i j :
  Matches s (RSeq a b) i j <-> exists k, Matches s a i k /\ Matches s b k j.
Proof.
  split; [inversion 1; eauto | intros [k [? ?]]; by econstructor].
Qed.

Lemma Matches_alt s a b i j :
  Matches s (RAlt a b) i j <-> Matches s a i j \/ Matches s b i j.
Proof.
  split; [inversion 1; eauto | intros [?|?]; [by apply MAltL | by apply MAltR]].
Qed.

Lemma Matches_star s g a i j :
  Matches s (RStar g a) i j <->
  j = i \/ exists k, Matches s a i k /\ k <> i /\ Matches s (RStar g a) k j.
Proof.
  split.
  - inversion 1; subst; [by left | right; eauto].
  - intros [-> | [k [? [? ?]]]]; [constructor | by econstructor].
Qed.

Lemma Matches_plus s g a i j :
  Matches s (RPlus g a) i j <->
  exists k, Matches s a i k /\ Matches s (RStar g a) k j.
Proof.
  split; [inversion 1; eauto | intros [k [? ?]]; by econstructor].
Qed.

Lemma Matches_opt s g a i j :
  Matches s (ROpt g a) i j <-> j = i \/ (Matches s a i j /\ j <> i).
Proof.
  split.
  - inversion 1; subst; [by left | by right].
  - intros [-> | [? ?]]; [constructor | by constructor].
Qed.

Lemma Matches_group s n a i j : Matches s (RGroup n a) i j <-> Matches s a i j.
Proof. split; [by inversion 1 | by constructor]. Qed.

Lemma rmatch_Matches s r : forall st j,
  pos st <= length s ->
  (exists st', In st' (rmatch s r st) /\ pos st' = j) <-> Matches s r (pos st) j.
Proof.
  induction r as [| c | | neg items | | | | a IHa b IHb | a IHa b IHb
                 | g a IHa | g a IHa | g a IHa | n a IHa];
    intros st j Hst; cbn [rmatch].
  - rewrite Matches_empty. split.
    + by intros [st' [[<- | []] <-]].
    + intros ->. exists st. split; [by left | done].
  - rewrite Matches_char. split.
    + intros [st' [Hin <-]]. apply step1_in in Hin as [d [H1 [H2 ->]]].
      by apply N.eqb_eq in H2 as ->.
    + intros [H ->]. exists (advance st). split; [| done].
      apply step1_in. exists c. by rewrite N.eqb_refl.
  - rewrite Matches_any. split.
    + intros [st' [Hin <-]]. apply step1_in in Hin as [d [H1 [H2 ->]]].
      apply negb_true_iff in H2. by exists d.
    + intros [c [H1 [H2 ->]]]. exists (advance st). split; [| done].
      apply step1_in. exists c. by rewrite H2.
  - rewrite Matches_set. split.
    + intros [st' [Hin <-]]. apply step1_in in Hin as [d [H1 [H2 ->]]].
      by exists d.
    + intros [c [H1 [H2 ->]]]. exists (advance st). split; [| done].
      apply step1_in. by exists c.
  - rewrite Matches_start. destruct (Nat.eqb_spec (pos st) 0) as [E|E].
    + split.
      * intros [st' [[<- | []] <-]]. by rewrite E.
      * intros [_ ->]. exists st. split; [by left | done].
    + split; [intros [st' [[] _]] | by intros [? _]].
  - rewrite Matches_end. destruct (Nat.eqb_spec (pos st) (length s)) as [E|E].
    + split.
      * intros [st' [[<- | []] <-]]. by rewrite E.
      * intros [_ ->]. exists st. split; [by left | done].
    + split; [intros [st' [[] _]] | by intros [? _]].
  - rewrite Matches_wordb. destruct (atWordBoundary s (pos st)) eqn:E.
    + split.
      * by intros [st' [[<- | []] <-]].
      * intros [_ ->]. exists st. split; [by left | done].
    + split; [intros [st' [[] _]] | by intros [? _]].
  - rewrite Matches_seq. split.
    + intros [st' [Hin <-]]. apply in_flat_map in Hin as [x [Hx Hx']].
      assert (Matches s a (pos st) (pos x)) as Ha
        by (apply IHa; [done | by exists x]).
      exists (pos x). split; [done |].
      apply IHb; [by eapply Matches_bound | by exists st'].
    + intros [k [Ha Hb]].
      assert (Hk := Matches_bound _ _ _ _ Ha Hst).
      apply IHa in Ha as [x [Hx Hpx]]; [| done]. subst k.
      apply IHb in Hb as [st' [Hin Hj]]; [| done].
      exists st'. split; [| done]. apply in_flat_map. by exists x.
  - rewrite Matches_alt. split.
    + intros [st' [Hin <-]]. apply in_app_iff in Hin as [Hin | Hin].
      * left. apply IHa; [done | by exists st'].
      * right. apply IHb; [done | by exists st'].
    + intros [H | H].
      * apply IHa in H as [st' [Hin Hj]]; [| done].
        exists st'. split; [apply in_app_iff; by left | done].
      * apply IHb in H as [st' [Hin Hj]]; [| done].
        exists st'. split; [apply in_app_iff; by right | done].
  - split.
    + intros [st' [Hin <-]].
      eapply repeatLoop_sound; [| done | exact Hin].
      intros x k Hx. apply (IHa (clearCaps (groupsOf a) x) k Hx).
    + intros H. eapply repeatLoop_complete; [| exact H | done | done | lia].
      intros x k Hx. apply (IHa (clearCaps (groupsOf a) x) k Hx).
  - rewrite Matches_plus. split.
    + intros [st' [Hin <-]]. apply in_flat_map in Hin as [x [Hx Hx']].
      assert (Matches s a (pos st) (pos x)) as Ha.
      { apply (IHa (clearCaps (groupsOf a) st)); [done | by exists x]. }
      exists (pos x). split; [done |].
      eapply repeatLoop_sound; [| by eapply Matches_bound | exact Hx'].
      intros y k Hy. apply (IHa (clearCaps (groupsOf a) y) k Hy).
    + intros [k [Ha Hb]].
      assert (Hk := Matches_bound _ _ _ _ Ha Hst).
      apply (IHa (clearCaps (groupsOf a) st)) in Ha as [x [Hx Hpx]]; [| done].
      subst k.
      destruct (repeatLoop_complete s a
                  (fun y => rmatch s a (clearCaps (groupsOf a) y))
                  (fun y k Hy => IHa (clearCaps (groupsOf a) y) k Hy)
                  g _ _ Hb (S (length s - pos x)) x eq_refl Hk ltac:(lia))
        as [st' [Hin Hj]].
      exists st'. split; [| done]. apply in_flat_map. by exists x.
  - assert (forall st', In st'
              (filter (fun st' => negb (pos st' =? pos st))
                 (rmatch s a (clearCaps (groupsOf a) st))) <->
              In st' (rmatch s a (clearCaps (groupsOf a) st))
              /\ pos st' <> pos st) as Hf.
    { intros st'. rewrite <- !list_elem_of_In, list_elem_of_filter.
      rewrite negb_True, Is_true_true, Nat.eqb_eq. tauto. }
    rewrite Matches_opt. split.
    + intros [st' [Hin <-]].
      apply in_choice in Hin as [-> | Hm]; [by left |].
      apply Hf in Hm as [Hm Hne]. right. split; [| done].
      apply (IHa (clearCaps (groupsOf a) st)); [done | by exists st'].
    + intros [-> | [Ha Hne]].
      * exists st. split; [| done]. apply in_choice. by left.
      * apply (IHa (clearCaps (groupsOf a) st)) in Ha as [st' [Hin Hj]];
          [| done].
        exists st'. split; [| done]. apply in_choice. right.
        apply Hf. split; [done | lia].
  - rewrite Matches_group. split.
    + intros [st' [Hin <-]]. apply in_map_iff in Hin as [x [<- Hx]]. simpl.
      apply IHa; [done | by exists x].
    + intros Ha. apply IHa in Ha as [x [Hx Hpx]]; [| done].
      exists (setCap n (pos st) (pos x) x). split; [| done].
      apply in_map_iff. by exists x.
Qed.

(** ** [exec], [test] and the loops over a global expression *)

Lemma matchAt_Some r s i m :
  matchAt r s i = Some m ->
  index m = i /\
  exists st', In st' (rmatch s r (MState i (replicate (S (maxGroup r)) None)))
              /\ pos st' = endIndex m /\ caps st' = groups m.
Proof.
  unfold matchAt.
  destruct (rmatch s r _) as [|st l] eqn:E; [done |].
  intros [= <-]. split; [done |]. exists st. split; [by left | done].
Qed.

Lemma matchAt_Matches r s i m :
  i <= length s -> matchAt r s i = Some m -> Matches s r i (endIndex m).
Proof.
  intros Hi H. apply matchAt_Some in H as [_ [st' [Hin [Hp _]]]].
  apply (rmatch_Matches s r (MState i (replicate (S (maxGroup r)) None))
           (endIndex m) Hi).
  by exists st'.
Qed.


Lemma firstMatch_Some r s l m :
  firstMatch r s l = Some m -> In (index m) l /\ matchAt r s (index m) = Some m.
Proof.
  induction l as [|i l IH]; simpl; [done |].
  destruct (matchAt r s i) as [m'|] eqn:E.
  - intros [= <-]. destruct (matchAt_Some _ _ _ _ E) as [-> _]. auto.
  - intros H. destruct (IH H). auto.
Qed.

Lemma firstMatch_None r s l :
  firstMatch r s l = None <-> forall k, In k l -> matchAt r s k = None.
Proof.
  induction l as [|i l IH]; simpl; [naive_solver |].
  destruct (matchAt r s i) as [m'|] eqn:E.
  - split; [done |]. intros H. rewrite (H i) in E; [done | by left].
  - rewrite IH. split.
    + intros H k [<- | Hk]; auto.
    + intros H k Hk. apply H. by right.
Qed.

Lemma firstMatch_seq_leftmost r s from n m :
  firstMatch r s (seq from n) = Some m ->
  forall k, from <= k < index m -> matchAt r s k = None.
Proof.
  revert from. induction n as [|n IH]; intros from; simpl; [done |].
  destruct (matchAt r s from) as [m'|] eqn:E.
  - intros [= <-]. destruct (matchAt_Some _ _ _ _ E) as [-> _]. lia.
  - intros H k Hk. destruct (decide (k = from)) as [-> | Hne]; [done |].
    apply (IH _ H). lia.
Qed.

Lemma exec_Some r s from m :
  exec r s from = Some m ->
  from <= index m <= length s /\ matchAt r s (index m) = Some m /\
  forall k, from <= k < index m -> matchAt r s k = None.
Proof.
  unfold exec. intros H.
  destruct (firstMatch_Some _ _ _ _ H) as [Hin Hm].
  apply in_seq in Hin. split; [lia |]. split; [done |].
  by eapply firstMatch_seq_leftmost.
Qed.

Lemma exec_None r s from :
  exec r s from = None <->
  forall k, from <= k <= length s -> matchAt r s k = None.
Proof.
  unfold exec. rewrite firstMatch_None. split.
  - intros H k Hk. apply H, in_seq. lia.
  - intros H k Hk. apply H. apply in_seq in Hk. lia.
Qed.

Lemma exec_Matches r s from m :
  exec r s from = Some m -> Matches s r (index m) (endIndex m).
Proof.
  intros H. apply exec_Some in H as [Hi [Hm _]].
  apply matchAt_Matches; [lia | done].
Qed.



Lemma execLoop_total r s :
  (forall i j, Matches s r i j -> i < j) ->
  forall fuel lastIndex,
    S (length s) - lastIndex < fuel -> is_Some (execLoop fuel r s lastIndex).
Proof.
  intros Hne. induction fuel as [|f IH]; intros lastIndex Hf; [lia |].
  simpl. destruct (exec r s lastIndex) as [m|] eqn:E; [| done].
  assert (Hm := exec_Matches _ _ _ _ E). apply Hne in Hm.
  apply exec_Some in E as [Hi _].
  destruct (Nat.leb_spec (endIndex m) lastIndex); [lia |].
  destruct (IH (endIndex m)) as [ms ->]; [lia | done].
Qed.

Lemma execAll_total r s :
  0 < minLen r -> is_Some (execAll r s).
Proof.
  intros Hr. apply execLoop_total; [| lia].
  intros i j H. apply Matches_minLen in H. lia.
Qed.

Lemma execLoop_In r s fuel lastIndex ms m :
  execLoop fuel r s lastIndex = Some ms -> In m ms ->
  exists from, exec r s from = Some m.
Proof.
  revert lastIndex ms. induction fuel as [|f IH]; intros lastIndex ms; [done |].
  simpl. destruct (exec r s lastIndex) as [m'|] eqn:E.
  - destruct (endIndex m' <=? lastIndex); [done |].
    destruct (execLoop f r s (endIndex m')) as [ms'|] eqn:E'; [| done].
    simpl. intros [= <-] [<- | Hin]; [by exists lastIndex |].
    by eapply IH.
  - by intros [= <-] [].
Qed.

Lemma execAll_In r s ms m :
  execAll r s = Some ms -> In m ms -> exists from, exec r s from = Some m.
Proof. apply execLoop_In. Qed.

(** ** Captures *)

Lemma clearCaps_lookup_ne ns st n :
  ~ In n ns -> caps (clearCaps ns st) !! n = caps st !! n.
Proof.
  unfold clearCaps. simpl. induction ns as [|k ns IH]; simpl; [done |].
  intros Hn. rewrite list_lookup_insert_ne; [| naive_solver].
  apply IH. naive_solver.
Qed.

Section RepeatInv.
Variables (body : mstate -> list mstate) (P : mstate -> mstate -> Prop).
Hypothesis P_refl : forall x, P x x.
Hypothesis P_trans : forall x y z, P x y -> P y z -> P x z.
Hypothesis body_P : forall x y, In y (body x) -> P x y.

Lemma repeatLoop_inv g fuel st st' :
  In st' (repeatLoop body g fuel st) -> P st st'.
Proof using P_refl P_trans body_P.
  revert st. induction fuel as [|f IH]; intros st; simpl.
  - by intros [<- | []].
  - intros Hin. apply in_choice in Hin as [-> | Hm]; [done |].
    apply in_flat_map in Hm as [x [Hx Hx']].
    destruct (pos x =? pos st); [done |].
    eapply P_trans; [by apply body_P | by apply IH].
Qed.
End RepeatInv.

Lemma rmatch_caps_length s r : forall st st',
  In st' (rmatch s r st) -> length (caps st') = length (caps st).
Proof.
  induction r as [| c | | neg items | | | | a IHa b IHb | a IHa b IHb
                 | g a IHa | g a IHa | g a IHa | n a IHa];
    intros st st'; cbn [rmatch].
  - by intros [<- | []].
  - intros H. by apply step1_in in H as [d [_ [_ ->]]].
  - intros H. by apply step1_in in H as [d [_ [_ ->]]].
  - intros H. by apply step1_in in H as [d [_ [_ ->]]].
  - destruct (pos st =? 0); [by intros [<- | []] | done].
  - destruct (pos st =? length s); [by intros [<- | []] | done].
  - destruct (atWordBoundary s (pos st)); [by intros [<- | []] | done].
  - intros H. apply in_flat_map in H as [x [Hx Hx']].
    rewrite (IHb _ _ Hx'). by apply IHa.
  - intros H. apply in_app_iff in H as [H | H]; auto.
  - apply (repeatLoop_inv _ (fun x y => length (caps y) = length (caps x)));
      [done | congruence |].
    intros x y Hy. rewrite (IHa _ _ Hy). apply clearCaps_length.
  - intros H. apply in_flat_map in H as [x [Hx Hx']].
    rewrite <- (clearCaps_length (groupsOf a) st), <- (IHa _ _ Hx).
    revert Hx'.
    apply (repeatLoop_inv _ (fun x y => length (caps y) = length (caps x)));
      [done | congruence |].
    intros y z Hz. rewrite (IHa _ _ Hz). apply clearCaps_length.
  - intros H. apply in_choice in H as [-> | H]; [done |].
    apply list_elem_of_In, list_elem_of_filter in H as [_ H].
    apply list_elem_of_In in H. rewrite (IHa _ _ H). apply clearCaps_length.
  - intros H. apply in_map_iff in H as [x [<- Hx]]. simpl.
    rewrite length_insert. by apply IHa.
Qed.

Lemma rmatch_caps_frame s r n : forall st st',
  ~ In n (groupsOf r) -> In st' (rmatch s r st) -> caps st' !! n = caps st !! n.
Proof.
  induction r as [| c | | neg items | | | | a IHa b IHb | a IHa b IHb
                 | g a IHa | g a IHa | g a IHa | k a IHa];
    intros st st' Hn; cbn [rmatch]; simpl in Hn.
  - by intros [<- | []].
  - intros H. by apply step1_in in H as [d [_ [_ ->]]].
  - intros H. by apply step1_in in H as [d [_ [_ ->]]].
  - intros H. by apply step1_in in H as [d [_ [_ ->]]].
  - destruct (pos st =? 0); [by intros [<- | []] | done].
  - destruct (pos st =? length s); [by intros [<- | []] | done].
  - destruct (atWordBoundary s (pos st)); [by intros [<- | []] | done].
  - rewrite in_app_iff in Hn.
    intros H. apply in_flat_map in H as [x [Hx Hx']].
    rewrite (IHb _ _ ltac:(tauto) Hx'). apply IHa; [tauto | done].
  - rewrite in_app_iff in Hn.
    intros H. apply in_app_iff in H as [H | H]; [apply IHa | apply IHb]; tauto.
  - apply (repeatLoop_inv _ (fun x y => caps y !! n = caps x !! n));
      [done | congruence |].
    intros x y Hy. rewrite (IHa _ _ Hn Hy). by apply clearCaps_lookup_ne.
  - intros H. apply in_flat_map in H as [x [Hx Hx']].
    rewrite <- (clearCaps_lookup_ne (groupsOf a) st n Hn), <- (IHa _ _ Hn Hx).
    revert Hx'.
    apply (repeatLoop_inv _ (fun x y => caps y !! n = caps x !! n));
      [done | congruence |].
    intros y z Hz. rewrite (IHa _ _ Hn Hz). by apply clearCaps_lookup_ne.
  - intros H. apply in_choice in H as [-> | H]; [done |].
    apply list_elem_of_In, list_elem_of_filter in H as [_ H].
    apply list_elem_of_In in H. rewrite (IHa _ _ Hn H).
    by apply clearCaps_lookup_ne.
  - intros H. apply in_map_iff in H as [x [<- Hx]]. simpl.
    rewrite list_lookup_insert_ne; [| naive_solver].
    apply IHa; [naive_solver | done].
Qed.

(** A trailing group of an expression: its capture is the span its atom
    matched. *)
Lemma rmatch_group s n a st st' :
  pos st <= length s -> n < length (caps st) ->
  In st' (rmatch s (RGroup n a) st) ->
  exists e, caps st' !! n = Some (Some (pos st, e)) /\ pos st' = e
            /\ Matches s a (pos st) e.
Proof.
  intros Hst Hn H. cbn [rmatch] in H. apply in_map_iff in H as [x [<- Hx]].
  exists (pos x). simpl. split; [| split; [done |]].
  - apply list_lookup_insert_eq. by rewrite (rmatch_caps_length _ _ _ _ Hx).
  - apply rmatch_Matches; [done | by exists x].
Qed.

(** ** The file content store *)

Lemma content_invalidate u st :
  fileContentCache (invalidateCachesForFile u st)
  = delete (uriKey u) (fileContentCache st).
Proof. done. Qed.

(** C8. After [invalidateCachesForFile] drops a file's entry, the next read
    hands out what the disk holds now, whatever was cached before; and a
    read whose cached entry carries the file's current [mtime] returns the
    cached content with no [readFileSync], while any other read of a file
    that can be stat-ed reads it again and stores the new content and
    [mtime]. *)
Theorem readFileWithCache_fresh (env : Env) (u : Uri) (st : State) :
  readView env (invalidateCachesForFile u st) u = onDisk env (fsPath u)
  /\ (forall cached mt,
        fileContentCache st !! uriKey u = Some cached ->
        statSync (disk env) (fsPath u) = Some mt ->
        mtime cached = mt ->
        readFileWithCache env u st
        = (Some (content cached), logOp (OpStat (fsPath u)) st))
  /\ (forall mt,
        statSync (disk env) (fsPath u) = Some mt ->
        (forall cached, fileContentCache st !! uriKey u = Some cached ->
                        mtime cached <> mt) ->
        exists st',
          readFileWithCache env u st = (readFileSync (disk env) (fsPath u), st')
          /\ fsLog st' = OpRead (fsPath u) :: OpStat (fsPath u) :: fsLog st
          /\ fileContentCache st' !! uriKey u
             = (fun c => MkEntry c mt) <$> readFileSync (disk env) (fsPath u)).
Proof.
  split; [| split].
  - unfold readView, readFileWithCache, onDisk.
    destruct (statSync (disk env) (fsPath u)) as [mt|]; [| done].
    cbn [logOp fileContentCache]. rewrite content_invalidate, lookup_delete_eq.
    by destruct (readFileSync (disk env) (fsPath u)).
  - intros cached mt Hc Hs Hm. unfold readFileWithCache. rewrite Hs.
    cbn [logOp fileContentCache]. rewrite Hc.
    by rewrite (proj2 (N.eqb_eq _ _) Hm).
  - intros mt Hs Hc. unfold readFileWithCache. rewrite Hs.
    cbn [logOp fileContentCache].
    assert (forall (X : option jsstring * State),
              match fileContentCache st !! uriKey u with
              | Some cached => if (mtime cached =? mt)%N
                               then (Some (content cached),
                                     logOp (OpStat (fsPath u)) st)
                               else X
              | None => X
              end = X) as Hmiss.
    { intros X. destruct (fileContentCache st !! uriKey u) as [cached|] eqn:E;
        [| done].
      destruct (N.eqb_spec (mtime cached) mt) as [Heq|]; [| done].
      by destruct (Hc cached eq_refl). }
    unfold logOp in *. cbn [fileContentCache] in *. rewrite Hmiss.
    destruct (readFileSync (disk env) (fsPath u)) as [c|]; eexists;
      (split; [reflexivity |]); split; try done; simpl.
    + apply lookup_insert_eq.
    + apply lookup_delete_eq.
Qed.

Lemma readFileWithCache_fresh_witness :
  readFileWithCache storeEnv storeUri storeHit
  = (Some (lit "old"), logOp (OpStat (fsPath storeUri)) storeHit)
  /\ exists st',
       readFileWithCache storeEnv storeUri storeStale = (Some (lit "new"), st')
       /\ fsLog st' = [OpRead (fsPath storeUri); OpStat (fsPath storeUri)]
       /\ fileContentCache st' !! uriKey storeUri = Some (MkEntry (lit "new") 5).
Proof.
  destruct (readFileWithCache_fresh storeEnv storeUri storeHit) as [_ [H _]].
  destruct (readFileWithCache_fresh storeEnv storeUri storeStale) as [_ [_ H']].
  split.
  - apply (H (MkEntry (lit "old") 5) 5%N); reflexivity.
  - apply (H' 5%N); [reflexivity |].
    intros cached Hc. vm_compute in Hc. injection Hc as <-. done.
Defined.

Lemma readFileWithCache_other_caches env u st :
  importingFilesCache (readFileWithCache env u st).2 = importingFilesCache st
  /\ componentUsageCache (readFileWithCache env u st).2 = componentUsageCache st
  /\ diagnosticCollection (readFileWithCache env u st).2 = diagnosticCollection st.
Proof.
  unfold readFileWithCache.
  destruct (statSync (disk env) (fsPath u)) as [mt|]; [| done].
  cbn [logOp fileContentCache].
  destruct (fileContentCache st !! uriKey u) as [cached|];
    [destruct (mtime cached =? mt)%N; [done |] |];
    by destruct (readFileSync (disk env) (fsPath u)).
Qed.

Lemma readFileWithCache_content_ne env u st k :
  k <> uriKey u ->
  fileContentCache (readFileWithCache env u st).2 !! k = fileContentCache st !! k.
Proof.
  intros Hk. unfold readFileWithCache.
  destruct (statSync (disk env) (fsPath u)) as [mt|]; simpl;
    [| by rewrite lookup_delete_ne].
  destruct (fileContentCache st !! uriKey u) as [cached|];
    [destruct (mtime cached =? mt)%N; [done |] |];
    destruct (readFileSync (disk env) (fsPath u)); simpl;
    by rewrite ?lookup_insert_ne, ?lookup_delete_ne.
Qed.

Lemma readView_depends env st1 st2 u :
  fileContentCache st1 !! uriKey u = fileContentCache st2 !! uriKey u ->
  readView env st1 u = readView env st2 u.
Proof.
  intros H. unfold readView, readFileWithCache.
  destruct (statSync (disk env) (fsPath u)) as [mt|]; [| done].
  cbn [logOp fileContentCache]. rewrite H.
  destruct (fileContentCache st2 !! uriKey u) as [cached|];
    [destruct (mtime cached =? mt)%N; [done |] |];
    by destruct (readFileSync (disk env) (fsPath u)).
Qed.

(** A read does not change what later reads hand out. *)
Lemma readView_stable env v st u :
  readView env (readFileWithCache env v st).2 u = readView env st u.
Proof.
  destruct (decide (u = v)) as [-> | Hne].
  - unfold readView, readFileWithCache.
    destruct (statSync (disk env) (fsPath v)) as [mt|] eqn:Hs; simpl;
      [| done].
    destruct (fileContentCache st !! uriKey v) as [cached|] eqn:Hc;
      [destruct (mtime cached =? mt)%N eqn:Hm |]; simpl;
      rewrite ?Hc, ?Hm; try done;
      destruct (readFileSync (disk env) (fsPath v)) as [c|] eqn:Hr; simpl;
      by rewrite ?lookup_insert_eq, ?lookup_delete_eq, ?N.eqb_refl, ?Hr.
  - apply readView_depends, readFileWithCache_content_ne.
    intros H. by apply uriKey_inj in H.
Qed.

Lemma usageView_eq env document st u :
  usageView env document st u =
  match cachedUsage st document u with
  | Some used => Some (Some used)
  | None =>
      match readView env st u with
      | Some (c :: cs) =>
          Some <$> usedComponentsOf (c :: cs) (styleBaseName document)
      | _ => Some None
      end
  end.
Proof.
  unfold usageView, getUsedComponentsFromFileCached, cachedUsage, readView,
    bind, gets, total, liftOpt, modify, ret.
  destruct (componentUsageCache st !! uriKey u ≫= _) as [used|]; [done |].
  destruct (readFileWithCache env u st) as [[[|c cs]|] st1]; simpl; try done.
  by destruct (usedComponentsOf (c :: cs) (styleBaseName document)).
Qed.

Lemma cachedUsage_insert st document f used u :
  cachedUsage
    (setUsageCache (fun cache =>
       <[uriKey f := <[styleBaseName document := used]>
                       (default ∅ (cache !! uriKey f))]> cache) st) document u
  = if decide (u = f) then Some used else cachedUsage st document u.
Proof.
  unfold cachedUsage. simpl. destruct (decide (u = f)) as [-> | Hne].
  - rewrite lookup_insert_eq. simpl. apply lookup_insert_eq.
  - rewrite lookup_insert_ne; [done |]. intros H. by apply uriKey_inj in H.
Qed.

(** A call of the usage resolver answers with its view, and leaves every
    view as it was. *)
Lemma getUsed_spec env document f st r st' :
  getUsedComponentsFromFileCached env f document st = Some (r, st') ->
  usageView env document st f = Some r
  /\ (forall u, usageView env document st' u = usageView env document st u)
  /\ importingFilesCache st' = importingFilesCache st
  /\ diagnosticCollection st' = diagnosticCollection st.
Proof.
  intros H. split; [unfold usageView; by rewrite H |].
  revert H.
  unfold getUsedComponentsFromFileCached, bind, gets, total, liftOpt, modify, ret.
  fold (cachedUsage st document f).
  destruct (cachedUsage st document f) as [used|] eqn:Hc.
  { intros [= <- <-]. done. }
  pose proof (readView_stable env f st) as Hrs.
  pose proof (readFileWithCache_other_caches env f st) as [Hi [Hu Hd]].
  assert (forall u, cachedUsage (readFileWithCache env f st).2 document u
                    = cachedUsage st document u) as Hcu.
  { intros u. unfold cachedUsage. by rewrite Hu. }
  destruct (readFileWithCache env f st) as [[[|c cs]|] st1] eqn:Hr;
    simpl in *.
  - intros [= <- <-]. split; [| done]. intros u.
    by rewrite !usageView_eq, Hcu, Hrs.
  - destruct (usedComponentsOf (c :: cs) (styleBaseName document))
      as [used|] eqn:Hused; [| done].
    intros [= <- <-]. split; [| done]. intros u.
    rewrite !usageView_eq, cachedUsage_insert, Hcu.
    assert (readView env (setUsageCache (fun cache =>
              <[uriKey f := <[styleBaseName document := used]>
                              (default ∅ (cache !! uriKey f))]> cache) st1) u
            = readView env st u) as ->.
    { rewrite <- Hrs. by apply readView_depends. }
    destruct (decide (u = f)) as [-> | Hne]; [| done].
    rewrite Hc. unfold readView. rewrite Hr. simpl. by rewrite Hused.
  - intros [= <- <-]. split; [| done]. intros u.
    by rewrite !usageView_eq, Hcu, Hrs.
Qed.

Lemma foldl_pointwise {A B} (f g : A -> B -> A) (l : list B) (a : A) :
  (forall x y, f x y = g x y) -> foldl f a l = foldl g a l.
Proof.
  intros H. revert a. induction l as [|y l IH]; intros a; simpl; [done |].
  by rewrite H, IH.
Qed.

(** The sets gathered from a list of importers are a function of the
    views in the state the loop starts in. *)
Lemma usageOfImporters_spec env document : forall importingFiles acc st U st',
  usageOfImporters env document importingFiles acc st = Some (U, st') ->
  U = foldl (gather env document st) acc importingFiles
  /\ (forall f, In f importingFiles -> is_Some (usageView env document st f))
  /\ (forall u, usageView env document st' u = usageView env document st u)
  /\ importingFilesCache st' = importingFilesCache st
  /\ diagnosticCollection st' = diagnosticCollection st.
Proof.
  induction importingFiles as [|f l IH]; intros acc st U st'; simpl.
  - intros [= <- <-]. done.
  - unfold bind at 1.
    destruct (getUsedComponentsFromFileCached env f document st)
      as [[r st1]|] eqn:Hf; [| done].
    apply getUsed_spec in Hf as [Hv [Hviews [Hi Hd]]].
    intros H. apply IH in H as [-> [Hall [Hviews' [Hi' Hd']]]].
    split; [| split; [| split; [| split]]].
    + cbn [foldl].
      assert (gather env document st acc f
              = match r with
                | Some used => <[uriKey f := used]> acc
                | None => acc
                end) as ->.
      { unfold gather. rewrite Hv. by destruct r. }
      apply foldl_pointwise. intros b u. unfold gather. by rewrite Hviews.
    + intros u [<- | Hu]; [by rewrite Hv |]. rewrite <- Hviews. by apply Hall.
    + intros u. by rewrite Hviews', Hviews.
    + congruence.
    + congruence.
Qed.

(** ** The orchestrator *)

Lemma setHas_spec x s : setHas x s = true <-> x ∈ s.
Proof. unfold setHas. by rewrite bool_decide_eq_true. Qed.

Lemma isUsed_spec U c :
  isUsed U c = true <-> exists k used, U !! k = Some used /\ name c ∈ used.
Proof.
  unfold isUsed. rewrite existsb_exists. split.
  - intros [[k used] [Hin Hhas]]. exists k, used.
    apply list_elem_of_In, elem_of_map_to_list in Hin.
    by apply setHas_spec in Hhas.
  - intros [k [used [Hk Hin]]]. exists (k, used). split.
    + by apply list_elem_of_In, elem_of_map_to_list.
    + by apply setHas_spec.
Qed.

Lemma gather_lookup env document st : forall l acc k used,
  foldl (gather env document st) acc l !! k = Some used ->
  acc !! k = Some used
  \/ exists f, In f l /\ uriKey f = k
               /\ usageView env document st f = Some (Some used).
Proof.
  induction l as [|g l IH]; intros acc k used; simpl; [by left |].
  intros H. apply IH in H as [H | [f [Hf [Hk Hv]]]].
  - unfold gather in H.
    destruct (usageView env document st g) as [[ug|]|] eqn:Hg; auto.
    destruct (decide (uriKey g = k)) as [<- | Hne].
    + rewrite lookup_insert_eq in H. injection H as ->.
      right. exists g. auto.
    + rewrite lookup_insert_ne in H by done. by left.
  - right. exists f. auto.
Qed.

Lemma gather_covers env document st : forall l acc f used,
  usageView env document st f = Some (Some used) ->
  In f l \/ acc !! uriKey f = Some used ->
  foldl (gather env document st) acc l !! uriKey f = Some used.
Proof.
  induction l as [|g l IH]; intros acc f used Hv; simpl.
  - by intros [[] | H].
  - intros H. apply IH; [done |].
    destruct H as [[-> | H] | H]; [right | by left | right].
    + unfold gather. rewrite Hv. apply lookup_insert_eq.
    + unfold gather.
      destruct (usageView env document st g) as [[ug|]|] eqn:Hg; auto.
      destruct (decide (g = f)) as [-> | Hne].
      * rewrite Hv in Hg. injection Hg as ->. apply lookup_insert_eq.
      * rewrite lookup_insert_ne; [done |]. intros E. by apply uriKey_inj in E.
Qed.

Lemma isUsed_gather env document st l c :
  isUsed (foldl (gather env document st) ∅ l) c = true
  <-> usedSomewhere env document st l (name c).
Proof.
  rewrite isUsed_spec. split.
  - intros [k [used [Hk Hin]]].
    apply gather_lookup in Hk as [Hk | [f [Hf [_ Hv]]]]; [done |].
    by exists f, used.
  - intros [f [used [Hf [Hv Hin]]]]. exists (uriKey f), used. split; [| done].
    apply gather_covers; auto.
Qed.

Lemma unusedMessage_inj a b : unusedMessage a = unusedMessage b -> a = b.
Proof.
  unfold unusedMessage. intros H.
  apply app_inv_head in H. by apply app_inv_tail in H.
Qed.

Section ForM.
Context {A B : Type} (P : State -> State -> Prop) (f : A -> M (list B)).
Hypothesis P_refl : forall s, P s s.
Hypothesis P_trans : forall s1 s2 s3, P s1 s2 -> P s2 s3 -> P s1 s3.
Hypothesis f_P : forall a s r s', f a s = Some (r, s') -> P s s'.

Lemma forM_inv l : forall s r s', forM l f s = Some (r, s') -> P s s'.
Proof using P_refl P_trans f_P.
  induction l as [|a l IH]; intros s r s'; simpl.
  - by intros [= <- <-].
  - unfold bind at 1. destruct (f a s) as [[r1 s1]|] eqn:E1; [| done].
    unfold bind at 1. destruct (forM l f s1) as [[r2 s2]|] eqn:E2; [| done].
    intros [= <- <-]. eauto.
Qed.
End ForM.

Lemma scanKeeps_refl env s : scanKeeps env s s.
Proof. done. Qed.

Lemma scanKeeps_trans env s1 s2 s3 :
  scanKeeps env s1 s2 -> scanKeeps env s2 s3 -> scanKeeps env s1 s3.
Proof.
  intros (a1 & b1 & c1 & d1) (a2 & b2 & c2 & d2).
  split; [congruence |]. split; [congruence |]. split; [congruence |].
  intros u. by rewrite d2, d1.
Qed.

Lemma readFileWithCache_scanKeeps env u s :
  scanKeeps env s (readFileWithCache env u s).2.
Proof.
  destruct (readFileWithCache_other_caches env u s) as (a & b & c).
  repeat split; try done. intros v. apply readView_stable.
Qed.

Lemma importerIfAny_eq env base f s :
  importerIfAny env base f s =
  match readView env s f with
  | Some (c :: cs) =>
      match mightImportFromFile (c :: cs) base with
      | Some b => Some (if b then [f] else [], (readFileWithCache env f s).2)
      | None => None
      end
  | _ => Some ([], (readFileWithCache env f s).2)
  end.
Proof.
  unfold importerIfAny, readView, bind, total, liftOpt, ret.
  destruct (readFileWithCache env f s) as [[[|c cs]|] s2]; simpl; try done.
  by destruct (mightImportFromFile (c :: cs) base).
Qed.

Lemma importerIfAny_scanKeeps env base f s r s' :
  importerIfAny env base f s = Some (r, s') -> scanKeeps env s s'.
Proof.
  rewrite importerIfAny_eq.
  destruct (readView env s f) as [[|c cs]|];
    [| destruct (mightImportFromFile (c :: cs) base); [| done] |];
    intros [= <- <-]; apply readFileWithCache_scanKeeps.
Qed.

Lemma findFiles_caches env document st l st' :
  findFilesImportingFromCached env document st = Some (l, st') ->
  diagnosticCollection st' = diagnosticCollection st
  /\ componentUsageCache st' = componentUsageCache st
  /\ forall u, readView env st' u = readView env st u.
Proof.
  unfold findFilesImportingFromCached, bind, gets, modify, ret.
  destruct (importingFilesCache st !! uriKey (uri document)) as [files|].
  { by intros [= <- <-]. }
  destruct (workspaceFolders env) as [folders|]; [| by intros [= <- <-]].
  destruct (forM folders _ st) as [[l1 s1]|] eqn:E; [| done].
  intros [= <- <-]. simpl.
  apply (forM_inv (scanKeeps env)) in E as (a & b & c & d);
    [| apply scanKeeps_refl | apply scanKeeps_trans |].
  { split; [done |]. split; [done |]. intros u. rewrite <- d.
    by apply readView_depends. }
  intros folder s r s' H.
  apply (forM_inv (scanKeeps env)) in H;
    [done | apply scanKeeps_refl | apply scanKeeps_trans |].
  intros f s2 r2 s2'. apply importerIfAny_scanKeeps.
Qed.

Lemma usageView_setDiagnostics env document g st u :
  usageView env document (setDiagnostics g st) u = usageView env document st u.
Proof.
  rewrite !usageView_eq. unfold cachedUsage. simpl.
  by rewrite (readView_depends env (setDiagnostics g st) st).
Qed.

(** What a run of [checkStyledComponentFile] that returns has done. *)
Lemma checkStyled_spec env document text st st' :
  checkStyledComponentFile env document text st = Some (tt, st') ->
  exists comps l stA,
    getExportedComponents text document = Some comps
    /\ findFilesImportingFromCached env document st = Some (l, stA)
    /\ (forall f, In f l -> is_Some (usageView env document stA f))
    /\ (forall u, usageView env document st' u = usageView env document stA u)
    /\ importingFilesCache st' = importingFilesCache stA
    /\ diagnosticsOf st' document
       = unusedDiagnostic
           <$> filter (fun c => negb (isUsed
                          (foldl (gather env document stA) ∅ l) c)) comps.
Proof.
  unfold checkStyledComponentFile, bind, liftOpt, modify.
  destruct (getExportedComponents text document) as [comps|]; [| done].
  destruct (findFilesImportingFromCached env document st) as [[l stA]|];
    [| done].
  destruct (usageOfImporters env document l ∅ stA) as [[U stB]|] eqn:HU;
    [| done].
  apply usageOfImporters_spec in HU as [-> [Hall [Hviews [Hi Hd]]]].
  intros [= <-]. exists comps, l, stA.
  repeat split; try done.
  - intros u. rewrite <- Hviews. apply usageView_setDiagnostics.
  - unfold diagnosticsOf. simpl. by rewrite lookup_insert_eq.
Qed.

Lemma diagnosed_spec env document stA l comps st' S :
  diagnosticsOf st' document
  = unusedDiagnostic
      <$> filter (fun c => negb (isUsed
                     (foldl (gather env document stA) ∅ l) c)) comps ->
  diagnosed st' document S
  <-> In S (name <$> comps) /\ ~ usedSomewhere env document stA l S.
Proof.
  intros Hd. unfold diagnosed. rewrite Hd. split.
  - intros [d [Hin Hm]].
    apply list_elem_of_In, list_elem_of_fmap in Hin as [c [-> Hc]].
    apply list_elem_of_filter in Hc as [Hu Hc].
    simpl in Hm. apply unusedMessage_inj in Hm as <-. split.
    + apply list_elem_of_In, list_elem_of_fmap. by exists c.
    + rewrite <- isUsed_gather. apply negb_True in Hu.
      intros E. apply Hu. by apply Is_true_true.
  - intros [Hin Hu].
    apply list_elem_of_In, list_elem_of_fmap in Hin as [c [-> Hc]].
    exists (unusedDiagnostic c). split; [| done].
    apply list_elem_of_In, list_elem_of_fmap. exists c. split; [done |].
    apply list_elem_of_filter. split; [| done].
    apply negb_True. rewrite <- isUsed_gather in Hu.
    intros E. apply Hu. by apply Is_true_true.
Qed.

Lemma checkDocument_other env document st :
  isJsOrTsFile document = false -> checkDocument env document st = Some (tt, st).
Proof. intros H. unfold checkDocument. by rewrite H. Qed.

Lemma checkDocument_rejected env document st :
  isJsOrTsFile document = true ->
  isStyledComponentFile (getText document) = false ->
  checkDocument env document st
  = Some (tt, setDiagnostics (delete (uriKey (uri document))) st).
Proof.
  intros H1 H2. unfold checkDocument, bind, modify. by rewrite H1, H2.
Qed.

Lemma checkDocument_styled env document st :
  isJsOrTsFile document = true ->
  isStyledComponentFile (getText document) = true ->
  checkDocument env document st
  = checkStyledComponentFile env document (getText document)
      (setDiagnostics (delete (uriKey (uri document))) st).
Proof.
  intros H1 H2. unfold checkDocument, bind, modify. by rewrite H1, H2.
Qed.

Lemma diagnosticsOf_deleted document st :
  diagnosticsOf (setDiagnostics (delete (uriKey (uri document))) st) document = [].
Proof. unfold diagnosticsOf. simpl. by rewrite lookup_delete_eq. Qed.

(** C1, as the code has it. After a check of a JavaScript or TypeScript
    document that returns: when the text passes the pre-filter, a
    diagnostic exists for [S] exactly when [S] names a component
    [getExportedComponents] extracts from the text and no file of the list
    of candidate importers yields a used-symbol set with [S] in it; when
    the pre-filter rejects the text, no diagnostic exists for the
    document. *)
Theorem check_diagnoses_exactly (env : Env) (document : Document)
    (st st' : State) :
  isJsOrTsFile document = true ->
  checkDocument env document st = Some (tt, st') ->
  if isStyledComponentFile (getText document)
  then exists comps l stA,
         getExportedComponents (getText document) document = Some comps
         /\ findFilesImportingFromCached env document
              (setDiagnostics (delete (uriKey (uri document))) st)
            = Some (l, stA)
         /\ forall S, diagnosed st' document S
                      <-> In S (name <$> comps)
                          /\ ~ usedSomewhere env document stA l S
  else forall S, ~ diagnosed st' document S.
Proof.
  intros Hjs Hrun.
  destruct (isStyledComponentFile (getText document)) eqn:Hpre.
  - rewrite checkDocument_styled in Hrun by done.
    apply checkStyled_spec in Hrun
      as (comps & l & stA & Hc & Hl & _ & _ & _ & Hd).
    exists comps, l, stA. split; [done |]. split; [done |].
    intros S. by eapply diagnosed_spec.
  - rewrite checkDocument_rejected in Hrun by done.
    injection Hrun as <-. intros S [d [Hin _]].
    by rewrite diagnosticsOf_deleted in Hin.
Qed.

Lemma check_diagnoses_exactly_witness :
  isJsOrTsFile boxDoc = true
  /\ checkDocument boxEnv boxDoc initialState = Some (tt, boxChecked)
  /\ exists comps l stA,
       getExportedComponents (getText boxDoc) boxDoc = Some comps
       /\ findFilesImportingFromCached boxEnv boxDoc
            (setDiagnostics (delete (uriKey (uri boxDoc))) initialState)
          = Some (l, stA)
       /\ forall S, diagnosed boxChecked boxDoc S
                    <-> In S (name <$> comps)
                        /\ ~ usedSomewhere boxEnv boxDoc stA l S.
Proof.
  assert (isJsOrTsFile boxDoc = true) as H1 by reflexivity.
  assert (checkDocument boxEnv boxDoc initialState = Some (tt, boxChecked))
    as H2 by (vm_compute; reflexivity).
  split; [exact H1 |]. split; [exact H2 |].
  exact (check_diagnoses_exactly boxEnv boxDoc initialState boxChecked H1 H2).
Defined.

(** C1, as stated, fails where the pre-filter rejects a text the extractor
    would match: [Box] is extracted, no file imports it, and no diagnostic
    exists. *)
Lemma check_diagnoses_exactly_needs_prefilter :
  exists st' comps stA,
    checkDocument loneEnv tabDoc initialState = Some (tt, st')
    /\ getExportedComponents (getText tabDoc) tabDoc = Some comps
    /\ findFilesImportingFromCached loneEnv tabDoc
         (setDiagnostics (delete (uriKey (uri tabDoc))) initialState)
       = Some ([], stA)
    /\ ~ (diagnosed st' tabDoc (lit "Box")
          <-> In (lit "Box") (name <$> comps)
              /\ ~ usedSomewhere loneEnv tabDoc stA [] (lit "Box")).
Proof.
  eexists _, _, _. split; [vm_compute; reflexivity |].
  split; [vm_compute; reflexivity |].
  split; [vm_compute; reflexivity |].
  intros [_ H]. destruct H as [d [Hd _]].
  - split; [by left |]. by intros (f & used & [] & _).
  - vm_compute in Hd. done.
Qed.

Lemma isStyledComponentFile_export text :
  isStyledComponentFile text = true -> includes text (lit "export") = true.
Proof.
  unfold isStyledComponentFile.
  destruct (includes text (lit "styled.")); simpl; [| done].
  destruct (includes text (lit "export {")) eqn:E1.
  - intros _. by apply (includes_app_l text (lit "export") (lit " {")).
  - destruct (includes text (lit "export const")) eqn:E2; simpl; [| done].
    intros _. by apply (includes_app_l text (lit "export") (lit " const")).
Qed.

(** C3, as the code has it. For every JavaScript or TypeScript document
    whose text has no [export], a check sets no diagnostics and clears the
    ones the document had: the state after it is the state before with the
    document's entry deleted. *)
Theorem check_without_export (env : Env) (document : Document) (st : State) :
  isJsOrTsFile document = true ->
  includes (getText document) (lit "export") = false ->
  checkDocument env document st
  = Some (tt, setDiagnostics (delete (uriKey (uri document))) st)
  /\ diagnosticsOf (setDiagnostics (delete (uriKey (uri document))) st) document
     = [].
Proof.
  intros Hjs Hex. split; [| apply diagnosticsOf_deleted].
  apply checkDocument_rejected; [done |].
  destruct (isStyledComponentFile (getText document)) eqn:E; [| done].
  apply isStyledComponentFile_export in E. congruence.
Qed.

Lemma check_without_export_witness :
  isJsOrTsFile (mkDoc "/w/Box.tsx" "typescript" "const Box = 1") = true
  /\ includes (getText (mkDoc "/w/Box.tsx" "typescript" "const Box = 1"))
       (lit "export") = false
  /\ checkDocument loneEnv (mkDoc "/w/Box.tsx" "typescript" "const Box = 1")
       boxChecked
     = Some (tt, setDiagnostics (delete (lit "file:///w/Box.tsx")) boxChecked).
Proof.
  split; [reflexivity |]. split; [reflexivity |].
  apply (check_without_export loneEnv
           (mkDoc "/w/Box.tsx" "typescript" "const Box = 1") boxChecked);
    reflexivity.
Defined.

(** C3, as stated, fails for a document that is not JavaScript or
    TypeScript: the check returns at its language guard, and the warning
    the file got while it was a TypeScript document stays. *)
Lemma check_without_export_needs_language :
  includes (getText plainDoc) (lit "export") = false
  /\ exists s1 s2,
       checkDocument loneEnv oneSpaceDoc initialState = Some (tt, s1)
       /\ checkDocument loneEnv plainDoc s1 = Some (tt, s2)
       /\ messagesOf s2 plainDoc = [unusedMessage (lit "Box")].
Proof.
  split; [reflexivity |]. eexists _, _.
  split; [vm_compute; reflexivity |].
  split; [vm_compute; reflexivity |]. vm_compute. reflexivity.
Qed.

(** C10. With a tab or two spaces between [export] and [const], the
    extractor's pattern matches the declaration and [getExportedComponents]
    yields [Box], but the pre-filter, which looks for the literal
    [export const], rejects the text: whatever the workspace and the state,
    the check leaves the document without diagnostics. With one space the
    same declaration is diagnosed. *)
Theorem prefilter_rejects_matched_export :
  (test directExportRegex (getText tabDoc) = true
   /\ exportedNames tabDoc = Some [lit "Box"]
   /\ isStyledComponentFile (getText tabDoc) = false
   /\ forall env st, exists st',
        checkDocument env tabDoc st = Some (tt, st')
        /\ diagnosticsOf st' tabDoc = [])
  /\ (test directExportRegex (getText twoSpaceDoc) = true
      /\ exportedNames twoSpaceDoc = Some [lit "Box"]
      /\ isStyledComponentFile (getText twoSpaceDoc) = false
      /\ forall env st, exists st',
           checkDocument env twoSpaceDoc st = Some (tt, st')
           /\ diagnosticsOf st' twoSpaceDoc = [])
  /\ exists st',
       checkDocument loneEnv oneSpaceDoc initialState = Some (tt, st')
       /\ messagesOf st' oneSpaceDoc = [unusedMessage (lit "Box")].
Proof.
  split; [| split].
  - split; [vm_compute; reflexivity |]. split; [vm_compute; reflexivity |].
    split; [vm_compute; reflexivity |]. intros env st. eexists. split.
    + apply checkDocument_rejected; vm_compute; reflexivity.
    + apply diagnosticsOf_deleted.
  - split; [vm_compute; reflexivity |]. split; [vm_compute; reflexivity |].
    split; [vm_compute; reflexivity |]. intros env st. eexists. split.
    + apply checkDocument_rejected; vm_compute; reflexivity.
    + apply diagnosticsOf_deleted.
  - eexists. split; [vm_compute; reflexivity | vm_compute; reflexivity].
Qed.

(** ** Checking twice *)

Lemma usageOfImporters_total env document : forall l acc st,
  (forall f, In f l -> is_Some (usageView env document st f)) ->
  is_Some (usageOfImporters env document l acc st).
Proof.
  induction l as [|f l IH]; intros acc st Hall; simpl; [done |].
  unfold bind at 1.
  destruct (Hall f (or_introl eq_refl)) as [r Hr].
  unfold usageView in Hr.
  destruct (getUsedComponentsFromFileCached env f document st)
    as [[r' st1]|] eqn:Hf; [| done].
  apply getUsed_spec in Hf as [_ [Hviews _]].
  apply IH. intros g Hg. rewrite Hviews. apply Hall. by right.
Qed.

Lemma checkStyled_run env document text st comps l stA :
  getExportedComponents text document = Some comps ->
  findFilesImportingFromCached env document st = Some (l, stA) ->
  (forall f, In f l -> is_Some (usageView env document stA f)) ->
  exists st',
    checkStyledComponentFile env document text st = Some (tt, st')
    /\ diagnosticsOf st' document
       = unusedDiagnostic
           <$> filter (fun c => negb (isUsed
                          (foldl (gather env document stA) ∅ l) c)) comps.
Proof.
  intros Hc Hl Hall.
  destruct (usageOfImporters_total env document l ∅ stA Hall) as [[U stB] HU].
  assert (HU' := HU). apply usageOfImporters_spec in HU' as [-> _].
  unfold checkStyledComponentFile, bind, liftOpt, modify.
  rewrite Hc, Hl, HU. eexists. split; [done |].
  unfold diagnosticsOf. simpl. by rewrite lookup_insert_eq.
Qed.

(** Once the list of importers has been asked for, asking again in a state
    with the same importer cache answers the same list and changes
    nothing. *)
Lemma findFiles_again env document st l stA s' :
  findFilesImportingFromCached env document st = Some (l, stA) ->
  importingFilesCache s' = importingFilesCache stA ->
  findFilesImportingFromCached env document s' = Some (l, s').
Proof.
  unfold findFilesImportingFromCached, bind, gets, modify, ret.
  intros H Hs'. rewrite Hs'. revert H.
  destruct (importingFilesCache st !! uriKey (uri document)) as [files|] eqn:Hc.
  { intros [= <- <-]. by rewrite Hc. }
  destruct (workspaceFolders env) as [folders|].
  - destruct (forM folders _ st) as [[l1 s1]|]; [| done].
    intros [= <- <-]. simpl. by rewrite lookup_insert_eq.
  - intros [= <- <-]. by rewrite Hc.
Qed.

(** C7. A check that returns can be repeated: with the document and the
    workspace as they were, the second check returns too and shows the
    same diagnostics, with the same ranges and messages. *)
Theorem check_twice (env : Env) (document : Document) (st st1 : State) :
  checkDocument env document st = Some (tt, st1) ->
  exists st2,
    checkDocument env document st1 = Some (tt, st2)
    /\ diagnosticsOf st2 document = diagnosticsOf st1 document.
Proof.
  intros H1.
  destruct (isJsOrTsFile document) eqn:Hjs.
  2: { rewrite checkDocument_other in H1 by done. injection H1 as <-.
       exists st. by rewrite checkDocument_other. }
  destruct (isStyledComponentFile (getText document)) eqn:Hpre.
  2: { rewrite checkDocument_rejected in H1 by done. injection H1 as <-.
       eexists. split; [by apply checkDocument_rejected |].
       by rewrite !diagnosticsOf_deleted. }
  rewrite checkDocument_styled in H1 by done.
  apply checkStyled_spec in H1
    as (comps & l & stA & Hc & Hl & Hall & Hviews & Hi & Hd).
  rewrite checkDocument_styled by done.
  set (s' := setDiagnostics (delete (uriKey (uri document))) st1).
  assert (forall u, usageView env document s' u = usageView env document stA u)
    as Hv.
  { intros u. unfold s'. by rewrite usageView_setDiagnostics. }
  destruct (checkStyled_run env document (getText document) s' comps l s')
    as [st2 [Hrun Hd2]]; [done | | |].
  - eapply findFiles_again; [exact Hl | done].
  - intros f Hf. rewrite Hv. by apply Hall.
  - exists st2. split; [done |]. rewrite Hd2, Hd. f_equal.
    assert (foldl (gather env document s') ∅ l
            = foldl (gather env document stA) ∅ l) as ->; [| done].
    apply foldl_pointwise. intros a f. unfold gather. by rewrite Hv.
Qed.

Lemma check_twice_witness :
  checkDocument boxEnv boxDoc initialState = Some (tt, boxChecked)
  /\ exists st2,
       checkDocument boxEnv boxDoc boxChecked = Some (tt, st2)
       /\ diagnosticsOf st2 boxDoc = diagnosticsOf boxChecked boxDoc.
Proof.
  assert (checkDocument boxEnv boxDoc initialState = Some (tt, boxChecked))
    as H by (vm_compute; reflexivity).
  split; [exact H |].
  exact (check_twice boxEnv boxDoc initialState boxChecked H).
Defined.

(** ** Read failures and invalidation *)

Lemma readView_no_entry env st u :
  fileContentCache st !! uriKey u = None ->
  readView env st u = onDisk env (fsPath u).
Proof.
  intros H. unfold readView, readFileWithCache, onDisk.
  destruct (statSync (disk env) (fsPath u)); [| done]. simpl. rewrite H.
  by destruct (readFileSync (disk env) (fsPath u)).
Qed.




(** C4, as the code has it. [invalidateCachesForFile], which runs when a
    file is saved or the check command is run on it, drops every
    used-symbol set cached for that file as an importer: the next query for
    a pair with it scans the content the disk holds. Invalidating another
    file, the source file of the pair included, leaves the pair's entry in
    place, and so does an edit that is not saved. *)
Theorem usage_invalidated_with_importer (env : Env) (document : Document)
    (importer : Uri) (st : State) :
  cachedUsage (invalidateCachesForFile importer st) document importer = None
  /\ usageView env document (invalidateCachesForFile importer st) importer
     = rescanned env document importer
  /\ (forall other, other <> importer ->
        cachedUsage (invalidateCachesForFile other st) document importer
        = cachedUsage st document importer)
  /\ (forall edited,
        cachedUsage (stateAfter (onDidChangeTextDocument edited) st)
          document importer
        = cachedUsage st document importer).
Proof.
  assert (cachedUsage (invalidateCachesForFile importer st) document importer
          = None) as Hc.
  { unfold cachedUsage. simpl. by rewrite lookup_delete_eq. }
  split; [done |]. split; [| split].
  - rewrite usageView_eq, Hc, readView_no_entry; [done |].
    rewrite content_invalidate. apply lookup_delete_eq.
  - intros other Hne. unfold cachedUsage. simpl.
    rewrite lookup_delete_ne; [done |]. intros E. by apply uriKey_inj in E.
  - done.
Qed.

Lemma usage_invalidated_with_importer_witness :
  uri boxDoc <> pageUri
  /\ cachedUsage (invalidateCachesForFile (uri boxDoc) boxChecked) boxDoc pageUri
     = cachedUsage boxChecked boxDoc pageUri
  /\ usageView changedEnv boxDoc (invalidateCachesForFile pageUri boxChecked)
       pageUri
     = Some (Some [lit "Frame"; lit "Box"]).
Proof.
  destruct (usage_invalidated_with_importer changedEnv boxDoc pageUri boxChecked)
    as [_ [H2 [H3 _]]].
  assert (uri boxDoc <> pageUri) as Hne
    by (intros H; vm_compute in H; discriminate H).
  split; [exact Hne |]. split.
  - apply H3. exact Hne.
  - rewrite H2. vm_compute; reflexivity.
Defined.

(** C4, as stated, fails for a change of the source file: after both files
    changed on disk and [Box.tsx] is saved, the set cached for the pair of
    [Page.tsx] and [Box.tsx] is still there, the next query answers with
    it although a scan of [Page.tsx] now gives another set, and the check
    the save triggers warns about [Frame], which [Page.tsx] uses. *)
Lemma usage_survives_source_save :
  cachedUsage (stateAfter (onDidSaveTextDocument changedEnv boxDoc) boxChecked)
    boxDoc pageUri = Some [lit "Box"]
  /\ usageView changedEnv boxDoc
       (stateAfter (onDidSaveTextDocument changedEnv boxDoc) boxChecked) pageUri
     = Some (Some [lit "Box"])
  /\ rescanned changedEnv boxDoc pageUri = Some (Some [lit "Frame"; lit "Box"])
  /\ messagesOf (stateAfter (onDidSaveTextDocument changedEnv boxDoc) boxChecked)
       boxDoc = [unusedMessage (lit "Frame")].
Proof. repeat split; vm_compute; reflexivity. Qed.

(** ** The usage scan *)

Lemma Matches_star_set s g neg items i j :
  Matches s (RStar g (RSet neg items)) i j ->
  i <= j /\ (i <= length s -> j <= length s)
  /\ forall k, i <= k < j ->
       exists c, s !! k = Some c /\ xorb neg (existsb (inCls c) items) = true.
Proof.
  remember (RStar g (RSet neg items)) as r eqn:Er.
  induction 1; try discriminate.
  - split; [lia |]. split; [done |]. intros k Hk. lia.
  - injection Er as -> ->.
    apply Matches_set in H as [c [Hc [Hp ->]]].
    destruct (IHMatches2 eq_refl) as [Hle [Hb Hall]].
    split; [lia |]. split; [apply lookup_lt_Some in Hc; lia |].
    intros k' Hk'. destruct (decide (k' = i)) as [-> | Hne]; [by exists c |].
    apply Hall. lia.
Qed.

Lemma Matches_plus_set s g neg items i j :
  Matches s (RPlus g (RSet neg items)) i j ->
  i < j <= length s
  /\ forall k, i <= k < j ->
       exists c, s !! k = Some c /\ xorb neg (existsb (inCls c) items) = true.
Proof.
  intros H. apply Matches_plus in H as [k [Ha Hs]].
  apply Matches_set in Ha as [c [Hc [Hp ->]]].
  apply Matches_star_set in Hs as [Hle [Hb Hall]].
  assert (i < length s) by (by apply lookup_lt_Some in Hc).
  split; [lia |]. intros k' Hk'.
  destruct (decide (k' = i)) as [-> | Hne]; [by exists c |]. apply Hall. lia.
Qed.

Lemma Matches_plus_word s g i j :
  Matches s (RPlus g rword) i j ->
  i < j <= length s /\ forall k, i <= k < j -> isWordAt s k = true.
Proof.
  intros H. apply Matches_plus_set in H as [Hij Hall]. split; [done |].
  intros k Hk. destruct (Hall k Hk) as [c [Hc Hp]].
  unfold isWordAt. rewrite Hc. simpl in Hp. by rewrite orb_false_r in Hp.
Qed.

(** The span before the trailing group of the usage expression ends at a
    point that starts a word run. *)
Lemma usage_prefix_boundary s i a b :
  Matches s (RAlt (RChar 60) RWordB) i a ->
  Matches s (RPlus true rword) a b ->
  a = 0 \/ isWordAt s (a - 1) = false.
Proof.
  intros Hp Hw. apply Matches_plus_word in Hw as [Hab Hall].
  apply Matches_alt in Hp as [Hp | Hp].
  - apply Matches_char in Hp as [Hc ->]. right.
    replace (S i - 1) with i by lia. unfold isWordAt. by rewrite Hc.
  - apply Matches_wordb in Hp as [Hb ->].
    destruct i as [|i']; [by left |]. right.
    replace (S i' - 1) with i' by lia.
    unfold atWordBoundary in Hb. rewrite (Hall (S i')) in Hb by lia.
    by destruct (isWordAt s i').
Qed.

Lemma group_of_caps s m n a b :
  groups m !! n = Some (Some (a, b)) -> group s m n = Some (slice s a b).
Proof. unfold group. by intros ->. Qed.

Lemma slice_length s a b : b <= length s -> length (slice s a b) = b - a.
Proof. intros H. unfold slice. rewrite length_take, length_drop. lia. Qed.

Lemma slice_lookup s a b k :
  a + k < b -> b <= length s -> slice s a b !! k = s !! (a + k).
Proof.
  intros Hk Hb. unfold slice.
  rewrite lookup_take_lt by lia. by rewrite lookup_drop.
Qed.

(** What [potentialComp] holds for a match of the bare usage expression. *)
Lemma bareUsage_token s n st st' :
  pos st <= length s -> n < length (caps st) ->
  In st' (rmatch s (bareUsage n) st) ->
  exists a b, caps st' !! n = Some (Some (a, b)) /\ wordRun s a b
              /\ (forall k, k <> n -> caps st' !! k = caps st !! k).
Proof.
  intros Hst Hn H. unfold bareUsage, rcat in H. cbn [foldr] in H.
  change (rmatch s (RSeq ?x ?y) st) with (flat_map (rmatch s y) (rmatch s x st)) in H.
  apply in_flat_map in H as [x [Hx H]].
  change (rmatch s (RSeq ?p ?q) x) with (flat_map (rmatch s q) (rmatch s p x)) in H.
  apply in_flat_map in H as [y [Hy H]].
  destruct H as [<- | []].
  assert (Matches s (RAlt (RChar 60) RWordB) (pos st) (pos x)) as Hpre.
  { apply rmatch_Matches; [done | by exists x]. }
  assert (pos x <= length s) as Hxs by (by eapply Matches_bound).
  assert (length (caps x) = length (caps st)) as Hlen
    by (by eapply rmatch_caps_length).
  assert (forall k, caps x !! k = caps st !! k) as Hfr.
  { intros k. eapply rmatch_caps_frame; [| exact Hx]. simpl. tauto. }
  pose proof Hy as Hy'.
  apply rmatch_group in Hy as [e [Hcap [He HM]]]; [| done | lia].
  exists (pos x), e. split; [done |]. split.
  - destruct (Matches_plus_word _ _ _ _ HM) as [Hab Hall].
    split; [done |]. split; [done |]. by eapply usage_prefix_boundary.
  - intros k Hk. rewrite <- Hfr.
    change (rmatch s (RGroup n ?r) x)
      with (map (fun z => setCap n (pos x) (pos z) z) (rmatch s r x)) in Hy'.
    apply in_map_iff in Hy' as [z [<- Hz]]. simpl.
    rewrite list_lookup_insert_ne by done.
    eapply rmatch_caps_frame; [| exact Hz]. simpl. tauto.
Qed.

Lemma groupsOf_rlit w : groupsOf (rlit w) = [].
Proof. induction w as [|c w IH]; [done |]. exact IH. Qed.

Lemma maxGroup_rlit w : maxGroup (rlit w) = 0.
Proof. induction w as [|c w IH]; [done |]. exact IH. Qed.

Lemma minLen_rlit w : minLen (rlit w) = length w.
Proof.
  induction w as [|c w IH]; [done |].
  change (minLen (rlit (c :: w))) with (1 + minLen (rlit w)). by rewrite IH.
Qed.

Lemma rmatch_seq s a b st st' :
  In st' (rmatch s (RSeq a b) st) <->
  exists x, In x (rmatch s a st) /\ In st' (rmatch s b x).
Proof. cbn [rmatch]. apply in_flat_map. Qed.

Lemma aliasUsage_token s alias st st' :
  pos st <= length s -> 1 < length (caps st) ->
  In st' (rmatch s (rcat [RAlt (RChar 60) RWordB; rlit alias; RChar 46;
                          RGroup 1 (RPlus true rword)]) st) ->
  exists a b, caps st' !! 1 = Some (Some (a, b)) /\ wordRun s a b.
Proof.
  intros Hst Hn H. unfold rcat in H. cbn [foldr] in H.
  apply rmatch_seq in H as [x [Hx H]].
  apply rmatch_seq in H as [y [Hy H]].
  apply rmatch_seq in H as [z [Hz H]].
  apply rmatch_seq in H as [w [Hw H]].
  destruct H as [<- | []].
  assert (Hx' := proj1 (rmatch_Matches s _ st (pos x) Hst)
                   (ex_intro _ x (conj Hx eq_refl))).
  assert (pos x <= length s) as Hxs by (by eapply Matches_bound).
  assert (Hy' := proj1 (rmatch_Matches s _ x (pos y) Hxs)
                   (ex_intro _ y (conj Hy eq_refl))).
  assert (pos y <= length s) as Hys by (by eapply Matches_bound).
  assert (Hz' := proj1 (rmatch_Matches s _ y (pos z) Hys)
                   (ex_intro _ z (conj Hz eq_refl))).
  assert (pos z <= length s) as Hzs by (by eapply Matches_bound).
  apply Matches_char in Hz' as [Hdot Hpz].
  assert (length (caps z) = length (caps st)) as Hlen.
  { rewrite (rmatch_caps_length _ _ _ _ Hz), (rmatch_caps_length _ _ _ _ Hy).
    by eapply rmatch_caps_length. }
  apply rmatch_group in Hw as [e [Hcap [He HM]]]; [| done | lia].
  exists (pos z), e. split; [done |].
  destruct (Matches_plus_word _ _ _ _ HM) as [Hab Hall].
  split; [done |]. split; [done |]. right.
  rewrite Hpz. replace (S (pos y) - 1) with (pos y) by lia.
  unfold isWordAt. by rewrite Hdot.
Qed.

Lemma slice_cons s a b :
  a < b <= length s -> exists c cs, slice s a b = c :: cs /\ s !! a = Some c.
Proof.
  intros H. destruct (slice s a b) as [|c cs] eqn:E.
  - apply (f_equal length) in E. rewrite slice_length in E by lia.
    simpl in E. lia.
  - exists c, cs. split; [done |].
    assert (slice s a b !! 0 = Some c) as H0 by (by rewrite E).
    rewrite slice_lookup in H0 by lia. by rewrite Nat.add_0_r in H0.
Qed.

Lemma usage_match_token s alias i m :
  i <= length s -> matchAt (usageRegex alias) s i = Some m ->
  exists a b, potentialComp s m = Some (slice s a b) /\ wordRun s a b.
Proof.
  intros Hi H. apply matchAt_Some in H as [_ [st' [Hin [_ Hcaps]]]].
  unfold potentialComp.
  assert (forall a b, wordRun s a b ->
            groups m !! 1 = Some (Some (a, b)) ->
            exists a b,
              match group s m 1 with
              | Some (c :: cs) => Some (c :: cs)
              | _ => group s m 2
              end = Some (slice s a b) /\ wordRun s a b) as Hone.
  { intros a b Hw Hg. exists a, b. split; [| done].
    rewrite (group_of_caps _ _ _ _ _ Hg).
    destruct Hw as [Hab _]. by destruct (slice_cons s a b Hab) as [c [cs [-> _]]]. }
  destruct alias as [[|c cs]|].
  - apply bareUsage_token in Hin as [a [b [Hc [Hw _]]]]; [| done | simpl; lia].
    rewrite Hcaps in Hc. by eapply Hone.
  - change (usageRegex (Some (c :: cs))) with
      (RAlt (rcat [RAlt (RChar 60) RWordB; rlit (c :: cs); RChar 46;
                   RGroup 1 (RPlus true rword)]) (bareUsage 2)) in Hin.
    cbn [rmatch] in Hin. apply in_app_iff in Hin as [Hin | Hin].
    + apply aliasUsage_token in Hin as [a [b [Hc Hw]]];
        [| done | simpl; rewrite length_replicate; lia].
      rewrite Hcaps in Hc. by eapply Hone.
    + apply bareUsage_token in Hin as [a [b [Hc [Hw Hfr]]]];
        [| done | simpl; rewrite length_replicate; lia].
      rewrite Hcaps in Hc, Hfr. exists a, b. split; [| done].
      assert (group s m 1 = None) as ->.
      { unfold group. rewrite (Hfr 1) by lia. cbn [caps].
        destruct (replicate _ _ !! 1) as [[[x y]|]|] eqn:E; try done.
        by apply lookup_replicate in E as [E _]. }
      by apply group_of_caps.
  - apply bareUsage_token in Hin as [a [b [Hc [Hw _]]]]; [| done | simpl; lia].
    rewrite Hcaps in Hc. by eapply Hone.
Qed.

Lemma setAdd_elem x y s : x ∈ setAdd y s <-> x ∈ s \/ x = y.
Proof.
  unfold setAdd. destruct (setHas y s) eqn:E.
  - apply setHas_spec in E. split; [by left | by intros [? | ->]].
  - rewrite elem_of_app, list_elem_of_singleton. tauto.
Qed.

Lemma addIfCapitalized_elem content : forall ms acc tok,
  tok ∈ foldl (addIfCapitalized content) acc ms ->
  tok ∈ acc
  \/ exists m c cs, In m ms /\ potentialComp content m = Some (c :: cs)
                    /\ tok = c :: cs /\ c = toUpperCase1 c.
Proof.
  induction ms as [|m ms IH]; intros acc tok; simpl; [by left |].
  intros H. apply IH in H as [H | (m' & c & cs & Hm & Hp & Ht & Hu)].
  - unfold addIfCapitalized in H.
    destruct (potentialComp content m) as [[|c cs]|] eqn:Hp; auto.
    destruct (N.eqb_spec c (toUpperCase1 c)) as [Hu|]; auto.
    apply setAdd_elem in H as [H | ->]; [by left |].
    right. exists m, c, cs. auto.
  - right. exists m', c, cs. auto.
Qed.

Lemma toUpperCase1_fixed c : c = toUpperCase1 c -> isLowerCase c = false.
Proof.
  unfold toUpperCase1, isLowerCase, inRange.
  destruct (97 <=? c)%N eqn:E1; [| done].
  destruct (c <=? 122)%N eqn:E2; [| done]. simpl.
  apply N.leb_le in E1. lia.
Qed.

Lemma minLen_usageRegex alias : 0 < minLen (usageRegex alias).
Proof.
  destruct alias as [[|c cs]|]; simpl; lia.
Qed.

Lemma usedComponentsOf_total content styleFileName :
  is_Some (patternOf styleFileName) ->
  is_Some (usedComponentsOf content styleFileName).
Proof.
  intros [p Hp]. unfold usedComponentsOf.
  destruct (namespaceImportRegex styleFileName) as [nsRe|] eqn:E.
  - destruct (execAll_total (usageRegex (namespaceAliasOf nsRe content))
                content (minLen_usageRegex _)) as [ms ->].
    done.
  - unfold namespaceImportRegex in E. by rewrite Hp in E.
Qed.

(** A token of a used-symbol set is the group of a match of the usage
    expression: a word run of the content whose first unit is its own
    capital. *)
Lemma used_token_shape (content styleFileName : jsstring)
    (used : list jsstring) (tok : jsstring) :
  usedComponentsOf content styleFileName = Some used ->
  tok ∈ used ->
  exists a b c,
    tok = slice content a b /\ wordRun content a b
    /\ content !! a = Some c /\ c = toUpperCase1 c.
Proof.
  unfold usedComponentsOf.
  destruct (namespaceImportRegex styleFileName) as [nsRe|]; [| done].
  destruct (execAll _ content) as [ms|] eqn:Hms; [| done].
  simpl. intros [= <-] Hin.
  apply addIfCapitalized_elem in Hin
    as [Hin | (m & c & cs & Hm & Hp & -> & Hu)]; [by apply elem_of_nil in Hin |].
  destruct (execAll_In _ _ _ _ Hms Hm) as [from Hex].
  apply exec_Some in Hex as [Hi [Hat _]].
  apply usage_match_token in Hat as [a [b [Hp' Hw]]]; [| lia].
  rewrite Hp in Hp'. injection Hp' as Htok.
  destruct (slice_cons content a b (proj1 Hw)) as [c' [cs' [Hs Hc]]].
  rewrite Hs in Htok. injection Htok as -> ->.
  exists a, b, c'. by rewrite Hs.
Qed.

(** C2, as the code has it. A token is in the used-symbol set only if it
    stands in the importing file's content as a run of [[A-Za-z0-9_]] that
    starts the content or follows a unit outside that class, whatever comes
    after the run, and its first unit is not a lowercase letter. *)
Theorem used_tokens_are_word_runs (content styleFileName : jsstring)
    (used : list jsstring) (tok : jsstring) :
  usedComponentsOf content styleFileName = Some used ->
  tok ∈ used ->
  exists a b c,
    tok = slice content a b /\ wordRun content a b
    /\ content !! a = Some c /\ isLowerCase c = false.
Proof.
  intros Hused Hin.
  destruct (used_token_shape content styleFileName used tok Hused Hin)
    as (a & b & c & Htok & Hrun & Hc & Hup).
  exists a, b, c.
  split; [exact Htok |]. split; [exact Hrun |]. split; [exact Hc |].
  unfold isLowerCase. unfold toUpperCase1 in Hup.
  destruct (inRange 97 122 c) eqn:E; [| reflexivity].
  unfold inRange in E. apply andb_true_iff in E as [E1 _].
  apply N.leb_le in E1. lia.
Qed.

Lemma used_tokens_are_word_runs_witness :
  usedComponentsOf importOnly (lit "Button") = Some [lit "Button"]
  /\ lit "Button" ∈ [lit "Button"]
  /\ exists a b c,
       lit "Button" = slice importOnly a b /\ wordRun importOnly a b
       /\ importOnly !! a = Some c /\ isLowerCase c = false.
Proof.
  assert (usedComponentsOf importOnly (lit "Button") = Some [lit "Button"])
    as H1 by (vm_compute; reflexivity).
  assert (lit "Button" ∈ [lit "Button"]) as H2 by constructor.
  split; [exact H1 |]. split; [exact H2 |].
  exact (used_tokens_are_word_runs importOnly (lit "Button")
           [lit "Button"] (lit "Button") H1 H2).
Defined.

(** C2, as stated, fails: [Button] is in the used-symbol set of a file that
    only imports it, where it is followed by a space and by a quote, never
    by a parenthesis or a brace, never preceded by an angle bracket, and
    where no namespace alias exists. *)
Lemma used_token_without_usage_shape :
  usedComponentsOf importOnly (lit "Button") = Some [lit "Button"]
  /\ includes importOnly (lit "Button" ++ lit "(") = false
  /\ includes importOnly (lit "<" ++ lit "Button") = false
  /\ includes importOnly (lit "Button" ++ lit "{") = false
  /\ option_map (fun nsRe => namespaceAliasOf nsRe importOnly)
       (namespaceImportRegex (lit "Button")) = Some None.
Proof. repeat split; vm_compute; reflexivity. Qed.

(** ** Pieces of strings *)





(** ** Literal patterns *)

Lemma Matches_rlit s w : forall i j,
  Matches s (rlit w) i j <->
  j = i + length w /\ forall k, k < length w -> s !! (i + k) = w !! k.
Proof.
  induction w as [|c w IH]; intros i j.
  - change (rlit []) with REmpty. rewrite Matches_empty. simpl.
    split; [intros ->; split; [lia | intros k Hk; lia] | intros [-> _]; lia].
  - change (rlit (c :: w)) with (RSeq (RChar c) (rlit w)).
    rewrite Matches_seq. split.
    + intros [k [Hc Hw]]. apply Matches_char in Hc as [Hc ->].
      apply IH in Hw as [-> Hw]. simpl. split; [lia |].
      intros [|k] Hk; simpl.
      * by rewrite Nat.add_0_r.
      * replace (i + S k) with (S i + k) by lia. apply Hw. lia.
    + intros [-> Hall]. exists (S i). split.
      * apply Matches_char. split; [| done].
        specialize (Hall 0 ltac:(simpl; lia)). by rewrite Nat.add_0_r in Hall.
      * apply IH. split; [simpl; lia |]. intros k Hk.
        replace (S i + k) with (i + S k) by lia.
        apply (Hall (S k)). simpl. lia.
Qed.






Lemma take_add {A} (l : list A) n m :
  take (n + m) l = take n l ++ take m (drop n l).
Proof.
  revert l. induction n as [|n IH]; intros l; simpl; [done |].
  destruct l as [|x l]; simpl; [by rewrite take_nil | by rewrite IH].
Qed.

Lemma slice_split (s : jsstring) i j k :
  i <= j <= k -> slice s i k = slice s i j ++ slice s j k.
Proof.
  intros H. unfold slice.
  replace (k - i) with ((j - i) + (k - j)) by lia.
  rewrite take_add, drop_drop. do 3 f_equal. lia.
Qed.


(** ** The shape of a grouped export block *)

Lemma rmatch_step s r st st' :
  pos st <= length s -> In st' (rmatch s r st) ->
  Matches s r (pos st) (pos st') /\ pos st' <= length s
  /\ length (caps st') = length (caps st).
Proof.
  intros Hst Hin.
  assert (Matches s r (pos st) (pos st')) as HM
    by (apply rmatch_Matches; [done | by exists st']).
  split; [done |]. split; [by eapply Matches_bound |].
  by eapply rmatch_caps_length.
Qed.

Lemma namedExport_shape text i m :
  i <= length text -> matchAt namedExportRegex text i = Some m ->
  exists a b,
    groups m !! 1 = Some (Some (a, b))
    /\ i < a /\ a <= b /\ b < length text
    /\ text !! (a - 1) = Some 123%N /\ text !! b = Some 125%N
    /\ endIndex m = S b /\ index m = i.
Proof.
  intros Hi H. apply matchAt_Some in H as [Hidx [st' [Hin [Hend Hcaps]]]].
  unfold namedExportRegex, rcat in Hin. cbn [foldr] in Hin.
  apply rmatch_seq in Hin as [x1 [H1 Hin]].
  apply rmatch_seq in Hin as [x2 [H2 Hin]].
  apply rmatch_seq in Hin as [x3 [H3 Hin]].
  apply rmatch_seq in Hin as [x4 [H4 Hin]].
  apply rmatch_seq in Hin as [x5 [H5 Hin]].
  destruct Hin as [<- | []].
  apply rmatch_step in H1 as (M1 & B1 & L1); [| done]. simpl in M1, L1.
  apply rmatch_step in H2 as (M2 & B2 & L2); [| done].
  pose proof H3 as H3'. apply rmatch_step in H3' as (M3 & B3 & L3); [| done].
  pose proof H4 as H4'.
  apply rmatch_group in H4' as [e [Hcap [He M4]]];
    [| done | rewrite L3, L2, L1; simpl; lia].
  pose proof H4 as H4''. apply rmatch_step in H4'' as (_ & B4 & L4); [| done].
  pose proof H5 as H5'. apply rmatch_step in H5' as (M5 & B5 & L5); [| done].
  apply Matches_char in M3 as [Hopen Hp3].
  apply Matches_char in M5 as [Hclose Hp5].
  apply Matches_le in M1, M2.
  apply Matches_plus_set in M4 as [Hab _].
  exists (pos x3), (pos x4). subst e.
  split.
  { rewrite <- Hcaps, <- Hcap. eapply rmatch_caps_frame; [| exact H5].
    simpl. tauto. }
  rewrite Hp3. replace (S (pos x2) - 1) with (pos x2) by lia.
  apply lookup_lt_Some in Hclose as Hlt.
  repeat split; try done; try lia.
Qed.









(** ** Word tokens and the usage cache *)

Lemma wordRun_token (content : jsstring) a b :
  wordRun content a b -> isWordToken (slice content a b) = true.
Proof.
  intros [Hab [Hall _]]. unfold isWordToken. apply forallb_forall.
  intros c Hc. apply list_elem_of_In, list_elem_of_lookup in Hc as [k Hk].
  assert (k < b - a) as Hlt.
  { apply lookup_lt_Some in Hk. rewrite slice_length in Hk; lia. }
  rewrite slice_lookup in Hk by lia.
  specialize (Hall (a + k) ltac:(lia)). unfold isWordAt in Hall.
  by rewrite Hk in Hall.
Qed.

Lemma usedComponentsOf_words content styleFileName used tok :
  usedComponentsOf content styleFileName = Some used ->
  tok ∈ used -> isWordToken tok = true.
Proof.
  intros H Hin.
  destruct (used_token_shape _ _ _ _ H Hin)
    as (a & b & c & -> & Hw & _).
  by apply wordRun_token.
Qed.


Lemma usageWf_same s s' :
  componentUsageCache s' = componentUsageCache s -> usageWf s -> usageWf s'.
Proof. intros E H k inner base used tok. rewrite E. apply H. Qed.


Lemma getUsed_wf env document f st r st' :
  getUsedComponentsFromFileCached env f document st = Some (r, st') ->
  usageWf st -> usageWf st'.
Proof.
  unfold getUsedComponentsFromFileCached, bind, gets, total, liftOpt, modify, ret.
  destruct (componentUsageCache st !! uriKey f ≫= _) as [cached|].
  { by intros [= <- <-]. }
  pose proof (readFileWithCache_other_caches env f st) as [_ [Hu _]].
  destruct (readFileWithCache env f st) as [[[|c cs]|] s1]; simpl in *.
  - intros [= <- <-]. by apply usageWf_same.
  - destruct (usedComponentsOf (c :: cs) (styleBaseName document))
      as [computed|] eqn:Hc; [| done].
    intros [= <- <-] Hwf k inner base used tok. simpl. rewrite Hu.
    destruct (decide (k = uriKey f)) as [-> | Hne].
    + rewrite lookup_insert_eq. intros [= <-].
      destruct (decide (base = styleBaseName document)) as [-> | Hb].
      * rewrite lookup_insert_eq. intros [= <-].
        by eapply usedComponentsOf_words.
      * rewrite lookup_insert_ne by done.
        destruct (componentUsageCache st !! uriKey f) as [old|] eqn:Ho; simpl.
        -- by eapply Hwf.
        -- by rewrite lookup_empty.
    + rewrite lookup_insert_ne by done. by apply Hwf.
  - intros [= <- <-]. by apply usageWf_same.
Qed.

Lemma usageOfImporters_wf env document : forall l acc st U st',
  usageOfImporters env document l acc st = Some (U, st') ->
  usageWf st -> usageWf st'.
Proof.
  induction l as [|f l IH]; intros acc st U st'; simpl.
  - by intros [= <- <-].
  - unfold bind at 1.
    destruct (getUsedComponentsFromFileCached env f document st)
      as [[r s1]|] eqn:Hf; [| done].
    intros H Hwf. eapply IH; [exact H |]. by eapply getUsed_wf.
Qed.

(** A check keeps the usage cache well-formed. *)
Lemma checkDocument_wf env document st st' :
  checkDocument env document st = Some (tt, st') -> usageWf st -> usageWf st'.
Proof.
  unfold checkDocument, bind, modify, ret.
  destruct (isJsOrTsFile document); simpl; [| by intros [= <-]].
  destruct (isStyledComponentFile (getText document)); [| by intros [= <-]].
  unfold checkStyledComponentFile, bind, liftOpt, modify.
  destruct (getExportedComponents _ _) as [comps|]; [| done].
  destruct (findFilesImportingFromCached _ _ _) as [[l stA]|] eqn:Hl; [| done].
  destruct (usageOfImporters _ _ _ _ _) as [[U stB]|] eqn:HU; [| done].
  intros [= <-] Hwf.
  apply findFiles_caches in Hl as (_ & Hu & _).
  apply usageOfImporters_wf in HU; [done |].
  by apply (usageWf_same (setDiagnostics (delete (uriKey (uri document))) st)).
Qed.




(** ** The import index *)

















Lemma patternOf_plainName w :
  isPlainName w = true -> patternOf w = Some (rlit w).
Proof.
  induction w as [|c w IH]; simpl; [done |].
  rewrite andb_true_iff, negb_true_iff. intros [Hc Hw]. rewrite (IH Hw).
  assert (patternChar c = Some (RChar c)) as ->; [| done].
  unfold isSyntaxUnit in Hc. cbn [existsb] in Hc.
  apply orb_false_iff in Hc as [H1 Hc]. apply orb_false_iff in Hc as [H2 Hc].
  apply orb_false_iff in Hc as [H3 Hc].
  unfold patternChar. rewrite H1, H2, H3. cbn [existsb]. by rewrite Hc.
Qed.

Lemma spanIs_includes s i j w : spanIs s i j w -> includes s w = true.
Proof.
  intros [-> Hall]. apply includes_spec.
  exists (take i s), (drop (i + length w) s).
  assert (w = [] \/ i + length w <= length s) as Hlen.
  { destruct w as [|c w]; [by left |]. right.
    specialize (Hall (length w) ltac:(simpl; lia)).
    assert (is_Some ((c :: w) !! length w)) as [x Hx]
      by (apply lookup_lt_is_Some; simpl; lia).
    rewrite Hx in Hall. apply lookup_lt_Some in Hall. simpl. lia. }
  destruct Hlen as [-> | Hlen].
  { simpl. rewrite Nat.add_0_r. by rewrite take_drop. }
  rewrite <- (take_drop i s) at 1. f_equal.
  rewrite <- (take_drop (length w) (drop i s)) at 1.
  rewrite drop_drop. f_equal.
  apply list_eq. intros k. destruct (decide (k < length w)) as [Hk | Hk].
  - rewrite lookup_take_lt by done. rewrite lookup_drop. by apply Hall.
  - rewrite lookup_take_ge by lia. symmetry. apply lookup_ge_None. lia.
Qed.




Lemma findFiles_In folder u :
  In u (findFiles folder) <->
  exists f, In f folder /\ wsUri f = u
            /\ filePattern f = true /\ excludePattern f = false.
Proof.
  unfold findFiles. rewrite <- list_elem_of_In, list_elem_of_fmap. split.
  - intros [f [-> Hf]]. apply list_elem_of_filter in Hf as [Hp Hf].
    apply andb_True in Hp as [Hp Hx]. apply negb_True in Hx.
    exists f. split; [by apply list_elem_of_In |]. split; [done |].
    split; [by apply Is_true_true |].
    destruct (excludePattern f); [by destruct Hx | done].
  - intros (f & Hf & <- & Hp & Hx). exists f. split; [done |].
    apply list_elem_of_filter. split; [| by apply list_elem_of_In].
    by rewrite Hp, Hx.
Qed.




(** * Further properties of the program *)

(** ** The loops over a global expression end *)

(** X1. The three [while ((m = re.exec(text)) !== null)] loops of the
    program end on every input: each of their expressions consumes at
    least one unit, so [lastIndex] moves forward with every match. This
    holds for the usage expression whatever the alias. *)
Theorem exec_loops_end (text : jsstring) (namespaceAlias : option jsstring) :
  is_Some (execAll namedExportRegex text)
  /\ is_Some (execAll directExportRegex text)
  /\ is_Some (execAll (usageRegex namespaceAlias) text).
Proof.
  split; [| split].
  - apply execAll_total. simpl. lia.
  - apply execAll_total. simpl. lia.
  - apply execAll_total, minLen_usageRegex.
Qed.

(** ** The content store serves a file it has just read *)

(** X2. After a read that returned a content, a second read of the same
    file with the disk as it was returns the same content and performs a
    [statSync] only: no [readFileSync]. *)
Theorem second_read_is_served_from_cache (env : Env) (u : Uri) (st st1 : State)
    (c : jsstring) :
  readFileWithCache env u st = (Some c, st1) ->
  readFileWithCache env u st1 = (Some c, logOp (OpStat (fsPath u)) st1).
Proof.
  unfold readFileWithCache.
  destruct (statSync (disk env) (fsPath u)) as [mt|]; [| done].
  cbn [logOp fileContentCache].
  destruct (fileContentCache st !! uriKey u) as [cached|] eqn:Hc.
  - destruct (mtime cached =? mt)%N eqn:Hm.
    + intros [= <- <-]. simpl. by rewrite Hc, Hm.
    + destruct (readFileSync (disk env) (fsPath u)) as [c'|]; [| done].
      intros [= <- <-]. simpl. by rewrite lookup_insert_eq, N.eqb_refl.
  - destruct (readFileSync (disk env) (fsPath u)) as [c'|]; [| done].
    intros [= <- <-]. simpl. by rewrite lookup_insert_eq, N.eqb_refl.
Qed.

Lemma second_read_is_served_from_cache_witness :
  readFileWithCache storeEnv storeUri storeStale
  = (Some (lit "new"), (readFileWithCache storeEnv storeUri storeStale).2)
  /\ readFileWithCache storeEnv storeUri
       (readFileWithCache storeEnv storeUri storeStale).2
     = (Some (lit "new"),
        logOp (OpStat (fsPath storeUri))
          (readFileWithCache storeEnv storeUri storeStale).2).
Proof.
  assert (readFileWithCache storeEnv storeUri storeStale
          = (Some (lit "new"), (readFileWithCache storeEnv storeUri storeStale).2))
    as H by (vm_compute; reflexivity).
  split; [exact H |].
  exact (second_read_is_served_from_cache storeEnv storeUri storeStale _ _ H).
Defined.

(** ** Memoization *)

(** X3. Once the import index has answered for a source file, asking again
    returns the same list and changes no state, so nothing is stat-ed or
    read; when the first answer came from the cache or from a scan of the
    workspace folders, this holds whatever the disk and the workspace have
    become. *)
Theorem importers_are_memoized (env env' : Env) (document : Document)
    (st st1 : State) (l : list Uri) :
  findFilesImportingFromCached env document st = Some (l, st1) ->
  findFilesImportingFromCached env document st1 = Some (l, st1)
  /\ (is_Some (importingFilesCache st !! uriKey (uri document))
      \/ is_Some (workspaceFolders env) ->
      findFilesImportingFromCached env' document st1 = Some (l, st1)).
Proof.
  intros H. split; [by eapply findFiles_again |].
  revert H. unfold findFilesImportingFromCached, bind, gets, modify, ret.
  destruct (importingFilesCache st !! uriKey (uri document)) as [files|] eqn:Hc.
  - intros [= <- <-] _. by rewrite Hc.
  - destruct (workspaceFolders env) as [folders|].
    + destruct (forM folders _ st) as [[l1 s1]|]; [| done].
      intros [= <- <-] _. simpl. by rewrite lookup_insert_eq.
    + intros _ [[x Hx] | [x Hx]]; discriminate.
Qed.

Lemma importers_are_memoized_witness :
  findFilesImportingFromCached boxEnv boxDoc initialState
  = Some ([pageUri], boxScanned)
  /\ findFilesImportingFromCached goneEnv boxDoc boxScanned
     = Some ([pageUri], boxScanned).
Proof.
  assert (findFilesImportingFromCached boxEnv boxDoc initialState
          = Some ([pageUri], boxScanned)) as H by (vm_compute; reflexivity).
  split; [exact H |].
  apply (importers_are_memoized boxEnv goneEnv boxDoc initialState _ _ H).
  right. vm_compute. eexists. reflexivity.
Defined.

(** X4. Once the usage resolver has answered with a set for a pair, asking
    again returns the same set and changes no state: the importing file is
    neither stat-ed nor read, whatever the disk has become. *)
Theorem usage_is_memoized (env env' : Env) (document : Document) (f : Uri)
    (st st1 : State) (used : list jsstring) :
  getUsedComponentsFromFileCached env f document st = Some (Some used, st1) ->
  getUsedComponentsFromFileCached env' f document st1 = Some (Some used, st1).
Proof.
  unfold getUsedComponentsFromFileCached, bind, gets, total, liftOpt, modify, ret.
  fold (cachedUsage st document f). fold (cachedUsage st1 document f).
  destruct (cachedUsage st document f) as [cached|] eqn:Hc.
  - intros [= <- <-]. by rewrite Hc.
  - destruct (readFileWithCache env f st) as [[[|c cs]|] s1]; simpl; try done.
    destruct (usedComponentsOf (c :: cs) (styleBaseName document))
      as [computed|]; [| done].
    intros [= <- <-]. rewrite cachedUsage_insert.
    by destruct (decide (f = f)).
Qed.

Lemma usage_is_memoized_witness :
  getUsedComponentsFromFileCached boxEnv pageUri boxDoc initialState
  = Some (Some [lit "Box"], pageResolved)
  /\ getUsedComponentsFromFileCached goneEnv pageUri boxDoc pageResolved
     = Some (Some [lit "Box"], pageResolved).
Proof.
  assert (getUsedComponentsFromFileCached boxEnv pageUri boxDoc initialState
          = Some (Some [lit "Box"], pageResolved))
    as H by (vm_compute; reflexivity).
  split; [exact H |].
  exact (usage_is_memoized boxEnv goneEnv boxDoc pageUri initialState _ _ H).
Defined.

(** ** What a check leaves alone *)

(** X5. A check writes the diagnostics of the checked document only: the
    entry of every other document is after the check what it was
    before. *)
Theorem check_keeps_other_diagnostics (env : Env) (document : Document)
    (st st' : State) (k : jsstring) :
  checkDocument env document st = Some (tt, st') ->
  k <> uriKey (uri document) ->
  diagnosticCollection st' !! k = diagnosticCollection st !! k.
Proof.
  intros Hrun Hk.
  destruct (isJsOrTsFile document) eqn:Hjs.
  2: { rewrite checkDocument_other in Hrun by done. by injection Hrun as <-. }
  destruct (isStyledComponentFile (getText document)) eqn:Hpre.
  2: { rewrite checkDocument_rejected in Hrun by done. injection Hrun as <-.
       simpl. by rewrite lookup_delete_ne. }
  rewrite checkDocument_styled in Hrun by done. revert Hrun.
  unfold checkStyledComponentFile, bind, liftOpt, modify.
  destruct (getExportedComponents _ _) as [comps|]; [| done].
  destruct (findFilesImportingFromCached _ _ _) as [[l stA]|] eqn:Hl; [| done].
  destruct (usageOfImporters _ _ _ _ _) as [[U stB]|] eqn:HU; [| done].
  intros [= <-]. simpl. rewrite lookup_insert_ne by done.
  apply usageOfImporters_spec in HU as (_ & _ & _ & _ & ->).
  apply findFiles_caches in Hl as (-> & _). simpl.
  by rewrite lookup_delete_ne.
Qed.

Lemma check_keeps_other_diagnostics_witness :
  checkDocument aliasEnv aliasDoc boxChecked = Some (tt, aliasAfterBox)
  /\ uriKey (uri boxDoc) <> uriKey (uri aliasDoc)
  /\ diagnosticCollection aliasAfterBox !! uriKey (uri boxDoc)
     = diagnosticCollection boxChecked !! uriKey (uri boxDoc).
Proof.
  assert (checkDocument aliasEnv aliasDoc boxChecked = Some (tt, aliasAfterBox))
    as H by (vm_compute; reflexivity).
  assert (uriKey (uri boxDoc) <> uriKey (uri aliasDoc)) as Hne
    by (intros E; vm_compute in E; discriminate E).
  split; [exact H |]. split; [exact Hne |].
  exact (check_keeps_other_diagnostics aliasEnv aliasDoc boxChecked _ _ H Hne).
Defined.

(** ** Invariants of a session *)

Lemma usedComponentsOf_capitalized content styleFileName used tok :
  usedComponentsOf content styleFileName = Some used ->
  tok ∈ used -> isCapitalized tok = true.
Proof.
  intros H Hin.
  destruct (used_token_shape _ _ _ _ H Hin) as (a & b & c & -> & Hw & Hc & Hup).
  pose proof (wordRun_token _ _ _ Hw) as Hword.
  destruct (slice_cons content a b (proj1 Hw)) as (c' & cs & Hs & Hc').
  rewrite Hc in Hc'. injection Hc' as <-.
  rewrite Hs in *. unfold isCapitalized. rewrite Hword, andb_true_r.
  apply negb_true_iff. by apply toUpperCase1_fixed.
Qed.

Lemma usageCapitalized_same s s' :
  componentUsageCache s' = componentUsageCache s ->
  usageCapitalized s -> usageCapitalized s'.
Proof. intros E H k inner base used tok. rewrite E. apply H. Qed.

Lemma usageCapitalized_delete k s :
  usageCapitalized s -> usageCapitalized (setUsageCache (delete k) s).
Proof.
  intros H k' inner base used tok. simpl. intros Hk.
  apply lookup_delete_Some in Hk as [_ Hk].
  exact (H k' inner base used tok Hk).
Qed.

Lemma getUsed_capitalized env document f st r st' :
  getUsedComponentsFromFileCached env f document st = Some (r, st') ->
  usageCapitalized st -> usageCapitalized st'.
Proof.
  unfold getUsedComponentsFromFileCached, bind, gets, total, liftOpt, modify, ret.
  destruct (componentUsageCache st !! uriKey f ≫= _) as [cached|].
  { by intros [= <- <-]. }
  pose proof (readFileWithCache_other_caches env f st) as [_ [Hu _]].
  destruct (readFileWithCache env f st) as [[[|c cs]|] s1]; simpl in *.
  - intros [= <- <-]. by apply usageCapitalized_same.
  - destruct (usedComponentsOf (c :: cs) (styleBaseName document))
      as [computed|] eqn:Hc; [| done].
    intros [= <- <-] Hwf k inner base used tok. simpl. rewrite Hu.
    destruct (decide (k = uriKey f)) as [-> | Hne].
    + rewrite lookup_insert_eq. intros [= <-].
      destruct (decide (base = styleBaseName document)) as [-> | Hb].
      * rewrite lookup_insert_eq. intros [= <-].
        by eapply usedComponentsOf_capitalized.
      * rewrite lookup_insert_ne by done.
        destruct (componentUsageCache st !! uriKey f) as [old|] eqn:Ho; simpl.
        -- by eapply Hwf.
        -- by rewrite lookup_empty.
    + rewrite lookup_insert_ne by done. by apply Hwf.
  - intros [= <- <-]. by apply usageCapitalized_same.
Qed.

Lemma usageOfImporters_capitalized env document : forall l acc st U st',
  usageOfImporters env document l acc st = Some (U, st') ->
  usageCapitalized st -> usageCapitalized st'.
Proof.
  induction l as [|f l IH]; intros acc st U st'; simpl.
  - by intros [= <- <-].
  - unfold bind at 1.
    destruct (getUsedComponentsFromFileCached env f document st)
      as [[r s1]|] eqn:Hf; [| done].
    intros H Hwf. eapply IH; [exact H |]. by eapply getUsed_capitalized.
Qed.

Lemma checkDocument_capitalized env document st st' :
  checkDocument env document st = Some (tt, st') ->
  usageCapitalized st -> usageCapitalized st'.
Proof.
  unfold checkDocument, bind, modify, ret.
  destruct (isJsOrTsFile document); simpl; [| by intros [= <-]].
  destruct (isStyledComponentFile (getText document)); [| by intros [= <-]].
  unfold checkStyledComponentFile, bind, liftOpt, modify.
  destruct (getExportedComponents _ _) as [comps|]; [| done].
  destruct (findFilesImportingFromCached _ _ _) as [[l stA]|] eqn:Hl; [| done].
  destruct (usageOfImporters _ _ _ _ _) as [[U stB]|] eqn:HU; [| done].
  intros [= <-] Hwf.
  apply findFiles_caches in Hl as (_ & Hu & _).
  apply usageOfImporters_capitalized in HU; [done |].
  by apply (usageCapitalized_same
              (setDiagnostics (delete (uriKey (uri document))) st)).
Qed.

Lemma handle_capitalized env e st st' :
  handle env e st = Some (tt, st') ->
  usageCapitalized st -> usageCapitalized st'.
Proof.
  destruct e as [d | d | d | d | [d|] | [d|]]; simpl.
  - unfold scheduleCheck. destruct (negb (isJsOrTsFile d)).
    + by intros [= <-].
    + apply checkDocument_capitalized.
  - unfold onDidSaveTextDocument, bind, modify, scheduleCheck.
    destruct (negb (isJsOrTsFile d)).
    + intros [= <-] H. by apply (usageCapitalized_delete (uriKey (uri d))) in H.
    + intros Hrun H. eapply checkDocument_capitalized; [exact Hrun |].
      by apply (usageCapitalized_delete (uriKey (uri d))) in H.
  - intros [= <-]. by apply usageCapitalized_same.
  - apply checkDocument_capitalized.
  - unfold scheduleCheck. destruct (negb (isJsOrTsFile d)).
    + by intros [= <-].
    + apply checkDocument_capitalized.
  - by intros [= <-].
  - unfold bind, modify. intros Hrun H.
    eapply checkDocument_capitalized; [exact Hrun |].
    by apply (usageCapitalized_delete (uriKey (uri d))) in H.
  - by intros [= <-].
Qed.

(** X6. Whatever the events of a session and whatever the disk holds at
    each of them, every set in the usage cache holds capitalised
    identifiers only: non-empty runs of [[A-Za-z0-9_]] whose first unit is
    not a lowercase letter. *)
Theorem session_keeps_usage_capitalized (events : list (Env * Event))
    (st : State) :
  run events initialState = Some (tt, st) -> usageCapitalized st.
Proof.
  assert (forall evs s s', run evs s = Some (tt, s') ->
            usageCapitalized s -> usageCapitalized s') as Hrun.
  { induction evs as [|[env e] evs IH]; intros s s'; simpl.
    - by intros [= <-].
    - unfold bind at 1. destruct (handle env e s) as [[[] s1]|] eqn:He; [| done].
      intros H Hs. eapply IH; [exact H |]. by eapply handle_capitalized. }
  intros H. eapply Hrun; [exact H |].
  intros k inner base used tok Hk. simpl in Hk. by rewrite lookup_empty in Hk.
Qed.

Lemma session_keeps_usage_capitalized_witness :
  run [(boxEnv, EvOpen boxDoc); (changedEnv, EvSave boxDoc)] initialState
  = Some (tt, stateAfter (run [(boxEnv, EvOpen boxDoc);
                                (changedEnv, EvSave boxDoc)]) initialState)
  /\ usageCapitalized
       (stateAfter (run [(boxEnv, EvOpen boxDoc); (changedEnv, EvSave boxDoc)])
          initialState).
Proof.
  assert (run [(boxEnv, EvOpen boxDoc); (changedEnv, EvSave boxDoc)] initialState
          = Some (tt, stateAfter (run [(boxEnv, EvOpen boxDoc);
                                       (changedEnv, EvSave boxDoc)]) initialState))
    as H by (vm_compute; reflexivity).
  split; [exact H |].
  exact (session_keeps_usage_capitalized _ _ H).
Defined.

(** ** The checked document is never read from disk *)
















(** ** Every capitalised word of an importing file counts as a use *)

Lemma flat_map_singleton {A} (l : list A) : flat_map (fun x => [x]) l = l.
Proof. induction l as [|a l IH]; simpl; congruence. Qed.

Lemma rword_step s p c :
  rmatch s rword (clearCaps (groupsOf rword) (MState p c))
  = if isWordAt s p then [MState (S p) c] else [].
Proof.
  unfold rword. cbn [rmatch groupsOf].
  change (clearCaps [] (MState p c)) with (MState p c).
  unfold step1, isWordAt, advance. cbn [pos caps].
  destruct (s !! p) as [ch|]; [| done].
  cbn [existsb inCls]. rewrite orb_false_r. by destruct (isWordChar ch).
Qed.

Lemma wordLoop_head s c : forall fuel p,
  length s - p < fuel ->
  exists e rest,
    repeatLoop (fun x => rmatch s rword (clearCaps (groupsOf rword) x)) true
      fuel (MState p c)
    = MState e c :: rest
    /\ p <= e /\ (forall k, p <= k < e -> isWordAt s k = true)
    /\ isWordAt s e = false.
Proof.
  induction fuel as [|f IH]; intros p Hf; [lia |].
  cbn [repeatLoop]. rewrite rword_step.
  destruct (isWordAt s p) eqn:E.
  - cbn [flat_map pos]. rewrite app_nil_r.
    replace (S p =? p) with false by (symmetry; apply Nat.eqb_neq; lia).
    assert (p < length s) as Hp.
    { unfold isWordAt in E. destruct (s !! p) eqn:E'; [| done].
      by apply lookup_lt_Some in E'. }
    destruct (IH (S p) ltac:(lia)) as (e & rest & -> & Hle & Hall & Hend).
    exists e, (rest ++ [MState p c]). split; [done |]. split; [lia |].
    split; [| done]. intros k Hk.
    destruct (decide (k = p)) as [-> | Hne]; [done | apply Hall; lia].
  - exists p, []. split; [done |]. split; [lia |]. split; [| done]. lia.
Qed.

Lemma plusWord_head s p c :
  isWordAt s p = true ->
  exists e rest,
    rmatch s (RPlus true rword) (MState p c) = MState e c :: rest
    /\ p < e /\ (forall k, p <= k < e -> isWordAt s k = true)
    /\ isWordAt s e = false.
Proof.
  intros E. cbn [rmatch]. 
  change (rmatch s (RSet false [CWord]) ?x) with (rmatch s rword x).
  change (groupsOf (RSet false [CWord])) with (groupsOf rword).
  rewrite rword_step, E. cbn [flat_map pos]. rewrite app_nil_r.
  destruct (wordLoop_head s c (S (length s - S p)) (S p) ltac:(lia))
    as (e & rest & -> & Hle & Hall & Hend).
  exists e, rest. split; [done |]. split; [lia |]. split; [| done].
  intros k Hk. destruct (decide (k = p)) as [-> | Hne]; [done | apply Hall; lia].
Qed.

Lemma plusWord_nil s p c :
  isWordAt s p = false -> rmatch s (RPlus true rword) (MState p c) = [].
Proof.
  intros E. cbn [rmatch].
  change (rmatch s (RSet false [CWord]) ?x) with (rmatch s rword x).
  change (groupsOf (RSet false [CWord])) with (groupsOf rword).
  by rewrite rword_step, E.
Qed.

Lemma rmatch_RSeq s a b st :
  rmatch s (RSeq a b) st = flat_map (rmatch s b) (rmatch s a st).
Proof. done. Qed.

Lemma rmatch_RAlt s a b st :
  rmatch s (RAlt a b) st = rmatch s a st ++ rmatch s b st.
Proof. done. Qed.

Lemma rmatch_RGroup s n a st :
  rmatch s (RGroup n a) st
  = map (fun st' => setCap n (pos st) (pos st') st') (rmatch s a st).
Proof. done. Qed.

(** The captured word of a usage, tried at [q]: nothing where no word unit
    stands, and first of all the whole run of word units otherwise. *)
Lemma groupWord_nil s n q c :
  isWordAt s q = false ->
  rmatch s (RSeq (RGroup n (RPlus true rword)) REmpty) (MState q c) = [].
Proof.
  intros E. by rewrite rmatch_RSeq, rmatch_RGroup, plusWord_nil.
Qed.

Lemma groupWord_head s n q c :
  isWordAt s q = true ->
  exists e rest,
    rmatch s (RSeq (RGroup n (RPlus true rword)) REmpty) (MState q c)
    = MState e (<[n := Some (q, e)]> c) :: rest
    /\ q < e /\ (forall k, q <= k < e -> isWordAt s k = true)
    /\ isWordAt s e = false.
Proof.
  intros E. rewrite rmatch_RSeq, rmatch_RGroup.
  destruct (plusWord_head s q c E) as (e & rest & -> & Hlt & Hall & Hend).
  cbn [map flat_map rmatch pos setCap caps app].
  by eexists _, _.
Qed.

Lemma word_lt_length s k : isWordAt s k = true -> k < length s.
Proof.
  unfold isWordAt. destruct (s !! k) eqn:E; [| done].
  intros _. by apply lookup_lt_Some in E.
Qed.

Lemma lt_not_word s k : s !! k = Some 60%N -> isWordAt s k = false.
Proof. unfold isWordAt. by intros ->. Qed.

Lemma maximalRun_intro s a e :
  a < e -> (forall k, a <= k < e -> isWordAt s k = true) ->
  isWordAt s e = false -> (a = 0 \/ isWordAt s (a - 1) = false) ->
  maximalRun s a e.
Proof.
  intros Hlt Hall Hend Hleft.
  assert (isWordAt s (e - 1) = true) as H by (apply Hall; lia).
  apply word_lt_length in H.
  split; [| done]. split; [lia |]. by split.
Qed.

Lemma maximalRun_end s a b b' :
  maximalRun s a b -> maximalRun s a b' -> b = b'.
Proof.
  intros [[Hab [Hall _]] Hend] [[Hab' [Hall' _]] Hend'].
  destruct (decide (b < b')).
  { rewrite Hall' in Hend by lia. done. }
  destruct (decide (b' < b)); [| lia].
  rewrite Hall in Hend' by lia. done.
Qed.

(** A run that starts inside [[a, e)], a stretch of word units, starts at
    [a]. *)
Lemma run_start_inside s a e a0 :
  (forall k, a <= k < e -> isWordAt s k = true) ->
  a <= a0 < e -> (a0 = 0 \/ isWordAt s (a0 - 1) = false) -> a0 = a.
Proof.
  intros Hall Hin [-> | Hleft]; [lia |].
  destruct (decide (a0 = a)); [done |].
  rewrite Hall in Hleft by lia. done.
Qed.

Lemma bareUsage_first s n p c :
  match rmatch s (bareUsage n) (MState p c) with
  | [] => isWordAt s p = true -> ~ (p = 0 \/ isWordAt s (p - 1) = false)
  | st :: _ =>
      exists a e,
        st = MState e (<[n := Some (a, e)]> c) /\ p <= a /\ maximalRun s a e
        /\ forall a0, p <= a0 < e -> isWordAt s a0 = true ->
                      (a0 = 0 \/ isWordAt s (a0 - 1) = false) -> a0 = a
  end.
Proof.
  unfold bareUsage, rcat. cbn [foldr]. rewrite rmatch_RSeq, rmatch_RAlt.
  change (rmatch s (RChar 60) ?x) with (step1 s (N.eqb 60) x).
  change (rmatch s RWordB ?x) with (if atWordBoundary s (pos x) then [x] else []).
  unfold step1, advance. cbn [pos caps]. rewrite flat_map_app.
  assert (atWordBoundary s p = true -> isWordAt s p = true ->
          p = 0 \/ isWordAt s (p - 1) = false) as Hb.
  { unfold atWordBoundary. intros Hx Hw. rewrite Hw in Hx.
    destruct p as [|j]; [by left |]. right.
    replace (S j - 1) with j by lia. by destruct (isWordAt s j). }
  assert (atWordBoundary s p = false -> isWordAt s p = true ->
          ~ (p = 0 \/ isWordAt s (p - 1) = false)) as Hnb.
  { unfold atWordBoundary. intros Hx Hw. rewrite Hw in Hx.
    destruct p as [|j]; [done |]. intros [? | Hl]; [done |].
    replace (S j - 1) with j in Hl by lia. by rewrite Hl in Hx. }
  destruct (s !! p) as [ch|] eqn:Ech; [destruct (N.eqb_spec 60 ch) as [<- | Hch] |].
  - pose proof (lt_not_word s p Ech) as Hp. cbn [flat_map]. rewrite app_nil_r.
    destruct (isWordAt s (S p)) eqn:Ew.
    + destruct (groupWord_head s n (S p) c Ew)
        as (e & rest & -> & Hlt & Hall & Hend).
      cbn [app]. exists (S p), e. split; [done |]. split; [lia |]. split.
      * apply maximalRun_intro; try done. right.
        by replace (S p - 1) with p by lia.
      * intros a0 Ha0 Hw Hl. destruct (decide (a0 = p)) as [-> | Hne];
          [congruence |].
        apply (run_start_inside s (S p) e a0 Hall); [lia | done].
    + rewrite (groupWord_nil s n (S p) c Ew). cbn [app].
      destruct (atWordBoundary s p); cbn [flat_map];
        [rewrite (groupWord_nil s n p c Hp) |]; cbn [app];
        congruence.
  - cbn [flat_map app]. destruct (atWordBoundary s p) eqn:Eb.
    + cbn [flat_map]. rewrite app_nil_r. destruct (isWordAt s p) eqn:Ew.
      * destruct (groupWord_head s n p c Ew)
          as (e & rest & -> & Hlt & Hall & Hend).
        exists p, e. split; [done |]. split; [lia |]. split.
        -- apply maximalRun_intro; try done. by apply Hb.
        -- intros a0 Ha0 _ Hl. by apply (run_start_inside s p e a0 Hall).
      * rewrite (groupWord_nil s n p c Ew). done.
    + cbn [flat_map]. by apply Hnb.
  - cbn [flat_map app]. unfold isWordAt. rewrite Ech.
    destruct (atWordBoundary s p); cbn [flat_map]; [| done].
    rewrite app_nil_r. rewrite groupWord_nil; [done |].
    unfold isWordAt. by rewrite Ech.
Qed.

Lemma rlit_states s w : forall p c st,
  In st (rmatch s (rlit w) (MState p c)) ->
  st = MState (p + length w) c
  /\ forall k, k < length w -> s !! (p + k) = w !! k.
Proof.
  induction w as [|ch w IH]; intros p c st.
  - change (rlit []) with REmpty. intros [<- | []]. simpl.
    split; [f_equal; lia | intros k Hk; lia].
  - change (rlit (ch :: w)) with (RSeq (RChar ch) (rlit w)).
    rewrite rmatch_RSeq. intros H. apply in_flat_map in H as [x [Hx H]].
    change (rmatch s (RChar ch) ?y) with (step1 s (N.eqb ch) y) in Hx.
    apply step1_in in Hx as [d [Hd [Heq ->]]]. unfold advance in H.
    cbn [pos caps] in *. apply IH in H as [-> Hall]. apply N.eqb_eq in Heq.
    subst d. split; [simpl; f_equal; lia |].
    intros [|k] Hk; simpl.
    + by rewrite Nat.add_0_r.
    + rewrite <- (Hall k) by (simpl in Hk; lia). f_equal. lia.
Qed.

Lemma flat_map_head {A B} (f : A -> list B) l :
  match flat_map f l with
  | [] => True
  | y :: _ => exists x rest, In x l /\ f x = y :: rest
  end.
Proof.
  induction l as [|x l IH]; simpl; [done |].
  destruct (f x) as [|y rest] eqn:E; simpl.
  - destruct (flat_map f l); [done |].
    destruct IH as (x' & rest' & Hin & Hf). exists x', rest'. auto.
  - exists x, rest. auto.
Qed.

(** The aliased usage, once its opening is passed at [q]: the alias, the
    dot, and first of all the whole run of word units after it. *)
Lemma aliasTail_first s w q c :
  match rmatch s (rcat [rlit w; RChar 46; RGroup 1 (RPlus true rword)])
          (MState q c) with
  | [] => True
  | st :: _ =>
      exists e,
        st = MState e (<[1 := Some (q + length w + 1, e)]> c)
        /\ (forall k, k < length w -> s !! (q + k) = w !! k)
        /\ s !! (q + length w) = Some 46%N
        /\ q + length w + 1 < e
        /\ (forall k, q + length w + 1 <= k < e -> isWordAt s k = true)
        /\ isWordAt s e = false
  end.
Proof.
  unfold rcat. cbn [foldr]. rewrite rmatch_RSeq.
  pose proof (flat_map_head
    (rmatch s (RSeq (RChar 46) (RSeq (RGroup 1 (RPlus true rword)) REmpty)))
    (rmatch s (rlit w) (MState q c))) as H.
  destruct (flat_map _ _) as [|st l]; [done |].
  destruct H as (x & rest & Hx & Hf).
  apply rlit_states in Hx as [-> Hw].
  rewrite rmatch_RSeq in Hf.
  change (rmatch s (RChar 46) ?y) with (step1 s (N.eqb 46) y) in Hf.
  unfold step1, advance in Hf. cbn [pos caps] in Hf.
  destruct (s !! (q + length w)) as [d|] eqn:Ed; [| done].
  destruct (N.eqb_spec 46 d) as [<- | Hne]; [| done].
  cbn [flat_map] in Hf. rewrite app_nil_r in Hf.
  destruct (isWordAt s (S (q + length w))) eqn:Ew.
  - destruct (groupWord_head s 1 (S (q + length w)) c Ew)
      as (e & rest' & Hr & Hlt & Hall & Hend).
    rewrite Hr in Hf. injection Hf as <- _.
    exists e. replace (q + length w + 1) with (S (q + length w)) by lia.
    done.
  - by rewrite (groupWord_nil s 1 _ c Ew) in Hf.
Qed.

Lemma aliasUsage_first s w p c :
  isWordToken w = true -> w <> [] ->
  match rmatch s (rcat [RAlt (RChar 60) RWordB; rlit w; RChar 46;
                        RGroup 1 (RPlus true rword)]) (MState p c) with
  | [] => True
  | st :: _ =>
      exists a e,
        st = MState e (<[1 := Some (a, e)]> c) /\ p <= a /\ maximalRun s a e
        /\ forall a0 b0, p <= a0 < e -> maximalRun s a0 b0 ->
                         a0 = a \/ slice s a0 b0 = w
  end.
Proof.
  intros Hword Hne. unfold rcat. cbn [foldr]. rewrite rmatch_RSeq.
  pose proof (flat_map_head
    (rmatch s (RSeq (rlit w)
                 (RSeq (RChar 46) (RSeq (RGroup 1 (RPlus true rword)) REmpty))))
    (rmatch s (RAlt (RChar 60) RWordB) (MState p c))) as H.
  destruct (flat_map _ _) as [|st l]; [done |].
  destruct H as (x & rest & Hx & Hf).
  assert (exists q, x = MState q c
                    /\ (q = p \/ q = S p /\ isWordAt s p = false)) as (q & -> & Hq).
  { rewrite rmatch_RAlt in Hx. apply in_app_iff in Hx as [Hx | Hx].
    - change (rmatch s (RChar 60) ?y) with (step1 s (N.eqb 60) y) in Hx.
      apply step1_in in Hx as [d [Hd [Heq ->]]]. apply N.eqb_eq in Heq.
      subst d. exists (S p). split; [done |]. right. split; [done |].
      by apply lt_not_word.
    - change (rmatch s RWordB ?y)
        with (if atWordBoundary s (pos y) then [y] else []) in Hx.
      destruct (atWordBoundary s _); [| done]. destruct Hx as [<- | []].
      exists p. auto. }
  pose proof (aliasTail_first s w q c) as HT.
  change (rmatch s (rcat [rlit w; RChar 46; RGroup 1 (RPlus true rword)])
            (MState q c))
    with (rmatch s (RSeq (rlit w)
                      (RSeq (RChar 46)
                         (RSeq (RGroup 1 (RPlus true rword)) REmpty)))
            (MState q c)) in HT.
  rewrite Hf in HT. destruct HT as (e & -> & Hw & Hdot & Hlt & Hall & Hend).
  assert (forall k, q <= k < q + length w -> isWordAt s k = true) as Halias.
  { intros k Hk. unfold isWordAt.
    replace k with (q + (k - q)) by lia. rewrite Hw by lia.
    destruct (w !! (k - q)) as [d|] eqn:Ed.
    - unfold isWordToken in Hword. rewrite forallb_forall in Hword.
      apply Hword. apply list_elem_of_In. by eapply list_elem_of_lookup_2.
    - apply lookup_ge_None in Ed. lia. }
  assert (isWordAt s (q + length w) = false) as Hnot.
  { unfold isWordAt. by rewrite Hdot. }
  assert (0 < length w) as Hlen by (destruct w; [done | simpl; lia]).
  exists (q + length w + 1), e. split; [done |]. split; [lia |]. split.
  { apply maximalRun_intro; try done. right.
    by replace (q + length w + 1 - 1) with (q + length w) by lia. }
  intros a0 b0 Ha0 Hrun.
  assert (isWordAt s a0 = true) as Hw0.
  { destruct Hrun as [[Hab [Hr _]] _]. apply Hr. lia. }
  assert (a0 = 0 \/ isWordAt s (a0 - 1) = false) as Hl0
    by (by destruct Hrun as [[_ [_ ?]] _]).
  assert (q <= a0) as Hqa.
  { destruct Hq as [-> | [-> Hp]]; [lia |].
    destruct (decide (a0 = p)) as [-> | ?]; [congruence | lia]. }
  destruct (decide (a0 < q + length w)) as [Hin | Hout].
  - right.
    assert (a0 = q) as ->
      by (apply (run_start_inside s q (q + length w)); [done | lia | done]).
    assert (b0 = q + length w) as ->.
    { apply (maximalRun_end s q); [done |]. by apply maximalRun_intro; try lia. }
    assert (q + length w <= length s) as Hbound.
    { assert (isWordAt s (q + length w - 1) = true) as Hlast
        by (apply Halias; lia).
      apply word_lt_length in Hlast. lia. }
    apply list_eq. intros k. destruct (decide (k < length w)) as [Hk | Hk].
    + rewrite slice_lookup; [by apply Hw | lia | done].
    + rewrite (proj2 (lookup_ge_None w k)) by lia.
      apply lookup_ge_None. unfold slice. rewrite length_take. lia.
  - left. destruct (decide (a0 = q + length w)) as [-> | ?]; [congruence |].
    apply (run_start_inside s (q + length w + 1) e); [done | lia | done].
Qed.

Lemma potentialComp_first s i e a c :
  maximalRun s a e -> 1 < length c ->
  potentialComp s (MkMatch i e (<[1 := Some (a, e)]> c)) = Some (slice s a e).
Proof.
  intros [[Hab _] _] Hc. unfold potentialComp, group. cbn [groups].
  rewrite list_lookup_insert_eq by done.
  by destruct (slice_cons s a e Hab) as (d & ds & -> & _).
Qed.

Lemma potentialComp_second s i e a :
  potentialComp s (MkMatch i e (<[2 := Some (a, e)]> (replicate 3 None)))
  = Some (slice s a e).
Proof. done. Qed.

Lemma maxGroup_aliasUsage w :
  maxGroup (RAlt (rcat [RAlt (RChar 60) RWordB; rlit w; RChar 46;
                        RGroup 1 (RPlus true rword)]) (bareUsage 2)) = 2.
Proof.
  unfold rcat. cbn [foldr maxGroup bareUsage]. rewrite maxGroup_rlit. done.
Qed.

(** What one attempt of the usage expression at [i] gives: a match
    wherever a word run starts, and a match that captures a whole run and
    passes over no other run start than that of the alias it consumed. *)
Lemma usage_matchAt s alias i :
  (forall w, alias = Some w -> isWordToken w = true) ->
  match matchAt (usageRegex alias) s i with
  | None => isWordAt s i = true -> ~ (i = 0 \/ isWordAt s (i - 1) = false)
  | Some m =>
      exists a e,
        index m = i /\ endIndex m = e
        /\ potentialComp s m = Some (slice s a e)
        /\ i <= a /\ maximalRun s a e
        /\ forall a0 b0, i <= a0 < e -> maximalRun s a0 b0 ->
                         a0 = a \/ alias = Some (slice s a0 b0)
  end.
Proof.
  intros Halias.
  assert (match matchAt (bareUsage 1) s i with
          | None => isWordAt s i = true -> ~ (i = 0 \/ isWordAt s (i - 1) = false)
          | Some m =>
              exists a e,
                index m = i /\ endIndex m = e
                /\ potentialComp s m = Some (slice s a e)
                /\ i <= a /\ maximalRun s a e
                /\ forall a0 b0, i <= a0 < e -> maximalRun s a0 b0 ->
                                 a0 = a \/ alias = Some (slice s a0 b0)
          end) as Hbare.
  { unfold matchAt.
    pose proof (bareUsage_first s 1 i (replicate (S (maxGroup (bareUsage 1))) None))
      as H.
    destruct (rmatch s (bareUsage 1) _) as [|st l]; [done |].
    destruct H as (a & e & -> & Hle & Hrun & Hstart).
    exists a, e. cbn [index endIndex pos caps].
    split; [done |]. split; [done |].
    split; [apply potentialComp_first; [done | vm_compute; lia] |].
    split; [done |].
    split; [done |]. intros a0 b0 Ha0 [[Hab [Hr Hl]] _]. left.
    apply Hstart; [done | apply Hr; lia | done]. }
  destruct alias as [[|ch w]|]; [exact Hbare | | exact Hbare].
  change (usageRegex (Some (ch :: w)))
    with (RAlt (rcat [RAlt (RChar 60) RWordB; rlit (ch :: w); RChar 46;
                      RGroup 1 (RPlus true rword)]) (bareUsage 2)).
  unfold matchAt. rewrite maxGroup_aliasUsage, rmatch_RAlt.
  pose proof (aliasUsage_first s (ch :: w) i (replicate 3 None)
                (Halias _ eq_refl) ltac:(done)) as H1.
  pose proof (bareUsage_first s 2 i (replicate 3 None)) as H2.
  destruct (rmatch s (rcat _) _) as [|st l].
  - cbn [app]. destruct (rmatch s (bareUsage 2) _) as [|st l]; [done |].
    destruct H2 as (a & e & -> & Hle & Hrun & Hstart).
    exists a, e. cbn [index endIndex pos caps].
    split; [done |]. split; [done |].
    split; [by apply potentialComp_second |]. split; [done |].
    split; [done |]. intros a0 b0 Ha0 [[Hab [Hr Hl]] _]. left.
    apply Hstart; [done | apply Hr; lia | done].
  - cbn [app]. destruct H1 as (a & e & -> & Hle & Hrun & Hstart).
    exists a, e. cbn [index endIndex pos caps].
    split; [done |]. split; [done |].
    split; [apply potentialComp_first; [done | vm_compute; lia] |].
    split; [done |].
    split; [done |]. intros a0 b0 Ha0 Hr0.
    destruct (Hstart a0 b0 Ha0 Hr0) as [-> | ->]; auto.
Qed.

(** The scan: every whole run of word units the loop has not passed is the
    token of one of its matches, unless the run is the alias. *)
Lemma usageLoop_complete s alias :
  (forall w, alias = Some w -> isWordToken w = true) ->
  forall fuel lastIndex ms,
    execLoop fuel (usageRegex alias) s lastIndex = Some ms ->
    forall a b, maximalRun s a b -> lastIndex <= a ->
                alias <> Some (slice s a b) ->
                exists m, In m ms /\ potentialComp s m = Some (slice s a b).
Proof.
  intros Halias. induction fuel as [|f IH]; intros L ms; [done |].
  cbn [execLoop]. intros Hloop a b Hrun HL Hne.
  assert (isWordAt s a = true /\ (a = 0 \/ isWordAt s (a - 1) = false)
          /\ a < length s) as (Hwa & Hla & Hlen).
  { destruct Hrun as [[Hab [Hr Hl]] _]. split; [apply Hr; lia |].
    split; [done | lia]. }
  pose proof (usage_matchAt s alias a Halias) as Hat.
  destruct (exec (usageRegex alias) s L) as [m|] eqn:E.
  2: { rewrite exec_None in E. rewrite (E a) in Hat by lia. by destruct Hat. }
  apply exec_Some in E as (Hi & Hm & Hleft).
  assert (index m <= a) as Hia.
  { destruct (decide (index m <= a)); [done |].
    rewrite (Hleft a) in Hat by lia. by destruct Hat. }
  pose proof (usage_matchAt s alias (index m) Halias) as Hd.
  rewrite Hm in Hd.
  destruct Hd as (a' & e & _ & He & Hp & Hle & Hrun' & Hstart).
  rewrite He in Hloop.
  assert (a' < e) as Hae by (destruct Hrun' as [[? _] _]; lia).
  replace (e <=? L) with false in Hloop
    by (symmetry; apply Nat.leb_gt; lia).
  destruct (execLoop f (usageRegex alias) s e) as [ms'|] eqn:E'; [| done].
  injection Hloop as <-.
  destruct (decide (a < e)) as [Hin | Hout].
  - destruct (Hstart a b ltac:(lia) Hrun) as [-> | ->]; [| done].
    exists m. split; [by left |].
    by rewrite (maximalRun_end s a' b e Hrun Hrun').
  - destruct (IH e ms' E' a b Hrun ltac:(lia) Hne) as (m' & Hin' & Hp').
    exists m'. split; [by right | done].
Qed.

Lemma addIfCapitalized_keeps content : forall ms acc tok,
  tok ∈ acc -> tok ∈ foldl (addIfCapitalized content) acc ms.
Proof.
  induction ms as [|m ms IH]; intros acc tok H; [done |].
  cbn [foldl]. apply IH. unfold addIfCapitalized.
  destruct (potentialComp content m) as [[|c cs]|]; try done.
  destruct (c =? toUpperCase1 c)%N; [| done].
  apply setAdd_elem. by left.
Qed.

Lemma addIfCapitalized_adds content : forall ms acc m c cs,
  In m ms -> potentialComp content m = Some (c :: cs) -> c = toUpperCase1 c ->
  (c :: cs) ∈ foldl (addIfCapitalized content) acc ms.
Proof.
  induction ms as [|m' ms IH]; intros acc m c cs Hin Hp Hu; [done |].
  cbn [foldl]. destruct Hin as [-> | Hin]; [| by eapply IH].
  apply addIfCapitalized_keeps. unfold addIfCapitalized. rewrite Hp.
  rewrite <- Hu, N.eqb_refl. apply setAdd_elem. by right.
Qed.

Lemma rmatch_bound s r st st' :
  In st' (rmatch s r st) -> pos st <= length s -> pos st' <= length s.
Proof.
  intros H Hst. eapply Matches_bound; [| exact Hst].
  apply rmatch_Matches; [done |]. by exists st'.
Qed.

Lemma groupsOf_patternOf w : forall r, patternOf w = Some r -> groupsOf r = [].
Proof.
  induction w as [|c w IH]; intros r; simpl.
  - by intros [= <-].
  - destruct (patternChar c) as [a|] eqn:Ea; [| done].
    destruct (patternOf w) as [b|]; [| done]. intros [= <-].
    simpl. rewrite (IH b eq_refl), app_nil_r.
    unfold patternChar in Ea.
    repeat match type of Ea with
           | (if ?x then _ else _) = _ => destruct x
           end; by inversion Ea.
Qed.

Lemma word_slice_token s a b :
  a <= b <= length s -> (forall k, a <= k < b -> isWordAt s k = true) ->
  isWordToken (slice s a b) = true.
Proof.
  intros Hab Hall. unfold isWordToken. apply forallb_forall.
  intros c Hc. apply list_elem_of_In, list_elem_of_lookup in Hc as [k Hk].
  assert (k < b - a) as Hlt.
  { apply lookup_lt_Some in Hk. rewrite slice_length in Hk; lia. }
  rewrite slice_lookup in Hk by lia.
  specialize (Hall (a + k) ltac:(lia)). unfold isWordAt in Hall.
  by rewrite Hk in Hall.
Qed.

(** The alias of a namespace import is a word token. *)
Lemma namespaceAlias_word base nsRe content w :
  namespaceImportRegex base = Some nsRe ->
  namespaceAliasOf nsRe content = Some w -> isWordToken w = true.
Proof.
  unfold namespaceImportRegex.
  destruct (patternOf base) as [name|] eqn:Hn; [| done]. intros [= <-].
  unfold namespaceAliasOf.
  destruct (exec _ content 0) as [m|] eqn:E; [| done]. intros Hg.
  apply exec_Some in E as (Hi & Hm & _).
  apply matchAt_Some in Hm as [_ (st' & Hin & _ & Hcaps)].
  set (st0 := MState (index m) _) in Hin.
  assert (pos st0 <= length content) as H0 by (simpl; lia).
  assert (1 < length (caps st0)) as Hc0.
  { subst st0. cbn [caps]. rewrite length_replicate.
    unfold rcat. cbn [foldr maxGroup]. lia. }
  unfold rcat in Hin. cbn [foldr] in Hin.
  apply rmatch_seq in Hin as [x1 [H1 Hin]].
  apply rmatch_seq in Hin as [x2 [H2 Hin]].
  apply rmatch_seq in Hin as [x3 [H3 Hin]].
  apply rmatch_seq in Hin as [x4 [H4 Hin]].
  apply rmatch_seq in Hin as [x5 [H5 Hin]].
  apply rmatch_seq in Hin as [x6 [H6 Hin]].
  apply rmatch_seq in Hin as [x7 [H7 Hin]].
  assert (pos x6 <= length content) as Hb6.
  { eapply rmatch_bound; [exact H6 |]. eapply rmatch_bound; [exact H5 |].
    eapply rmatch_bound; [exact H4 |]. eapply rmatch_bound; [exact H3 |].
    eapply rmatch_bound; [exact H2 |]. by eapply rmatch_bound. }
  assert (length (caps x6) = length (caps st0)) as Hl6.
  { rewrite (rmatch_caps_length _ _ _ _ H6), (rmatch_caps_length _ _ _ _ H5),
      (rmatch_caps_length _ _ _ _ H4), (rmatch_caps_length _ _ _ _ H3),
      (rmatch_caps_length _ _ _ _ H2). by eapply rmatch_caps_length. }
  apply rmatch_group in H7 as (e & Hcap & _ & HM); [| done | lia].
  apply Matches_plus_word in HM as [Hab Hall].
  assert (caps st' !! 1 = caps x7 !! 1) as Hfr.
  { eapply rmatch_caps_frame; [| exact Hin].
    unfold fromClause, rcat. cbn [foldr groupsOf app].
    rewrite groupsOf_rlit, (groupsOf_patternOf _ _ Hn). simpl. tauto. }
  unfold group in Hg. rewrite <- Hcaps, Hfr, Hcap in Hg.
  injection Hg as <-. apply word_slice_token; [lia | done].
Qed.

Lemma used_token_complete (content styleFileName : jsstring)
    (used : list jsstring) (a b : nat) (c : N) :
  usedComponentsOf content styleFileName = Some used ->
  maximalRun content a b ->
  content !! a = Some c -> c = toUpperCase1 c ->
  namespaceAliasIn content styleFileName <> Some (slice content a b) ->
  slice content a b ∈ used.
Proof.
  intros Hused Hrun Hc Hcap Hne.
  unfold usedComponentsOf in Hused. unfold namespaceAliasIn in Hne.
  destruct (namespaceImportRegex styleFileName) as [nsRe|] eqn:Hre; [| done].
  cbn [mbind option_bind] in Hne.
  destruct (execAll _ content) as [ms|] eqn:Hms; [| done].
  injection Hused as <-.
  destruct (usageLoop_complete content (namespaceAliasOf nsRe content)
              (fun w => namespaceAlias_word _ _ _ w Hre)
              _ _ _ Hms a b Hrun ltac:(lia) Hne) as (m & Hin & Hp).
  destruct (slice_cons content a b (proj1 (proj1 Hrun)))
    as (d & ds & Hs & Hd).
  rewrite Hs in *. rewrite Hc in Hd. injection Hd as <-.
  exact (addIfCapitalized_adds content ms [] m c ds Hin Hp Hcap).
Qed.

(** X8. The scan of an importing file misses no capitalised word: every
    whole run of [[A-Za-z0-9_]] in the content whose first unit is not a
    lowercase letter is in the used-symbol set, however it is used there,
    unless the run is the alias under which the content imports the style
    file as a namespace. *)
Theorem capitalised_word_is_used (content styleFileName : jsstring)
    (used : list jsstring) (a b : nat) (c : N) :
  usedComponentsOf content styleFileName = Some used ->
  maximalRun content a b ->
  content !! a = Some c -> isLowerCase c = false ->
  namespaceAliasIn content styleFileName <> Some (slice content a b) ->
  slice content a b ∈ used.
Proof.
  intros Hused Hrun Hc Hcap Hne.
  assert (c = toUpperCase1 c) as Hup.
  { unfold toUpperCase1. unfold isLowerCase in Hcap. by rewrite Hcap. }
  destruct Hrun as [[Hab [Hall Hleft]] Hend].
  eapply used_token_complete; eauto.
  split; [| exact Hend]. split; [exact Hab |]. split; [exact Hall | exact Hleft].
Qed.

Lemma capitalised_word_is_used_witness :
  usedComponentsOf nsPage (lit "Box") = Some [lit "S"; lit "Box"]
  /\ slice nsPage 41 44 ∈ [lit "S"; lit "Box"].
Proof.
  assert (usedComponentsOf nsPage (lit "Box") = Some [lit "S"; lit "Box"])
    as H1 by (vm_compute; reflexivity).
  assert (maximalRun nsPage 41 44) as H2.
  { split; [| vm_compute; reflexivity]. split; [vm_compute; lia |].
    split; [| right; vm_compute; reflexivity]. intros k Hk.
    assert (k = 41 \/ k = 42 \/ k = 43) as [-> | [-> | ->]] by lia;
      vm_compute; reflexivity. }
  assert (nsPage !! 41 = Some 66%N) as H3 by (vm_compute; reflexivity).
  assert (isLowerCase 66 = false) as H4 by reflexivity.
  assert (namespaceAliasIn nsPage (lit "Box") <> Some (slice nsPage 41 44))
    as H5 by (intros H; vm_compute in H; discriminate).
  split; [exact H1 |].
  exact (capitalised_word_is_used _ _ _ _ _ _ H1 H2 H3 H4 H5).
Defined.

(** ** A symbol an importing file mentions is not reported *)

Lemma scan_files_member env base : forall fs s l s',
  forM fs (importerIfAny env base) s = Some (l, s') ->
  forall u c cs,
    In u fs -> readView env s u = Some (c :: cs) ->
    mightImportFromFile (c :: cs) base = Some true -> In u l.
Proof.
  induction fs as [|f fs IH]; intros s l s'; cbn [forM]; [by intros _ u c cs [] |].
  unfold bind at 1.
  destruct (importerIfAny env base f s) as [[r1 s1]|] eqn:E1; [| done].
  unfold bind at 1.
  destruct (forM fs (importerIfAny env base) s1) as [[r2 s2]|] eqn:E2;
    [| done].
  intros [= <- <-] u c cs Hin Hc Hm. apply in_app_iff.
  destruct Hin as [-> | Hin].
  - left. rewrite importerIfAny_eq, Hc, Hm in E1. injection E1 as <- _.
    by left.
  - right. apply (IH _ _ _ E2 u c cs Hin); [| done].
    apply importerIfAny_scanKeeps in E1 as (_ & _ & _ & Hv). by rewrite Hv.
Qed.

Lemma scan_files_keeps env base : forall fs s l s',
  forM fs (importerIfAny env base) s = Some (l, s') -> scanKeeps env s s'.
Proof.
  intros fs s l s' H.
  apply (forM_inv (scanKeeps env)) in H;
    [done | apply scanKeeps_refl | apply scanKeeps_trans |].
  intros f s2 r2 s2'. apply importerIfAny_scanKeeps.
Qed.

Lemma scan_folders_member env base (files : WorkspaceFolder -> list Uri) :
  forall folders s l s',
    forM folders (fun folder => forM (files folder) (importerIfAny env base)) s
    = Some (l, s') ->
    forall folder u c cs,
      In folder folders -> In u (files folder) ->
      readView env s u = Some (c :: cs) ->
      mightImportFromFile (c :: cs) base = Some true -> In u l.
Proof.
  induction folders as [|fo folders IH]; intros s l s'; cbn [forM];
    [by intros _ folder u c cs [] |].
  unfold bind at 1.
  destruct (forM (files fo) (importerIfAny env base) s) as [[r1 s1]|] eqn:E1;
    [| done].
  unfold bind at 1.
  destruct (forM folders _ s1) as [[r2 s2]|] eqn:E2; [| done].
  intros [= <- <-] folder u c cs Hfo Hin Hc Hm. apply in_app_iff.
  destruct Hfo as [-> | Hfo].
  - left. by eapply scan_files_member.
  - right. apply (IH _ _ _ E2 folder u c cs Hfo Hin); [| done].
    apply scan_files_keeps in E1 as (_ & _ & _ & Hv). by rewrite Hv.
Qed.

(** A workspace file that imports from the document is in the list a scan
    for its importers gives. *)
Lemma importer_is_listed env document st l st' u c cs :
  findFilesImportingFromCached env document st = Some (l, st') ->
  importingFilesCache st !! uriKey (uri document) = None ->
  enumerated env u -> fsPath u <> fileName document ->
  readView env st u = Some (c :: cs) ->
  mightImportFromFile (c :: cs) (styleBaseName document) = Some true ->
  In u l.
Proof.
  unfold findFilesImportingFromCached, bind, gets, modify, ret.
  intros H Hmiss (fo & f & Hfo & Hf & Hu & Hp & Hx) Hne Hc Hm.
  rewrite Hmiss in H.
  destruct (workspaceFolders env) as [folders|]; [| done]. simpl in Hfo.
  destruct (forM folders _ st) as [[l1 s1]|] eqn:E; [| done].
  injection H as <- _.
  apply (scan_folders_member env (styleBaseName document)
           (fun folder => filter (fun file =>
              negb (jseqb (fsPath file) (fileName document)))
              (findFiles folder)) _ _ _ _ E fo u c cs Hfo); [| done | done].
  apply list_elem_of_In, list_elem_of_filter. split.
  - apply negb_True. unfold jseqb. intros E'. by apply bool_decide_unpack in E'.
  - apply list_elem_of_In, findFiles_In. by exists f.
Qed.

(** X9. A symbol that an importing file mentions is not reported. When a
    check of a JavaScript or TypeScript document has to look for the
    importers and a workspace file other than the document, whose content
    the content store hands out, passes the import test, then a whole run
    of [[A-Za-z0-9_]] of that content that does not start with a lowercase
    letter names no diagnostic after the check, unless a set cached for
    the pair stands in for the content or the run is the namespace
    alias. *)
Theorem mentioned_symbol_is_not_reported (env : Env) (document : Document)
    (st st' : State) (u : Uri) (content : jsstring) (a b : nat) (c : N) :
  isJsOrTsFile document = true ->
  checkDocument env document st = Some (tt, st') ->
  importingFilesCache st !! uriKey (uri document) = None ->
  cachedUsage st document u = None ->
  enumerated env u -> fsPath u <> fileName document ->
  readView env st u = Some content ->
  mightImportFromFile content (styleBaseName document) = Some true ->
  maximalRun content a b ->
  content !! a = Some c -> isLowerCase c = false ->
  namespaceAliasIn content (styleBaseName document)
    <> Some (slice content a b) ->
  ~ diagnosed st' document (slice content a b).
Proof.
  intros Hjs Hrun Hmiss Hcu Henum Hne Hread Himp Hword Hc Hcap Halias.
  destruct (isStyledComponentFile (getText document)) eqn:Hpre.
  2: { rewrite checkDocument_rejected in Hrun by done. injection Hrun as <-.
       intros (d & Hd & _). by rewrite diagnosticsOf_deleted in Hd. }
  rewrite checkDocument_styled in Hrun by done.
  apply checkStyled_spec in Hrun
    as (comps & l & stA & Hcomps & Hl & Hall & _ & _ & Hd).
  rewrite (diagnosed_spec _ _ _ _ _ _ _ Hd). intros [_ Hnot]. apply Hnot.
  destruct (findFiles_caches _ _ _ _ _ Hl) as (_ & Hsame & Hview).
  assert (exists d ds, content = d :: ds) as (d & ds & ->).
  { destruct Hword as [[Hab _] _]. destruct content; [simpl in Hab; lia |].
    eauto. }
  assert (In u l) as Hin.
  { eapply importer_is_listed; eauto.
    rewrite <- Hread. apply readView_depends. done. }
  destruct (Hall u Hin) as [r Hr].
  rewrite usageView_eq in Hr.
  assert (cachedUsage stA document u = None) as HcA.
  { unfold cachedUsage in *. by rewrite Hsame. }
  assert (readView env stA u = Some (d :: ds)) as HrA.
  { rewrite Hview, <- Hread. apply readView_depends. done. }
  rewrite HcA, HrA in Hr.
  destruct (usedComponentsOf (d :: ds) (styleBaseName document))
    as [used|] eqn:Hused; [| done].
  exists u, used. split; [done |]. split.
  - by rewrite usageView_eq, HcA, HrA, Hused.
  - eapply used_token_complete; eauto.
    unfold toUpperCase1. unfold isLowerCase in Hcap. by rewrite Hcap.
Qed.

Lemma mentioned_symbol_is_not_reported_witness :
  checkDocument boxEnv boxDoc initialState = Some (tt, boxChecked)
  /\ slice pageContent 40 43 = lit "Box"
  /\ ~ diagnosed boxChecked boxDoc (slice pageContent 40 43).
Proof.
  assert (isJsOrTsFile boxDoc = true) as H1 by (vm_compute; reflexivity).
  assert (checkDocument boxEnv boxDoc initialState = Some (tt, boxChecked))
    as H2 by (vm_compute; reflexivity).
  assert (importingFilesCache initialState !! uriKey (uri boxDoc) = None)
    as H3 by reflexivity.
  assert (cachedUsage initialState boxDoc pageUri = None) as H4 by reflexivity.
  assert (enumerated boxEnv pageUri) as H5.
  { exists [wsFile "Box.tsx"; wsFile "Page.tsx"], (wsFile "Page.tsx").
    split; [left; vm_compute; reflexivity |].
    split; [right; left; reflexivity |].
    split; [vm_compute; reflexivity |].
    split; vm_compute; reflexivity. }
  assert (fsPath pageUri <> fileName boxDoc) as H6
    by (intros H; vm_compute in H; discriminate).
  assert (readView boxEnv initialState pageUri = Some pageContent) as H7
    by (vm_compute; reflexivity).
  assert (mightImportFromFile pageContent (styleBaseName boxDoc) = Some true)
    as H8 by (vm_compute; reflexivity).
  assert (maximalRun pageContent 40 43) as H9.
  { split; [| vm_compute; reflexivity]. split; [vm_compute; lia |].
    split; [| right; vm_compute; reflexivity]. intros k Hk.
    assert (k = 40 \/ k = 41 \/ k = 42) as [-> | [-> | ->]] by lia;
      vm_compute; reflexivity. }
  assert (pageContent !! 40 = Some 66%N) as H10 by (vm_compute; reflexivity).
  assert (isLowerCase 66 = false) as H11 by reflexivity.
  assert (namespaceAliasIn pageContent (styleBaseName boxDoc)
          <> Some (slice pageContent 40 43)) as H12
    by (intros H; vm_compute in H; discriminate).
  split; [exact H2 |]. split; [vm_compute; reflexivity |].
  exact (mentioned_symbol_is_not_reported _ _ _ _ _ _ _ _ _
           H1 H2 H3 H4 H5 H6 H7 H8 H9 H10 H11 H12).
Defined.

(** ** Where the diagnostic of a direct export is put *)

Lemma indexOf0_found : forall s sub j,
  j <= length s -> startsWith (drop j s) sub = true ->
  exists i, indexOf0 s sub = Some i /\ i <= j
            /\ startsWith (drop i s) sub = true.
Proof.
  induction s as [|c s IH]; intros sub j Hj Hs.
  - assert (j = 0) as -> by (simpl in Hj; lia). cbn [drop] in Hs.
    cbn [indexOf0]. rewrite Hs. exists 0. by cbn [drop].
  - cbn [indexOf0]. destruct (startsWith (c :: s) sub) eqn:E.
    + exists 0. split; [done |]. split; [lia | done].
    + destruct j as [|j]; [cbn [drop] in Hs; congruence |]. cbn [drop] in Hs.
      destruct (IH sub j ltac:(simpl in Hj; lia) Hs) as (i & -> & Hle & Hi).
      exists (S i). split; [done |]. split; [lia | done].
Qed.

Lemma indexOf_found s sub from j :
  from <= j -> j <= length s -> startsWith (drop j s) sub = true ->
  exists i, indexOf s sub from = Some i /\ from <= i <= j
            /\ startsWith (drop i s) sub = true.
Proof.
  intros Hfrom Hj Hs. unfold indexOf.
  replace (Nat.min from (length s)) with from by lia.
  destruct (indexOf0_found (drop from s) sub (j - from)) as (i & -> & Hle & Hi).
  - rewrite length_drop. lia.
  - rewrite drop_drop. by replace (from + (j - from)) with j by lia.
  - exists (from + i). split; [done |]. split; [lia |].
    by rewrite drop_drop in Hi.
Qed.

Lemma startsWith_slice s i sub :
  i <= length s -> startsWith (drop i s) sub = true ->
  slice s i (i + length sub) = sub /\ i + length sub <= length s.
Proof.
  intros Hi H. apply startsWith_spec in H as [rest H]. split.
  - unfold slice. replace (i + length sub - i) with (length sub) by lia.
    rewrite H. by rewrite take_app_length.
  - apply (f_equal length) in H. rewrite length_drop, length_app in H. lia.
Qed.

Lemma slice_startsWith s p e :
  p <= e <= length s -> startsWith (drop p s) (slice s p e) = true.
Proof.
  intros H. apply startsWith_spec. exists (drop (e - p) (drop p s)).
  unfold slice. by rewrite take_drop.
Qed.

Lemma slice_slice s a b i n :
  b <= length s -> a + i + n <= b ->
  slice (slice s a b) i (i + n) = slice s (a + i) (a + i + n).
Proof.
  intros Hb Hn. apply list_eq. intros k.
  destruct (decide (k < n)) as [Hk | Hk].
  - rewrite slice_lookup; [| lia | rewrite slice_length; lia].
    rewrite slice_lookup by lia. rewrite slice_lookup by lia.
    f_equal. lia.
  - rewrite (proj2 (lookup_ge_None _ k));
      [| rewrite slice_length; [lia | rewrite slice_length; lia]].
    symmetry. apply lookup_ge_None. rewrite slice_length; lia.
Qed.

Lemma drop_slice s a p b :
  a <= p <= b -> b <= length s -> drop (p - a) (slice s a b) = slice s p b.
Proof.
  intros H Hb. rewrite (slice_split s a p b) by lia.
  assert (length (slice s a p) = p - a) as <- by (rewrite slice_length; lia).
  by rewrite drop_app_length.
Qed.

(** A match of the direct-export expression: the captured name is a word
    that starts after at least thirteen units of the match. *)
Lemma directExport_shape text i m :
  i <= length text -> matchAt directExportRegex text i = Some m ->
  exists p e,
    groups m !! 1 = Some (Some (p, e))
    /\ i + 13 <= p /\ p < e /\ e <= endIndex m /\ endIndex m <= length text
    /\ index m = i
    /\ forall k, p <= k < e -> isWordAt text k = true.
Proof.
  intros Hi H. apply matchAt_Some in H as [Hidx [st' [Hin [Hend Hcaps]]]].
  unfold directExportRegex, rcat in Hin. cbn [foldr] in Hin.
  apply rmatch_seq in Hin as [x1 [H1 Hin]].
  apply rmatch_seq in Hin as [x2 [H2 Hin]].
  apply rmatch_seq in Hin as [x3 [H3 Hin]].
  apply rmatch_seq in Hin as [x4 [H4 Hin]].
  apply rmatch_seq in Hin as [x5 [H5 Hin]].
  pose proof H1 as H1'. apply rmatch_step in H1' as (M1 & B1 & L1); [| done].
  pose proof H2 as H2'. apply rmatch_step in H2' as (M2 & B2 & L2); [| done].
  pose proof H3 as H3'. apply rmatch_step in H3' as (M3 & B3 & L3); [| done].
  pose proof H4 as H4'. apply rmatch_step in H4' as (M4 & B4 & L4); [| done].
  pose proof H5 as H5'.
  apply rmatch_group in H5' as [e [Hcap [He M5]]];
    [| done | rewrite L4, L3, L2, L1; simpl; lia].
  pose proof H5 as H5''. apply rmatch_step in H5'' as (_ & B5 & L5); [| done].
  pose proof Hin as Hin'.
  apply rmatch_step in Hin' as (M6 & B6 & L6); [| done].
  apply Matches_le in M6.
  apply Matches_rlit in M1 as [P1 _]. apply Matches_rlit in M3 as [P3 _].
  change (length (lit "export")) with 6 in P1.
  change (length (lit "const")) with 5 in P3.
  apply Matches_plus_set in M2 as [P2 _].
  apply Matches_plus_set in M4 as [P4 _].
  apply Matches_plus_word in M5 as [P5 Hall].
  simpl in P1. exists (pos x4), e. subst e.
  split.
  { rewrite <- Hcaps, <- Hcap. eapply rmatch_caps_frame; [| exact Hin].
    cbn [groupsOf app]. rewrite groupsOf_rlit. simpl. tauto. }
  repeat split; try done; lia.
Qed.

(** X10. Every match of the direct-export expression becomes a component,
    its name an identifier. The search for the name never fails: the range
    starts at least thirteen units into the export statement, ends inside
    it, and the text it covers is the name. *)
Theorem direct_export_range (text : jsstring) (document : Document)
    (comps : list Component) (directMatches : list MatchResult)
    (m : MatchResult) :
  getExportedComponents text document = Some comps ->
  execAll directExportRegex text = Some directMatches ->
  In m directMatches ->
  let component := directComponent text document m in
  In component comps
  /\ isIdentifier (name component) = true
  /\ exists i,
       13 <= i /\ index m + i + length (name component) <= endIndex m
       /\ crange component
          = MkRange (positionAt document (Z.of_nat (index m + i)))
              (positionAt document
                 (Z.of_nat (index m + i + length (name component))))
       /\ slice text (index m + i) (index m + i + length (name component))
          = name component.
Proof.
  intros Hcomps Hall Hm. cbn zeta. split.
  { unfold getExportedComponents in Hcomps. rewrite Hall in Hcomps.
    destruct (execAll namedExportRegex text) as [named|]; [| done].
    destruct (concatOpt _) as [ns|]; [| done]. injection Hcomps as <-.
    apply in_app_iff. right. by apply in_map. }
  destruct (execAll_In _ _ _ _ Hall Hm) as [from Hex].
  apply exec_Some in Hex as (Hi & Hat & _).
  apply directExport_shape in Hat
    as (p & e & Hg & Hp & Hpe & He & Hend & _ & Hword); [| lia].
  unfold directComponent. rewrite (group_of_caps _ _ _ _ _ Hg).
  cbn [from_option id name crange].
  assert (length (slice text p e) = e - p) as Hlen
    by (rewrite slice_length; lia).
  split.
  { unfold isIdentifier. rewrite Hlen.
    replace (e - p =? 0) with false by (symmetry; apply Nat.eqb_neq; lia).
    apply word_slice_token; [lia | done]. }
  change (length (lit "export const ")) with 13.
  destruct (indexOf_found (matched text m) (slice text p e) 13 (p - index m))
    as (i & -> & Hi13 & Hs).
  - lia.
  - unfold matched. rewrite slice_length; lia.
  - unfold matched. rewrite drop_slice by lia.
    rewrite (slice_split text p e (endIndex m)) by lia.
    apply startsWith_spec. by eexists.
  - apply startsWith_slice in Hs as [Hs Hb];
      [| unfold matched; rewrite slice_length; lia].
    unfold matched in Hs, Hb. rewrite slice_length in Hb by lia.
    rewrite Hlen in *.
    exists i. split; [lia |]. split; [lia |]. split.
    + by rewrite !Nat2Z.inj_add.
    + rewrite <- slice_slice with (b := endIndex m); [done | done | lia].
Qed.

Lemma direct_export_range_witness :
  execAll directExportRegex (getText wideDoc) = Some [wideMatch]
  /\ crange (directComponent (getText wideDoc) wideDoc wideMatch)
     = MkRange (MkPosition 0 14) (MkPosition 0 15)
  /\ exists i,
       13 <= i
       /\ index wideMatch + i
          + length (name (directComponent (getText wideDoc) wideDoc wideMatch))
          <= endIndex wideMatch
       /\ crange (directComponent (getText wideDoc) wideDoc wideMatch)
          = MkRange (positionAt wideDoc (Z.of_nat (index wideMatch + i)))
              (positionAt wideDoc
                 (Z.of_nat
                    (index wideMatch + i
                     + length (name (directComponent (getText wideDoc)
                                       wideDoc wideMatch)))))
       /\ slice (getText wideDoc) (index wideMatch + i)
            (index wideMatch + i
             + length (name (directComponent (getText wideDoc) wideDoc
                               wideMatch)))
          = name (directComponent (getText wideDoc) wideDoc wideMatch).
Proof.
  assert (getExportedComponents (getText wideDoc) wideDoc
          = Some [directComponent (getText wideDoc) wideDoc wideMatch])
    as H1 by (vm_compute; reflexivity).
  assert (execAll directExportRegex (getText wideDoc) = Some [wideMatch])
    as H2 by (vm_compute; reflexivity).
  assert (In wideMatch [wideMatch]) as H3 by (left; reflexivity).
  split; [exact H2 |]. split; [vm_compute; reflexivity |].
  exact (proj2 (proj2 (direct_export_range _ _ _ _ _ H1 H2 H3))).
Defined.

(** ** Where the diagnostic of a grouped export is put *)

Lemma slice_of_lookups (s w : jsstring) k :
  (forall j, j < length w -> s !! (k + j) = w !! j) ->
  k + length w <= length s -> slice s k (k + length w) = w.
Proof.
  intros Hw Hb. apply list_eq. intros j.
  destruct (decide (j < length w)) as [Hj | Hj].
  - rewrite slice_lookup by lia. by apply Hw.
  - rewrite (proj2 (lookup_ge_None w j)) by lia.
    apply lookup_ge_None. rewrite slice_length; lia.
Qed.

(** What the loop over the items of a block records for each component it
    emits. *)
Lemma namedComponents_ranges text document m cs :
  namedComponents text document m = Some cs ->
  forall c, In c cs ->
    exists re k,
      itemRegex (name c) = Some re
      /\ search re (slice text (index m)
                      (index m + length (matched text m))) = Some k
      /\ crange c
         = MkRange (positionAt document (Z.of_nat (index m + k)))
             (positionAt document (Z.of_nat (index m + k + length (name c)))).
Proof.
  unfold namedComponents.
  set (block := slice text (index m) (index m + length (matched text m))).
  generalize (exportedItems (default [] (group text m 1))) as items.
  intros items. revert cs. induction items as [|it items IH]; intros cs; simpl.
  - by intros [= <-] c [].
  - destruct (itemRegex it) as [re|] eqn:Hre; [| done].
    destruct (foldr _ _ items) as [rest|] eqn:Hrest; [| done].
    destruct (search re block) as [idx|] eqn:Hs.
    + intros [= <-] c [<- | Hc]; [| by eapply IH].
      exists re, idx. by cbn [name crange].
    + intros [= <-] c Hc. by eapply IH.
Qed.

(** X11. The component of a grouped export whose item has no unit with a
    meaning in a pattern gets a range that lies inside the export block
    and covers the item's own text. *)
Theorem named_export_range (text : jsstring) (document : Document)
    (namedMatches : list MatchResult) (m : MatchResult)
    (cs : list Component) (c : Component) :
  execAll namedExportRegex text = Some namedMatches ->
  In m namedMatches ->
  namedComponents text document m = Some cs ->
  In c cs ->
  isPlainName (name c) = true ->
  exists k,
    index m + k + length (name c) <= endIndex m
    /\ crange c
       = MkRange (positionAt document (Z.of_nat (index m + k)))
           (positionAt document (Z.of_nat (index m + k + length (name c))))
    /\ slice text (index m + k) (index m + k + length (name c)) = name c.
Proof.
  intros Hall Hm Hcs Hc Hplain.
  destruct (execAll_In _ _ _ _ Hall Hm) as [from Hex].
  apply exec_Some in Hex as (Hi & Hat & _).
  apply namedExport_shape in Hat
    as (a & b & _ & Hia & Hab & Hb & _ & _ & Hend & _); [| lia].
  destruct (namedComponents_ranges _ _ _ _ Hcs c Hc) as (re & k & Hre & Hs & Hr).
  unfold matched in Hs. rewrite slice_length in Hs by lia.
  replace (index m + (endIndex m - index m)) with (endIndex m) in Hs by lia.
  unfold itemRegex in Hre. rewrite (patternOf_plainName _ Hplain) in Hre.
  injection Hre as <-.
  unfold search in Hs.
  destruct (exec _ _ 0) as [m'|] eqn:E; [| done]. injection Hs as <-.
  pose proof (exec_Some _ _ _ _ E) as ([_ Hk] & _).
  apply exec_Matches in E. unfold rcat in E. cbn [foldr] in E.
  apply Matches_seq in E as (k1 & E1 & E).
  apply Matches_seq in E as (k2 & E2 & _).
  apply Matches_wordb in E1 as [_ ->].
  pose proof (Matches_bound _ _ _ _ E2) as Hbound.
  apply Matches_rlit in E2 as [-> Hw].
  specialize (Hbound Hk). rewrite slice_length in Hbound, Hk by lia.
  exists (index m'). split; [lia |]. split; [done |].
  rewrite <- slice_slice with (b := endIndex m) by lia.
  apply slice_of_lookups; [done | rewrite slice_length; lia].
Qed.

Lemma named_export_range_witness :
  execAll namedExportRegex (getText boxDoc) = Some [boxBlock]
  /\ namedComponents (getText boxDoc) boxDoc boxBlock = Some boxComponents
  /\ In frameComponent boxComponents
  /\ exists k,
       index boxBlock + k + length (name frameComponent) <= endIndex boxBlock
       /\ crange frameComponent
          = MkRange (positionAt boxDoc (Z.of_nat (index boxBlock + k)))
              (positionAt boxDoc
                 (Z.of_nat (index boxBlock + k + length (name frameComponent))))
       /\ slice (getText boxDoc) (index boxBlock + k)
            (index boxBlock + k + length (name frameComponent))
          = name frameComponent.
Proof.
  assert (execAll namedExportRegex (getText boxDoc) = Some [boxBlock])
    as H1 by (vm_compute; reflexivity).
  assert (In boxBlock [boxBlock]) as H2 by (left; reflexivity).
  assert (namedComponents (getText boxDoc) boxDoc boxBlock = Some boxComponents)
    as H3 by (vm_compute; reflexivity).
  assert (In frameComponent boxComponents) as H4
    by (right; left; vm_compute; reflexivity).
  assert (isPlainName (name frameComponent) = true) as H5
    by (vm_compute; reflexivity).
  split; [exact H1 |]. split; [exact H3 |]. split; [exact H4 |].
  exact (named_export_range _ _ _ _ _ _ H1 H2 H3 H4 H5).
Defined.

(** ** A save makes the list of importers fresh *)

Lemma scan_files_sound env base : forall fs s l s',
  forM fs (importerIfAny env base) s = Some (l, s') ->
  forall u, In u l ->
    In u fs /\ exists c cs, readView env s u = Some (c :: cs)
                            /\ mightImportFromFile (c :: cs) base = Some true.
Proof.
  induction fs as [|f fs IH]; intros s l s'; cbn [forM].
  { by intros [= <- <-] u []. }
  unfold bind at 1.
  destruct (importerIfAny env base f s) as [[r1 s1]|] eqn:E1; [| done].
  unfold bind at 1.
  destruct (forM fs (importerIfAny env base) s1) as [[r2 s2]|] eqn:E2;
    [| done].
  intros [= <- <-] u Hin. apply in_app_iff in Hin as [Hin | Hin].
  - rewrite importerIfAny_eq in E1.
    destruct (readView env s f) as [[|c cs]|] eqn:Hc;
      [by injection E1 as <- _ | | by injection E1 as <- _].
    destruct (mightImportFromFile (c :: cs) base) as [[|]|] eqn:Hm;
      [| by injection E1 as <- _ | done].
    injection E1 as <- _. destruct Hin as [<- | []].
    split; [by left |]. by exists c, cs.
  - destruct (IH _ _ _ E2 u Hin) as (Hfs & c & cs & Hc & Hm).
    split; [by right |]. exists c, cs. split; [| done].
    apply importerIfAny_scanKeeps in E1 as (_ & _ & _ & Hv). by rewrite <- Hv.
Qed.

Lemma scan_folders_sound env base (files : WorkspaceFolder -> list Uri) :
  forall folders s l s',
    forM folders (fun folder => forM (files folder) (importerIfAny env base)) s
    = Some (l, s') ->
    forall u, In u l ->
      (exists folder, In folder folders /\ In u (files folder))
      /\ exists c cs, readView env s u = Some (c :: cs)
                      /\ mightImportFromFile (c :: cs) base = Some true.
Proof.
  induction folders as [|fo folders IH]; intros s l s'; cbn [forM].
  { by intros [= <- <-] u []. }
  unfold bind at 1.
  destruct (forM (files fo) (importerIfAny env base) s) as [[r1 s1]|] eqn:E1;
    [| done].
  unfold bind at 1.
  destruct (forM folders _ s1) as [[r2 s2]|] eqn:E2; [| done].
  intros [= <- <-] u Hin. apply in_app_iff in Hin as [Hin | Hin].
  - destruct (scan_files_sound _ _ _ _ _ _ E1 u Hin) as (Hfs & Hc).
    split; [| done]. exists fo. split; [by left | done].
  - destruct (IH _ _ _ E2 u Hin) as ((folder & Hfo & Hfs) & c & cs & Hc & Hm).
    split; [exists folder; split; [by right | done] |].
    exists c, cs. split; [| done].
    apply scan_files_keeps in E1 as (_ & _ & _ & Hv). by rewrite <- Hv.
Qed.

(** What a search for the importers does when no list is cached. *)
Lemma findFiles_miss env document st l st' :
  importingFilesCache st !! uriKey (uri document) = None ->
  findFilesImportingFromCached env document st = Some (l, st') ->
  match workspaceFolders env with
  | Some _ =>
      importingFilesCache st' !! uriKey (uri document) = Some l
      /\ forall u, In u l <->
           enumerated env u /\ fsPath u <> fileName document
           /\ exists c cs,
                readView env st u = Some (c :: cs)
                /\ mightImportFromFile (c :: cs) (styleBaseName document)
                   = Some true
  | None => l = [] /\ st' = st
  end.
Proof.
  intros Hmiss H. pose proof H as H'.
  unfold findFilesImportingFromCached, bind, gets, modify, ret in H.
  rewrite Hmiss in H.
  destruct (workspaceFolders env) as [folders|] eqn:Hws;
    [| by injection H as <- <-].
  destruct (forM folders _ st) as [[l1 s1]|] eqn:E; [| done].
  injection H as <- <-. split; [simpl; by rewrite lookup_insert_eq |].
  intros u. split.
  - intros Hin.
    destruct (scan_folders_sound _ _ _ _ _ _ _ E u Hin)
      as ((fo & Hfo & Hf) & Hc).
    apply list_elem_of_In, list_elem_of_filter in Hf as [Hne Hf].
    apply list_elem_of_In, findFiles_In in Hf as (f & Hf & Hu & Hp & Hx).
    split; [exists fo, f; by rewrite Hws |]. split; [| done].
    intros E'. apply negb_True in Hne. apply Hne.
    unfold jseqb. by apply bool_decide_pack.
  - intros (Henum & Hne & c & cs & Hc & Hm).
    by eapply importer_is_listed.
Qed.

(** X12. A save of a document, like the command run on it, makes the list
    of its importers fresh. When the document is of a JavaScript or
    TypeScript mode and passes the pre-filter, the list kept for it
    afterwards is exactly the enumerated workspace files, the document
    itself left out, whose content as the content store hands it out
    passes the import test; without a workspace, no list is kept. *)
Theorem save_rescans_importers (env : Env) (e : Event) (document : Document)
    (st st' : State) :
  e = EvSave document \/ e = EvCommand (Some document) ->
  isJsOrTsFile document = true ->
  isStyledComponentFile (getText document) = true ->
  handle env e st = Some (tt, st') ->
  match workspaceFolders env with
  | Some _ =>
      exists l,
        importingFilesCache st' !! uriKey (uri document) = Some l
        /\ forall u, In u l <->
             enumerated env u /\ fsPath u <> fileName document
             /\ exists c cs,
                  readView env st u = Some (c :: cs)
                  /\ mightImportFromFile (c :: cs) (styleBaseName document)
                     = Some true
  | None => importingFilesCache st' !! uriKey (uri document) = None
  end.
Proof.
  intros He Hjs Hpre Hrun.
  assert (checkDocument env document
            (invalidateCachesForFile (uri document) st) = Some (tt, st'))
    as Hcheck.
  { destruct He as [-> | ->]; cbn [handle] in Hrun.
    - unfold onDidSaveTextDocument, bind, modify, scheduleCheck in Hrun.
      by rewrite Hjs in Hrun.
    - exact Hrun. }
  rewrite checkDocument_styled in Hcheck by done.
  apply checkStyled_spec in Hcheck
    as (comps & l & stA & _ & Hl & _ & _ & Hsame & _).
  apply findFiles_miss in Hl; [| simpl; by rewrite lookup_delete_eq].
  rewrite Hsame.
  destruct (workspaceFolders env) as [folders|].
  - destruct Hl as [Hcache Hmem]. exists l. split; [done |].
    intros u. rewrite Hmem.
    assert (fsPath u <> fileName document ->
            readView env
              (setDiagnostics (delete (uriKey (uri document)))
                 (invalidateCachesForFile (uri document) st)) u
            = readView env st u) as Hview.
    { intros Hne. apply readView_depends. simpl.
      apply lookup_delete_ne. intros E. apply uriKey_inj in E.
      apply Hne. unfold fileName. by rewrite E. }
    split; intros (Henum & Hne & c & cs & Hc & Hm);
      (split; [done |]); (split; [done |]); exists c, cs;
      (split; [| done]); [by rewrite <- Hview | by rewrite Hview].
  - destruct Hl as [_ ->]. simpl. by rewrite lookup_delete_eq.
Qed.

Lemma save_rescans_importers_witness :
  handle changedEnv (EvSave boxDoc) boxChecked
  = Some (tt, stateAfter (handle changedEnv (EvSave boxDoc)) boxChecked)
  /\ exists l,
       importingFilesCache
         (stateAfter (handle changedEnv (EvSave boxDoc)) boxChecked)
       !! uriKey (uri boxDoc) = Some l
       /\ forall u, In u l <->
            enumerated changedEnv u /\ fsPath u <> fileName boxDoc
            /\ exists c cs,
                 readView changedEnv boxChecked u = Some (c :: cs)
                 /\ mightImportFromFile (c :: cs) (styleBaseName boxDoc)
                    = Some true.
Proof.
  assert (EvSave boxDoc = EvSave boxDoc
          \/ EvSave boxDoc = EvCommand (Some boxDoc)) as H0
    by (left; reflexivity).
  assert (isJsOrTsFile boxDoc = true) as H1 by (vm_compute; reflexivity).
  assert (isStyledComponentFile (getText boxDoc) = true) as H2
    by (vm_compute; reflexivity).
  assert (handle changedEnv (EvSave boxDoc) boxChecked
          = Some (tt, stateAfter (handle changedEnv (EvSave boxDoc)) boxChecked))
    as H3 by (vm_compute; reflexivity).
  split; [exact H3 |].
  exact (save_rescans_importers changedEnv _ boxDoc _ _ H0 H1 H2 H3).
Defined.

(** ** A text without [export] *)

Lemma execAll_without_prefix (w : jsstring) (rest : list regex) text :
  includes text w = false -> execAll (rcat (rlit w :: rest)) text = Some [].
Proof.
  intros Hno. unfold execAll. cbn [execLoop].
  destruct (exec _ text 0) as [m|] eqn:E; [| done].
  apply exec_Matches in E. unfold rcat in E. cbn [foldr] in E.
  apply Matches_seq in E as (k & E & _). apply Matches_rlit in E.
  assert (includes text w = true) as Hyes by (by eapply spanIs_includes).
  congruence.
Qed.

(** X13. A text in which [export] does not occur has no exported
    component: both loops of the extractor end at once. *)
Theorem no_export_no_components (text : jsstring) (document : Document) :
  includes text (lit "export") = false ->
  getExportedComponents text document = Some [].
Proof.
  intros Hno. unfold getExportedComponents.
  unfold namedExportRegex, directExportRegex.
  by rewrite !(execAll_without_prefix _ _ _ Hno).
Qed.

Lemma no_export_no_components_witness :
  includes (getText plainDoc) (lit "export") = false
  /\ getExportedComponents (getText plainDoc) plainDoc = Some [].
Proof.
  assert (includes (getText plainDoc) (lit "export") = false) as H
    by (vm_compute; reflexivity).
  split; [exact H |].
  exact (no_export_no_components (getText plainDoc) plainDoc H).
Defined.
